(** * porqpine: the query-result cache of [src/collectionWrapper.js]

    A shallow embedding of [cachedAggregate], [cachedMapReduce],
    [parseCacheFuncParams], [hashQueryArgs] and [saveResultToCache], with the
    JavaScript values they handle, the platform functions they call
    (lodash's [isEmpty], [JSON.stringify], the md5 digest and its base64
    rendering) and the driver they talk to (collection resolver, cache
    lookup, query executor, upsert, completion handler); then [wrap] and
    [ensurePromisifiedCursor] of the same file, and the connections of
    [mongoWrapper.js]: [setConfig], [getDb], [close],
    [buildConnectionString] and [getConnectionOptions]. *)

From Stdlib Require Import ZArith List String Ascii Bool Lia DecimalString.
Import ListNotations.
Local Open Scope string_scope.
Local Open Scope list_scope.
Local Open Scope Z_scope.

(** ** JavaScript values *)

(** The values that flow through the module.  A number is an integer:
    [VNum n] stands for the double nearest to [n], which is [n] itself up
    to 2^53, and for an infinity beyond the doubles; a string is
    its sequence of bytes; a function is known by its source text, which is
    all the module ever asks of it ([value.toString()]); an object lists its
    own enumerable properties in enumeration order. *)
#[warnings="-register-all"]
Inductive value : Type :=
| VUndefined
| VNull
| VBool (b : bool)
| VNum (n : Z)
| VStr (s : string)
| VFun (src : string)
| VArr (items : list value)
| VObj (fields : list (string * value)).

Module JS.

Local Open Scope string_scope.
Local Open Scope Z_scope.

(** Result of evaluating an expression or a statement list: a value, or a
    thrown exception. *)
Inductive completion (A : Type) : Type :=
| Normal (a : A)
| Thrown (e : value).
Arguments Normal {A} a.
Arguments Thrown {A} e.

(** ToBoolean: [undefined], [null], [false], [0] and the empty string are
    falsy, everything else is truthy. *)
Definition truthy (v : value) : bool :=
  match v with
  | VUndefined | VNull => false
  | VBool b => b
  | VNum n => negb (n =? 0)
  | VStr s => negb (String.eqb s EmptyString)
  | VFun _ | VArr _ | VObj _ => true
  end.

Definition nullish (v : value) : bool :=
  match v with
  | VUndefined | VNull => true
  | _ => false
  end.

Fixpoint assoc (k : string) (fields : list (string * value)) : value :=
  match fields with
  | [] => VUndefined
  | (k', v) :: rest => if String.eqb k k' then v else assoc k rest
  end.

(** [v.k] for a [v] that is neither [undefined] nor [null], and for the
    property names this module reads (none of which a primitive, an array
    or a function carries). *)
Definition prop (v : value) (k : string) : value :=
  match v with
  | VObj fields => assoc k fields
  | _ => VUndefined
  end.

Definition TypeError (msg : string) : value :=
  VObj [("name", VStr "TypeError"); ("message", VStr msg)].

(** [v.k]: reading a property of [undefined] or [null] throws. *)
Definition get (v : value) (k : string) : completion value :=
  if nullish v
  then Thrown (TypeError ("Cannot read property " ++ k))
  else Normal (prop v k).

(** [a || b] on values already evaluated. *)
Definition or_ (a b : value) : value := if truthy a then a else b.

Definition is_string (v : value) : bool :=
  match v with VStr _ => true | _ => false end.

Definition is_function (v : value) : bool :=
  match v with VFun _ => true | _ => false end.

(** [a[i]]: out of range reads give [undefined]. *)
Definition index (a : list value) (i : nat) : value := nth i a VUndefined.

(** [a.pop()]: the last element ([undefined] when there is none) and the
    array without it. *)
Definition pop (a : list value) : value * list value :=
  (last a VUndefined, removelast a).

(** [a.slice(1)]. *)
Definition slice1 (a : list value) : list value := tl a.

(** *** Numbers as text *)

(** The decimal digits of a natural number. *)
Definition decimal (n : Z) : string := NilZero.string_of_int (Z.to_int n).

(** The double nearest to the natural number [n], ties to the even
    mantissa of 53 bits; [None] for an infinity. *)
Definition nearest (n : Z) : option Z :=
  let shift := Z.log2 n + 1 - 53 in
  if shift <=? 0 then Some n
  else
    let q := Z.shiftr n shift in
    let r := n mod 2 ^ shift in
    let half := 2 ^ (shift - 1) in
    let q := if (half <? r) || ((r =? half) && Z.odd q) then q + 1 else q in
    let x := q * 2 ^ shift in
    if x <? 2 ^ 1024 then Some x else None.

(** The numbers of [k] digits next to [x], a double of [L] digits, below
    and above, each as its digits [s] and the position [n] of its decimal
    point: it is [s * 10^(n - k)].  The one that reads back as [x] is
    kept, the closer one when both do, the even one when they are as
    close. *)
Definition written (x L k : Z) : option (Z * Z) :=
  let unit := 10 ^ (L - k) in
  let lo := x / unit in
  let hi := lo + 1 in
  let below := (lo, L) in
  let above := if hi =? 10 ^ k then (10 ^ (k - 1), L + 1) else (hi, L) in
  let reads_back (v : Z) :=
    match nearest v with
    | Some y => y =? x
    | None => false
    end in
  match reads_back (lo * unit), reads_back (hi * unit) with
  | true, true =>
      let d_lo := x - lo * unit in
      let d_hi := hi * unit - x in
      if (d_lo <? d_hi) || ((d_lo =? d_hi) && Z.even lo)
      then Some below else Some above
  | true, false => Some below
  | false, true => Some above
  | false, false => None
  end.

(** The fewest digits that read back as [x], from [k] digits on. *)
Fixpoint shortest (fuel : nat) (k x L : Z) : Z * Z :=
  match fuel with
  | O => (x, L)
  | S fuel' =>
      if L <? k then (x, L)
      else match written x L k with
           | Some sn => sn
           | None => shortest fuel' (k + 1) x L
           end
  end.

Fixpoint zeros (n : nat) : string :=
  match n with
  | O => EmptyString
  | S n' => String "0" (zeros n')
  end.

(** [String(n)], the text of a number: the fewest digits that read back
    as the same double, written out in full below 10^21 and with an
    exponent from there on. *)
Definition numberToString (n : Z) : string :=
  if n =? 0 then "0"
  else
    let sign := if n <? 0 then "-" else EmptyString in
    match nearest (Z.abs n) with
    | None => sign ++ "Infinity"
    | Some x =>
        let L := Z.of_nat (String.length (decimal x)) in
        let '(s, e) := shortest 17 1 x L in
        let d := decimal s in
        let k := Z.of_nat (String.length d) in
        if e <=? 21 then sign ++ d ++ zeros (Z.to_nat (e - k))
        else match d with
             | EmptyString => EmptyString
             | String c EmptyString =>
                 sign ++ String c ("e+" ++ decimal (e - 1))
             | String c rest =>
                 sign ++ String c ("." ++ rest ++ "e+" ++ decimal (e - 1))
             end
    end.

End JS.

(** ** lodash *)

Module Lodash.

(** [_.isEmpty]: [null] and [undefined] are empty, a string or an array is
    empty when its length is 0, an object when it has no own enumerable
    property, and every other value (number, boolean, function) is empty. *)
Definition isEmpty (v : value) : bool :=
  match v with
  | VStr s => String.eqb s EmptyString
  | VArr items => match items with [] => true | _ => false end
  | VObj fields => match fields with [] => true | _ => false end
  | _ => true
  end.

End Lodash.

(** ** JSON.stringify *)

Module JSON.

Local Open Scope string_scope.
Local Open Scope Z_scope.

Definition dquote : ascii := ascii_of_nat 34.
Definition backslash : ascii := ascii_of_nat 92.

Definition hex_digit (n : N) : ascii :=
  nth (N.to_nat n) (list_ascii_of_string "0123456789abcdef") "0"%char.

Definition two (a b : ascii) : string := String a (String b EmptyString).

(** One code unit inside a JSON string literal. *)
Definition quote_char (c : ascii) : string :=
  let n := N_of_ascii c in
  if (n =? 34)%N then two backslash dquote
  else if (n =? 92)%N then two backslash backslash
  else if (n =? 8)%N then two backslash "b"
  else if (n =? 9)%N then two backslash "t"
  else if (n =? 10)%N then two backslash "n"
  else if (n =? 12)%N then two backslash "f"
  else if (n =? 13)%N then two backslash "r"
  else if (n <? 32)%N
       then two backslash "u" ++ "00" ++ two (hex_digit (n / 16)) (hex_digit (n mod 16))
  else String c EmptyString.

Fixpoint quote_body (s : string) : string :=
  match s with
  | EmptyString => EmptyString
  | String c rest => quote_char c ++ quote_body rest
  end.

Definition quote (s : string) : string :=
  String dquote (quote_body s ++ String dquote EmptyString).

(** A JSON text written down with an apostrophe for every double quote. *)
Fixpoint text (s : string) : string :=
  match s with
  | EmptyString => EmptyString
  | String c rest =>
      String (if Ascii.eqb c "'" then dquote else c) (text rest)
  end.

(** A number in JSON: its text, and [null] for an infinity. *)
Definition number (n : Z) : string :=
  match JS.nearest (Z.abs n) with
  | Some _ => JS.numberToString n
  | None => "null"
  end.

Fixpoint join (sep : string) (parts : list string) : string :=
  match parts with
  | [] => EmptyString
  | [p] => p
  | p :: rest => p ++ sep ++ join sep rest
  end.

(** [JSON.stringify(v)]; [None] stands for the result [undefined].  Inside
    an array, [undefined] and functions are written [null]; a property
    whose value is [undefined] or a function is left out.  No object is
    taken to define [toJSON]. *)
Fixpoint stringify (v : value) : option string :=
  match v with
  | VUndefined | VFun _ => None
  | VNull => Some "null"
  | VBool b => Some (if b then "true" else "false")
  | VNum n => Some (number n)
  | VStr s => Some (quote s)
  | VArr items =>
      Some ("[" ++ join ","
              (map (fun x => match stringify x with
                             | Some t => t
                             | None => "null"
                             end) items) ++ "]")
  | VObj fields =>
      Some ("{" ++ join ","
              (flat_map (fun kx => match stringify (snd kx) with
                                   | Some t => [quote (fst kx) ++ ":" ++ t]
                                   | None => []
                                   end) fields) ++ "}")
  end.

(** [JSON.stringify] of an array, which is always a string. *)
Definition stringify_array (items : list value) : string :=
  match stringify (VArr items) with
  | Some t => t
  | None => EmptyString
  end.

End JSON.

(** ** The digest: md5, rendered in base64 *)

Module Digest.

Definition w32 (x : Z) : Z := x mod 2 ^ 32.

Definition not32 (x : Z) : Z := Z.lxor x 0xffffffff.

(** Left rotation of a 32-bit word. *)
Definition rotl32 (x c : Z) : Z :=
  w32 (Z.lor (Z.shiftl x c) (Z.shiftr x (32 - c))).

(** The [n] low bytes of [x], least significant first. *)
Fixpoint le_bytes (n : nat) (x : Z) : list Z :=
  match n with
  | O => []
  | S k => x mod 256 :: le_bytes k (x / 256)
  end.

(** Little-endian 32-bit words of a byte sequence. *)
Fixpoint le_words (bs : list Z) : list Z :=
  match bs with
  | b0 :: b1 :: b2 :: b3 :: rest =>
      (b0 + 256 * (b1 + 256 * (b2 + 256 * b3))) :: le_words rest
  | _ => []
  end.

Definition K : list Z :=
  [ 0xd76aa478; 0xe8c7b756; 0x242070db; 0xc1bdceee;
    0xf57c0faf; 0x4787c62a; 0xa8304613; 0xfd469501;
    0x698098d8; 0x8b44f7af; 0xffff5bb1; 0x895cd7be;
    0x6b901122; 0xfd987193; 0xa679438e; 0x49b40821;
    0xf61e2562; 0xc040b340; 0x265e5a51; 0xe9b6c7aa;
    0xd62f105d; 0x02441453; 0xd8a1e681; 0xe7d3fbc8;
    0x21e1cde6; 0xc33707d6; 0xf4d50d87; 0x455a14ed;
    0xa9e3e905; 0xfcefa3f8; 0x676f02d9; 0x8d2a4c8a;
    0xfffa3942; 0x8771f681; 0x6d9d6122; 0xfde5380c;
    0xa4beea44; 0x4bdecfa9; 0xf6bb4b60; 0xbebfbc70;
    0x289b7ec6; 0xeaa127fa; 0xd4ef3085; 0x04881d05;
    0xd9d4d039; 0xe6db99e5; 0x1fa27cf8; 0xc4ac5665;
    0xf4292244; 0x432aff97; 0xab9423a7; 0xfc93a039;
    0x655b59c3; 0x8f0ccc92; 0xffeff47d; 0x85845dd1;
    0x6fa87e4f; 0xfe2ce6e0; 0xa3014314; 0x4e0811a1;
    0xf7537e82; 0xbd3af235; 0x2ad7d2bb; 0xeb86d391 ].

Definition shifts : list Z :=
  [ 7; 12; 17; 22; 7; 12; 17; 22; 7; 12; 17; 22; 7; 12; 17; 22;
    5; 9; 14; 20; 5; 9; 14; 20; 5; 9; 14; 20; 5; 9; 14; 20;
    4; 11; 16; 23; 4; 11; 16; 23; 4; 11; 16; 23; 4; 11; 16; 23;
    6; 10; 15; 21; 6; 10; 15; 21; 6; 10; 15; 21; 6; 10; 15; 21 ].

Definition regs : Type := (Z * Z * Z * Z)%type.

Definition init : regs := (0x67452301, 0xefcdab89, 0x98badcfe, 0x10325476).

(** Operation [i] of the 64 applied to one 16-word block [m]. *)
Definition step (m : list Z) (r : regs) (i : nat) : regs :=
  let '(a, b, c, d) := r in
  let iz := Z.of_nat i in
  let '(f, g) :=
    if iz <? 16 then (Z.lor (Z.land b c) (Z.land (not32 b) d), iz)
    else if iz <? 32 then (Z.lor (Z.land d b) (Z.land (not32 d) c), (5 * iz + 1) mod 16)
    else if iz <? 48 then (Z.lxor (Z.lxor b c) d, (3 * iz + 5) mod 16)
    else (Z.lxor c (Z.lor b (not32 d)), (7 * iz) mod 16) in
  let f' := w32 (f + a + nth i K 0 + nth (Z.to_nat g) m 0) in
  (d, w32 (b + rotl32 f' (nth i shifts 0)), b, c).

Definition block (r : regs) (m : list Z) : regs :=
  let '(a0, b0, c0, d0) := r in
  let '(a, b, c, d) := fold_left (step m) (seq 0 64) r in
  (w32 (a0 + a), w32 (b0 + b), w32 (c0 + c), w32 (d0 + d)).

Fixpoint blocks (n : nat) (ws : list Z) (r : regs) : regs :=
  match n with
  | O => r
  | S k => blocks k (skipn 16 ws) (block r (firstn 16 ws))
  end.

(** The message followed by a 1 bit, zeros up to 56 modulo 64 bytes, and
    the bit length on 64 bits. *)
Definition pad (msg : list Z) : list Z :=
  let len := Z.of_nat (List.length msg) in
  msg ++ [0x80] ++ repeat 0 (Z.to_nat ((55 - len) mod 64))
      ++ le_bytes 8 ((8 * len) mod 2 ^ 64).

(** The 16 bytes of the md5 digest of a byte sequence. *)
Definition md5 (msg : list Z) : list Z :=
  let ws := le_words (pad msg) in
  let '(a, b, c, d) := blocks (List.length ws / 16) ws init in
  le_bytes 4 a ++ le_bytes 4 b ++ le_bytes 4 c ++ le_bytes 4 d.

Definition b64_char (n : Z) : ascii :=
  nth (Z.to_nat n)
    (list_ascii_of_string
       "ABCDEFGHIJKLMNOPQRSTUVWXYZabcdefghijklmnopqrstuvwxyz0123456789+/")
    "A"%char.

Definition pad_char : ascii := "="%char.

(** Base64 with padding: three bytes give four characters. *)
Fixpoint base64 (bs : list Z) : string :=
  match bs with
  | [] => EmptyString
  | [a] =>
      String (b64_char (a / 4)) (String (b64_char (a mod 4 * 16))
        (String pad_char (String pad_char EmptyString)))
  | [a; b] =>
      String (b64_char (a / 4)) (String (b64_char (a mod 4 * 16 + b / 16))
        (String (b64_char (b mod 16 * 4)) (String pad_char EmptyString)))
  | a :: b :: c :: rest =>
      String (b64_char (a / 4)) (String (b64_char (a mod 4 * 16 + b / 16))
        (String (b64_char (b mod 16 * 4 + c / 64)) (String (b64_char (c mod 64))
          (base64 rest))))
  end.

Definition bytes_of_string (s : string) : list Z :=
  map (fun c => Z.of_N (N_of_ascii c)) (list_ascii_of_string s).


(** [crypto.createHash('md5')], [update(text)], [digest('base64')]. *)
Definition md5_base64 (text : string) : string :=
  base64 (md5 (bytes_of_string text)).

End Digest.

(** ** Argument normalizer and fingerprint *)

(** The object built by [parseCacheFuncParams]. *)
Record params : Type := {
  callback : value;
  cacheOptions : value;
  queryArgsArray : list value
}.

(** [(typeof first === 'string') ? { cacheCollectionName: first } : first]. *)
Definition asCacheOptions (first : value) : value :=
  if JS.is_string first
  then VObj [("cacheCollectionName", first)]
  else first.

(** [parseCacheFuncParams(functionArgs)]: the last argument is the
    completion handler, the first one the cache options (a bare string
    stands for [{ cacheCollectionName: <string> }]), the rest the query
    arguments. *)
Definition parseCacheFuncParams (functionArgs : list value) : params :=
  let '(cb, args) := JS.pop functionArgs in
  {| callback := cb;
     cacheOptions := asCacheOptions (JS.index args 0);
     queryArgsArray := JS.slice1 args |}.

(** The callback of [_.map] in [hashQueryArgs]: a function is replaced by
    [value.toString()], its source text. *)
Definition argToHash (v : value) : value :=
  match v with
  | VFun src => VStr src
  | _ => v
  end.

(** [hashQueryArgs(argsArray)]. *)
Definition hashQueryArgs (argsArray : list value) : string :=
  let argsToHash := map argToHash argsArray in
  Digest.md5_base64 (JSON.stringify_array argsToHash).

(** ** The driver *)

(** How a promise settles. *)
Inductive outcome : Type :=
| Resolved (v : value)
| Rejected (e : value).

(** What the module does to the outside, in the order it does it. *)
Inductive event : Type :=
| Collection (name : value)
| FindOne (coll selector : value)
| Aggregate (args : list value)
| MapReduce (args : list value)
| Update (coll selector doc options : value)
| Callback (f : value) (args : list value)
| Unhandled (e : value).

(** When [update] calls the callback it was given: inside the call,
    before [update] returns (as a stub that calls its argument does, and
    a driver that does not wait for the server), or after it, once the
    server has answered. *)
Inductive called_back : Type :=
| InsideTheCall
| AfterTheCall.

(** The asynchronous collaborators, over a world [W] they read and change:
    [findOneAsync] and [update] of a collection handle, [aggregateAsync]
    and [mapReduceAsync] of the collection the cached call is made on,
    the clock behind [new Date()], and the body of a caller's function
    ([None]: it returns, [Some e]: it throws [e]).  [update coll selector
    doc options] calls its callback once: it gives when, and the error
    the callback receives. *)
Class Driver (W : Type) : Type := {
  findOneAsync : value -> value -> W -> outcome * W;
  aggregateAsync : list value -> W -> outcome * W;
  mapReduceAsync : list value -> W -> outcome * W;
  update : value -> value -> value -> value -> W -> (called_back * value) * W;
  newDate : W -> value * W;
  applyFunction : value -> list value -> W -> option value * W
}.

(** Modelled from the spec: the Collection Resolver is synchronous and
    always succeeds, also for a collection that does not exist yet; the
    handle it returns is an object that carries the name it was asked for
    as [collectionName]. *)
Definition collection_handle (name : value) : value :=
  VObj [("collectionName", name)].

Section Core.

Context {W : Type} {D : Driver W}.

(** The world of the collaborators and the events so far. *)
Record state : Type := {
  world : W;
  trace : list event
}.

(** A computation that may throw, over [state]. *)
Definition M (A : Type) : Type := state -> JS.completion A * state.

Definition ret {A : Type} (a : A) : M A := fun s => (JS.Normal a, s).

Definition bind {A B : Type} (m : M A) (k : A -> M B) : M B :=
  fun s =>
    match m s with
    | (JS.Normal a, s') => k a s'
    | (JS.Thrown e, s') => (JS.Thrown e, s')
    end.

Definition throw {A : Type} (e : value) : M A := fun s => (JS.Thrown e, s).

Definition lift {A : Type} (c : JS.completion A) : M A := fun s => (c, s).

Definition try_catch {A : Type} (m : M A) (h : value -> M A) : M A :=
  fun s =>
    match m s with
    | (JS.Thrown e, s') => h e s'
    | r => r
    end.

Definition emit (ev : event) : M unit :=
  fun s => (JS.Normal tt, {| world := world s; trace := trace s ++ [ev] |}).

Definition perform {A : Type} (f : W -> A * W) : M A :=
  fun s =>
    let '(a, w) := f (world s) in
    (JS.Normal a, {| world := w; trace := trace s |}).

Local Notation "x <- m ;; k" := (bind m (fun x => k))
  (at level 61, m at next level, right associativity).
Local Notation "m ;; k" := (bind m (fun _ => k))
  (at level 61, right associativity).

(** ** The cached operations *)


(** A chain whose rejection nobody handles: the error is lost to the
    caller and reported by the runtime. *)
Definition detached (m : M unit) : M unit :=
  try_catch m (fun e => emit (Unhandled e)).

(** [f(args)] for a value [f]: calling what is not a function throws. *)
Definition call (f : value) (args : list value) : M unit :=
  if JS.is_function f
  then emit (Callback f args) ;;
       r <- perform (applyFunction f args) ;;
       match r with
       | None => ret tt
       | Some e => throw e
       end
  else throw (JS.TypeError "not a function").

(** The rejection handler installed by [.catch(f)]: a [f] that is not a
    function handles nothing. *)
Definition on_rejected (f : value) (e : value) : M unit :=
  if JS.is_function f then call f [e] else throw e.

(** [promise.then(h).catch(f);] as a statement, for a [promise] settled as
    [o]: [h] runs on the resolved value, [f] on a rejection of [promise]
    or on what [h] throws, and what [f] throws is handled by nobody. *)
Definition then_catch (o : outcome) (h : value -> M unit) (f : value)
  : M unit :=
  detached
    (try_catch
       (match o with
        | Resolved v => h v
        | Rejected e => throw e
        end)
       (on_rejected f)).

(** [db.collection(name)]. *)
Definition db_collection (name : value) : M value :=
  emit (Collection name) ;;
  ret (collection_handle name).

(** [saveResultToCache(cacheCollection, queryHash, resultToCache,
    callback)]: one [update] with [upsert: true], selected by and carrying
    [queryHash], which is handed [callback].  When [update] calls it
    before returning, what [callback] throws is thrown by [update], and so
    by [saveResultToCache], into the chain it was called from; when
    [update] calls it later, it runs outside every promise chain. *)
Definition saveResultToCache (cacheCollection : value) (queryHash : string)
    (resultToCache : value) (callback : value -> M unit) : M unit :=
  now <- perform newDate ;;
  let selector := VObj [("queryHash", VStr queryHash)] in
  let doc := VObj [("queryHash", VStr queryHash);
                   ("cachedAt", now);
                   ("cachedResult", resultToCache)] in
  let options := VObj [("upsert", VBool true)] in
  emit (Update cacheCollection selector doc options) ;;
  answer <- perform (update cacheCollection selector doc options) ;;
  match fst answer with
  | InsideTheCall => callback (snd answer)
  | AfterTheCall => detached (callback (snd answer))
  end.

(** [!_.isEmpty(cacheEntry) && !params.cacheOptions.forceUpdateCache]. *)
Definition useCached (cacheEntry : value) (p : params) : M bool :=
  if negb (Lodash.isEmpty cacheEntry)
  then force <- lift (JS.get (cacheOptions p) "forceUpdateCache") ;;
       ret (negb (JS.truthy force))
  else ret false.

(** [cachedAggregate(cacheOptions, pipeline[, options], callback)]. *)
Definition cachedAggregate (arguments : list value) : M unit :=
  let params := parseCacheFuncParams arguments in
  let argsHash := hashQueryArgs (queryArgsArray params) in
  name <- lift (JS.get (cacheOptions params) "cacheCollectionName") ;;
  cacheCollection <- db_collection (JS.or_ name (VStr "queryCache")) ;;
  let selector := VObj [("queryHash", VStr argsHash)] in
  emit (FindOne cacheCollection selector) ;;
  found <- perform (findOneAsync cacheCollection selector) ;;
  then_catch found
    (fun cacheEntry =>
       cached <- useCached cacheEntry params ;;
       if (cached : bool)
       then cachedResult <- lift (JS.get cacheEntry "cachedResult") ;;
            call (callback params) [VNull; cachedResult]
       else emit (Aggregate (queryArgsArray params)) ;;
            ran <- perform (aggregateAsync (queryArgsArray params)) ;;
            then_catch ran
              (fun results =>
                 saveResultToCache cacheCollection argsHash results
                   (fun err => call (callback params) [err; results]))
              (callback params))
    (callback params).

(** [params.queryArgsArray[2] && params.queryArgsArray[2].out &&
    params.queryArgsArray[2].out.inline || false]. *)
Definition usesInlineOutput (queryArgsArray : list value)
  : JS.completion value :=
  let third := JS.index queryArgsArray 2 in
  if JS.truthy third
  then match JS.get third "out" with
       | JS.Thrown e => JS.Thrown e
       | JS.Normal out =>
           if JS.truthy out
           then match JS.get out "inline" with
                | JS.Thrown e => JS.Thrown e
                | JS.Normal inline => JS.Normal (JS.or_ inline (VBool false))
                end
           else JS.Normal (JS.or_ out (VBool false))
       end
  else JS.Normal (JS.or_ third (VBool false)).

(** [usesInlineOutput ? result : (result && result.collectionName)]. *)
Definition resultToCache (usesInline result : value) : M value :=
  if JS.truthy usesInline then ret result
  else if JS.truthy result then lift (JS.get result "collectionName")
  else ret result.

(** [cachedMapReduce(cacheOptions, map, reduce[, options], callback)]. *)
Definition cachedMapReduce (arguments : list value) : M unit :=
  let params := parseCacheFuncParams arguments in
  let argsHash := hashQueryArgs (queryArgsArray params) in
  name <- lift (JS.get (cacheOptions params) "cacheCollectionName") ;;
  cacheCollection <- db_collection (JS.or_ name (VStr "queryCache")) ;;
  usesInline <- lift (usesInlineOutput (queryArgsArray params)) ;;
  let selector := VObj [("queryHash", VStr argsHash)] in
  emit (FindOne cacheCollection selector) ;;
  found <- perform (findOneAsync cacheCollection selector) ;;
  then_catch found
    (fun cacheEntry =>
       cached <- useCached cacheEntry params ;;
       if (cached : bool)
       then cachedResult <- lift (JS.get cacheEntry "cachedResult") ;;
            result <- (if JS.truthy usesInline
                       then ret cachedResult
                       else db_collection cachedResult) ;;
            call (callback params) [VNull; result]
       else emit (MapReduce (queryArgsArray params)) ;;
            ran <- perform (mapReduceAsync (queryArgsArray params)) ;;
            then_catch ran
              (fun result =>
                 toCache <- resultToCache usesInline result ;;
                 saveResultToCache cacheCollection argsHash toCache
                   (fun err => call (callback params) [err; result]))
              (callback params))
    (callback params).

(** The events of an invocation started in world [w], and how its
    synchronous part ends. *)
Definition run (m : M unit) (w : W) : JS.completion unit * state :=
  m {| world := w; trace := [] |}.

End Core.

Arguments state W : clear implicits.
Arguments M W A : clear implicits.

(** ** A document store behind the driver *)

Module Store.

(** Equality of values, as the store compares a selector's field with a
    document's. *)
Fixpoint value_eqb (a b : value) : bool :=
  match a, b with
  | VUndefined, VUndefined => true
  | VNull, VNull => true
  | VBool x, VBool y => Bool.eqb x y
  | VNum x, VNum y => Z.eqb x y
  | VStr x, VStr y => String.eqb x y
  | VFun x, VFun y => String.eqb x y
  | VArr xs, VArr ys =>
      (fix items (xs ys : list value) : bool :=
         match xs, ys with
         | [], [] => true
         | x :: xs', y :: ys' => value_eqb x y && items xs' ys'
         | _, _ => false
         end) xs ys
  | VObj xs, VObj ys =>
      (fix fields (xs ys : list (string * value)) : bool :=
         match xs, ys with
         | [], [] => true
         | (k, x) :: xs', (l, y) :: ys' =>
             String.eqb k l && value_eqb x y && fields xs' ys'
         | _, _ => false
         end) xs ys
  | _, _ => false
  end.

(** A document matches a selector when it has every field of the selector
    with an equal value. *)
Definition matches (selector doc : value) : bool :=
  match selector with
  | VObj fields =>
      forallb (fun kv => value_eqb (JS.prop doc (fst kv)) (snd kv)) fields
  | _ => false
  end.

(** The first document that matches, or [null]. *)
Definition find_one (selector : value) (docs : list value) : value :=
  match find (matches selector) docs with
  | Some d => d
  | None => VNull
  end.

(** Replace the first document that matches; [None] when none does. *)
Fixpoint replace_first (selector doc : value) (docs : list value)
  : option (list value) :=
  match docs with
  | [] => None
  | d :: rest =>
      if matches selector d then Some (doc :: rest)
      else option_map (cons d) (replace_first selector doc rest)
  end.

(** Modelled from the spec: [upsert(filter, document)] of the Key-Value
    Store.  An update by a whole document replaces the first document the
    selector matches; with [upsert] set and no match, the document is
    added. *)
Definition update_docs (selector doc options : value) (docs : list value)
  : list value :=
  match replace_first selector doc docs with
  | Some docs' => docs'
  | None => if JS.truthy (JS.prop options "upsert") then docs ++ [doc] else docs
  end.

(** The database: the documents of every collection, by collection name;
    the time; and what the collaborators of one invocation do: whether the
    lookup and the write fail, when the write calls back, how the query
    settles and what it makes of the collections (a map-reduce into a
    collection writes that collection, an aggregation that ends with
    [$out] too), whether the caller's handler throws. *)
Record mongo : Type := {
  collections : value -> list value;
  clock : Z;
  lookup_error : option value;
  write_error : option value;
  write_answered : called_back;
  aggregate_outcome : list value -> outcome;
  aggregate_writes : list value -> (value -> list value) -> value -> list value;
  mapReduce_outcome : list value -> outcome;
  mapReduce_writes : list value -> (value -> list value) -> value -> list value;
  handler_throws : value -> list value -> option value
}.

Definition name_of (coll : value) : value := JS.prop coll "collectionName".

(** The database with other documents. *)
Definition with_collections (w : mongo) (docs : value -> list value)
  : mongo :=
  {| collections := docs;
     clock := clock w;
     lookup_error := lookup_error w;
     write_error := write_error w;
     write_answered := write_answered w;
     aggregate_outcome := aggregate_outcome w;
     aggregate_writes := aggregate_writes w;
     mapReduce_outcome := mapReduce_outcome w;
     mapReduce_writes := mapReduce_writes w;
     handler_throws := handler_throws w |}.

Definition set_collection (w : mongo) (name : value) (docs : list value)
  : mongo :=
  with_collections w
    (fun n => if value_eqb n name then docs else collections w n).

(** Modelled from the spec: the Key-Value Store operations [findOne] and
    [upsert] on a collection handle, both of which may fail; a write that
    fails stores nothing.  A query leaves the collections as it makes
    them. *)
#[global] Instance driver : Driver mongo := {
  findOneAsync coll selector w :=
    (match lookup_error w with
     | Some e => Rejected e
     | None => Resolved (find_one selector (collections w (name_of coll)))
     end, w);
  aggregateAsync args w :=
    (aggregate_outcome w args,
     with_collections w (aggregate_writes w args (collections w)));
  mapReduceAsync args w :=
    (mapReduce_outcome w args,
     with_collections w (mapReduce_writes w args (collections w)));
  update coll selector doc options w :=
    match write_error w with
    | Some e => ((write_answered w, e), w)
    | None =>
        ((write_answered w, VNull),
         set_collection w (name_of coll)
           (update_docs selector doc options (collections w (name_of coll))))
    end;
  newDate w := (VNum (clock w), w);
  applyFunction f args w := (handler_throws w f args, w)
}.

(** [{ queryHash: h }]. *)
Definition by_hash (h : string) : value := VObj [("queryHash", VStr h)].

(** The document is an entry filed under [h]: the lookup by [h] selects
    it. *)
Definition has_hash (h : string) (doc : value) : bool :=
  matches (by_hash h) doc.

(** Number of entries of a collection filed under [h]. *)
Definition entries (h : string) (docs : list value) : nat :=
  List.length (filter (has_hash h) docs).

(** At most one entry per [queryHash], in every collection. *)
Definition one_entry_per_hash (w : mongo) : Prop :=
  forall name h, (entries h (collections w name) <= 1)%nat.

(** The query executor files no cache entry and removes none: whatever a
    query writes to the database, every collection has as many entries
    under every [queryHash] after it as before. *)
Definition executor_keeps_entries (w : mongo) : Prop :=
  forall args name h,
    entries h (aggregate_writes w args (collections w) name)
    = entries h (collections w name)
    /\ entries h (mapReduce_writes w args (collections w) name)
       = entries h (collections w name).

End Store.

(** ** The test doubles of the repository's test suite *)

Module Stub.

(** What the stubs of [test/collectionWrapper.spec.js] answer, whatever
    they are asked; the stub of [update] calls its callback at once. *)
Record script : Type := {
  found : outcome;
  ran : outcome;
  written : value;
  today : value;
  thrown : list value -> option value
}.

#[global] Instance driver : Driver script := {
  findOneAsync _ _ w := (found w, w);
  aggregateAsync _ w := (ran w, w);
  mapReduceAsync _ w := (ran w, w);
  update _ _ _ _ w := ((InsideTheCall, written w), w);
  newDate w := (today w, w);
  applyFunction _ args w := (thrown w args, w)
}.

End Stub.

(** ** Fixtures of the test suite *)

Module Fixture.

(** The completion handler of a test. *)
Definition done : string := "function (err, res) { done(err); }".

(** [_result] of the [cachedAggregate] tests. *)
Definition some_result : value := VObj [("some", VStr "result")].

(** [_result] of the inline [cachedMapReduce] tests. *)
Definition inline_results : value :=
  VArr [VStr "some"; VStr "inline"; VStr "results"].

(** [_resultCollection]. *)
Definition resultCollection : value :=
  collection_handle (VStr "resultingWordCache").

(** [{ out: { inline: 1 } }]. *)
Definition inline_options : value :=
  VObj [("out", VObj [("inline", VNum 1)])].

(** The stubs of [beforeEach]: nothing cached, the query resolves with
    [result], the write succeeds and calls back without an argument. *)
Definition fresh (result : value) : Stub.script :=
  {| Stub.found := Resolved VNull;
     Stub.ran := Resolved result;
     Stub.written := VUndefined;
     Stub.today := VNum 0;
     Stub.thrown := fun _ => None |}.

(** The same with [findOneAsync] resolving [{ cachedResult: stored }]. *)
Definition cached_as (stored result : value) : Stub.script :=
  {| Stub.found := Resolved (VObj [("cachedResult", stored)]);
     Stub.ran := Resolved result;
     Stub.written := VUndefined;
     Stub.today := VNum 0;
     Stub.thrown := fun _ => None |}.

Definition cached : Stub.script := cached_as some_result some_result.

Definition query_failed : value := VStr "query failed".
Definition write_failed : value := VStr "write failed".


Definition broken_query : Stub.script :=
  {| Stub.found := Resolved VNull;
     Stub.ran := Rejected query_failed;
     Stub.written := VUndefined;
     Stub.today := VNum 0;
     Stub.thrown := fun _ => None |}.

Definition broken_write (result : value) : Stub.script :=
  {| Stub.found := Resolved VNull;
     Stub.ran := Resolved result;
     Stub.written := write_failed;
     Stub.today := VNum 0;
     Stub.thrown := fun _ => None |}.

(** [[ { $match: { x: 1 } } ]], the pipeline of the end-to-end scenario. *)
Definition pipeline : value :=
  VArr [VObj [("$match", VObj [("x", VNum 1)])]].

(** What the map-reduce of the scenario leaves in its output
    collection. *)
Definition word_counts : list value :=
  [VObj [("_id", VStr "cache"); ("value", VNum 2)];
   VObj [("_id", VStr "query"); ("value", VNum 1)]].

(** A database whose collection [testCache] holds [docs], where every
    collaborator succeeds: the aggregation writes nothing, the map-reduce
    writes [resultingWordCache], the write calls back once the server has
    answered. *)
Definition database (docs : list value) : Store.mongo :=
  {| Store.collections :=
       fun n => if Store.value_eqb n (VStr "testCache") then docs else [];
     Store.clock := 1420070400000;
     Store.lookup_error := None;
     Store.write_error := None;
     Store.write_answered := AfterTheCall;
     Store.aggregate_outcome := fun _ => Resolved some_result;
     Store.aggregate_writes := fun _ docs => docs;
     Store.mapReduce_outcome := fun _ => Resolved resultCollection;
     Store.mapReduce_writes :=
       fun _ docs n =>
         if Store.value_eqb n (VStr "resultingWordCache") then word_counts
         else docs n;
     Store.handler_throws := fun _ _ => None |}.



(** An entry cached earlier for [pipeline]. *)
Definition stale : value :=
  VObj [("queryHash", VStr (hashQueryArgs [pipeline]));
        ("cachedAt", VNum 0);
        ("cachedResult", VStr "stale")].

End Fixture.

(** ** Reading a trace *)

(** The argument lists the query executor was called with. *)
Definition queries (tr : list event) : list (list value) :=
  flat_map (fun ev => match ev with
                      | Aggregate a | MapReduce a => [a]
                      | _ => []
                      end) tr.

(** The cache writes: collection, selector, document, options. *)
Definition writes (tr : list event) : list (value * value * value * value) :=
  flat_map (fun ev => match ev with
                      | Update c s d o => [(c, s, d, o)]
                      | _ => []
                      end) tr.

(** The cache lookups: collection and selector. *)
Definition lookups (tr : list event) : list (value * value) :=
  flat_map (fun ev => match ev with
                      | FindOne c s => [(c, s)]
                      | _ => []
                      end) tr.

(** The names given to [db.collection]. *)
Definition resolutions (tr : list event) : list value :=
  flat_map (fun ev => match ev with
                      | Collection n => [n]
                      | _ => []
                      end) tr.

(** The argument lists the function [f] was called with. *)
Definition calls_of (f : value) (tr : list event) : list (list value) :=
  flat_map (fun ev => match ev with
                      | Callback g a => if Store.value_eqb g f then [a] else []
                      | _ => []
                      end) tr.

(** What is left of an error nobody handles. *)
Definition unhandled (r : option value) : list event :=
  match r with
  | None => []
  | Some e => [Unhandled e]
  end.

(** ** What the claims speak of *)

(** The arguments of a cached call: cache options, query arguments,
    completion handler. *)
Definition invocation (opts : value) (queryArgs : list value)
    (handler : string) : list value :=
  opts :: queryArgs ++ [VFun handler].

(** [params.cacheOptions.forceUpdateCache], as a condition. *)
Definition forceUpdateCache (opts : value) : bool :=
  JS.truthy (JS.prop (asCacheOptions opts) "forceUpdateCache").

(** [params.cacheOptions.cacheCollectionName || 'queryCache']. *)
Definition cacheCollectionName (opts : value) : value :=
  JS.or_ (JS.prop (asCacheOptions opts) "cacheCollectionName")
         (VStr "queryCache").

(** [{ queryHash: argsHash }]. *)
Definition selector_of (queryArgs : list value) : value :=
  VObj [("queryHash", VStr (hashQueryArgs queryArgs))].

(** The document [saveResultToCache] writes. *)
Definition entry_of (queryArgs : list value) (cachedAt cachedResult : value)
  : value :=
  VObj [("queryHash", VStr (hashQueryArgs queryArgs));
        ("cachedAt", cachedAt);
        ("cachedResult", cachedResult)].

Definition upsert_option : value := VObj [("upsert", VBool true)].

(** The third query argument carries a truthy [out.inline]. *)
Definition inline_output (queryArgs : list value) : bool :=
  JS.truthy (JS.prop (JS.prop (JS.index queryArgs 2) "out") "inline").

(** The fingerprint an invocation computes: that of its query arguments. *)
Definition argsHash (arguments : list value) : string :=
  hashQueryArgs (queryArgsArray (parseCacheFuncParams arguments)).

(** A cache write that is an upsert selected by the [queryHash] [h] and
    whose document carries the same [queryHash]; every other event
    qualifies. *)
Definition keyed_upsert (h : string) (ev : event) : Prop :=
  match ev with
  | Update _ selector doc options =>
      selector = Store.by_hash h
      /\ JS.prop doc "queryHash" = VStr h
      /\ JS.prop options "upsert" = VBool true
  | _ => True
  end.

(** The entry found is used: it is not empty and no update is forced. *)
Definition usable (entry opts : value) : bool :=
  negb (Lodash.isEmpty entry) && negb (forceUpdateCache opts).

(** What a map-reduce result is cached as. *)
Definition cacheable (inline : bool) (result : value) : value :=
  if inline then result
  else if JS.truthy result then JS.prop result "collectionName"
  else result.

Section Reading.

Context {W : Type} {D : Driver W}.

(** The events of an invocation started in world [w]. *)
Definition events (m : M W unit) (w : W) : list event :=
  trace (snd (run m w)).

(** How the synchronous part of an invocation ends. *)
Definition returns (m : M W unit) (w : W) : JS.completion unit :=
  fst (run m w).

(** What follows a call of the handler made inside the lookup's chain:
    when the handler throws, [.catch(params.callback)] hands it its own
    error. *)
Definition handed_back (handler : string) (r : option value * W)
  : list event :=
  match r with
  | (None, _) => []
  | (Some e, w) =>
      Callback (VFun handler) [e]
        :: unhandled (fst (applyFunction (VFun handler) [e] w))
  end.

(** What follows the call of the handler made by the callback of
    [update].  Inside the call of [update], what the handler throws leaves
    [saveResultToCache] and is handed to the handler by
    [.catch(params.callback)]; after it, nobody handles it. *)
Definition written_back (handler : string) (when : called_back)
    (r : option value * W) : list event :=
  match when with
  | InsideTheCall => handed_back handler r
  | AfterTheCall => unhandled (fst r)
  end.

(** The world after these calls of the handler. *)
Definition world_after (handler : string) (when : called_back)
    (r : option value * W) : W :=
  match when, r with
  | InsideTheCall, (Some e, w) => snd (applyFunction (VFun handler) [e] w)
  | _, (_, w) => w
  end.

(** The argument lists of these calls of the handler. *)
Definition called_again (when : called_back) (r : option value * W)
  : list (list value) :=
  match when, r with
  | InsideTheCall, (Some e, _) => [[e]]
  | _, _ => []
  end.

(** [m] keeps [I], however it ends. *)
Definition preserves (I : state W -> Prop) {A : Type} (m : M W A) : Prop :=
  forall s, I s -> I (snd (m s)).

End Reading.

(** ** More scenarios *)

Module Scenario.

(** Stubs with a cached entry and a callback that throws when it is handed
    a result. *)
Definition throwing_on_result (stored : value) : Stub.script :=
  {| Stub.found := Resolved (VObj [("cachedResult", stored)]);
     Stub.ran := Resolved VNull;
     Stub.written := VUndefined;
     Stub.today := VNum 0;
     Stub.thrown := fun args =>
       match args with
       | [VNull; _] => Some (VStr "callback failed")
       | _ => None
       end |}.

(** Stubs with nothing cached and a callback that throws when it is
    handed the result of the query. *)
Definition throwing_on_miss (result : value) : Stub.script :=
  {| Stub.found := Resolved VNull;
     Stub.ran := Resolved result;
     Stub.written := VUndefined;
     Stub.today := VNum 0;
     Stub.thrown := fun args =>
       match args with
       | [VUndefined; _] => Some (VStr "callback failed")
       | _ => None
       end |}.

(** An entry cached for some other query of the same collection. *)
Definition other_entry : value :=
  VObj [("queryHash", VStr "another fingerprint");
        ("cachedAt", VNum 0);
        ("cachedResult", VStr "another result")].

(** A database whose cache cannot be written. *)
Definition unwritable (docs : list value) : Store.mongo :=
  {| Store.collections :=
       fun n => if Store.value_eqb n (VStr "testCache") then docs else [];
     Store.clock := 1420070400000;
     Store.lookup_error := None;
     Store.write_error := Some (VStr "write failed");
     Store.write_answered := InsideTheCall;
     Store.aggregate_outcome := fun _ => Resolved Fixture.some_result;
     Store.aggregate_writes := Store.aggregate_writes (Fixture.database docs);
     Store.mapReduce_outcome := fun _ => Resolved Fixture.resultCollection;
     Store.mapReduce_writes := Store.mapReduce_writes (Fixture.database docs);
     Store.handler_throws := fun _ _ => None |}.

(** A database whose cache cannot be read. *)
Definition unreadable (docs : list value) : Store.mongo :=
  {| Store.collections :=
       fun n => if Store.value_eqb n (VStr "testCache") then docs else [];
     Store.clock := 1420070400000;
     Store.lookup_error := Some (VStr "lookup failed");
     Store.write_error := None;
     Store.write_answered := AfterTheCall;
     Store.aggregate_outcome := fun _ => Resolved Fixture.some_result;
     Store.aggregate_writes := Store.aggregate_writes (Fixture.database docs);
     Store.mapReduce_outcome := fun _ => Resolved Fixture.resultCollection;
     Store.mapReduce_writes := Store.mapReduce_writes (Fixture.database docs);
     Store.handler_throws := fun _ _ => None |}.

End Scenario.

(** ** Wrapping the Collection class *)

Module Prototype.

(** What a property of [Collection.prototype] holds: a value the class
    came with (a function of the driver is a [VFun]), or one of the
    functions this module puts there.  The function made by
    [ensurePromisifiedCursor] is known by the name it calls,
    [renamedOrigFunc]. *)
Inductive member : Type :=
| Plain (v : value)
| PromisifiedCursorFunction (renamedOrigFunc : string)
| CachedAggregate
| CachedMapReduce.

(** The own properties of the prototype, in the order they were added.
    None of the names this module reads or writes is inherited from
    [Object.prototype]. *)
Definition prototype : Type := list (string * member).

(** [prototype[k]]. *)
Fixpoint get (p : prototype) (k : string) : member :=
  match p with
  | [] => Plain VUndefined
  | (k', m) :: rest => if String.eqb k k' then m else get rest k
  end.

(** [prototype[k] = m]. *)
Fixpoint set (p : prototype) (k : string) (m : member) : prototype :=
  match p with
  | [] => [(k, m)]
  | (k', m') :: rest =>
      if String.eqb k k' then (k', m) :: rest else (k', m') :: set rest k m
  end.

Definition truthy (m : member) : bool :=
  match m with
  | Plain v => JS.truthy v
  | _ => true
  end.

(** [ensurePromisifiedCursor(ClassObj, funcName)]: the function found under
    [funcName] is kept under ['_' + funcName], and [funcName] gets a
    function that calls it there. *)
Definition ensurePromisifiedCursor (p : prototype) (funcName : string)
  : prototype :=
  let renamedOrigFunc := ("_" ++ funcName)%string in
  let p := set p renamedOrigFunc (get p funcName) in
  set p funcName (PromisifiedCursorFunction renamedOrigFunc).

(** [exports.wrap(Collection)], as what it makes of [Collection.prototype];
    [promisifyAll] is bluebird's [Promise.promisifyAll] on the prototype. *)
Definition wrap (promisifyAll : prototype -> prototype) (p : prototype)
  : prototype :=
  if truthy (get p "__is_wrapped__")
  then p
  else
    let p := ensurePromisifiedCursor p "find" in
    let p := ensurePromisifiedCursor p "aggregate" in
    let p := set p "cachedAggregate" CachedAggregate in
    let p := set p "cachedMapReduce" CachedMapReduce in
    let p := promisifyAll p in
    set p "__is_wrapped__" (Plain (VBool true)).

(** A stand-in for [Promise.promisifyAll]: every function of the prototype
    whose name does not start with an underscore gets a promisified twin
    under its name followed by [Async]. *)
Definition underscored (k : string) : bool :=
  match k with
  | String c _ => Ascii.eqb c "_"%char
  | EmptyString => false
  end.

Definition is_function (m : member) : bool :=
  match m with
  | Plain v => JS.is_function v
  | _ => true
  end.

Definition promisified (k : string) : member :=
  Plain (VFun ("promisified " ++ k)%string).

Definition promisifyAll (p : prototype) : prototype :=
  fold_left
    (fun q km =>
       if is_function (snd km) && negb (underscored (fst km))
       then set q (fst km ++ "Async")%string (promisified (fst km))
       else q)
    p p.

(** Whether [k] ends with [suffix]. *)
Fixpoint ends_with (suffix k : string) : bool :=
  String.eqb k suffix ||
  match k with
  | String _ rest => ends_with suffix rest
  | EmptyString => false
  end.

(** The names [wrap] reads or writes. *)
Definition names : list string :=
  ["find"; "_find"; "aggregate"; "_aggregate"; "cachedAggregate";
   "cachedMapReduce"; "__is_wrapped__"].

(** The prototype of a class as the driver defines it, for the methods
    that matter here. *)
Definition native : prototype :=
  [("find", Plain (VFun "function find() { [driver] }"));
   ("aggregate", Plain (VFun "function aggregate() { [driver] }"));
   ("mapReduce", Plain (VFun "function mapReduce() { [driver] }"))].

End Prototype.

(** ** The function that promisifies cursors *)

Module Cursor.

(** What the original function is applied to: an argument passed on as it
    came, or the callback put in place of the caller's [lastArg]. *)
Inductive arg : Type :=
| Given (v : value)
| Replaced (lastArg : value).

(** The argument as the caller gave it. *)
Definition given (a : arg) : value :=
  match a with
  | Given v => v
  | Replaced lastArg => lastArg
  end.

Inductive event : Type :=
| Original (renamedOrigFunc : string) (args : list arg)
| PromisifyAll (target : value)
| Called (f : value) (args : list value).

(** The function kept under [renamedOrigFunc], which returns or throws,
    and the body of the caller's callback. *)
Class Host (W : Type) : Type := {
  original : string -> list arg -> W -> JS.completion value * W;
  lastArgBody : value -> list value -> W -> option value * W
}.

Record state (W : Type) : Type := {
  world : W;
  log : list event
}.
Arguments world {W} s.
Arguments log {W} s.

Definition record {W : Type} (ev : event) (s : state W) : state W :=
  {| world := world s; log := log s ++ [ev] |}.

(** [c && _.isFunction(c.toArray)]. *)
Definition isCursor (c : value) : bool :=
  JS.truthy c && JS.is_function (JS.prop c "toArray").

(** [c && _.isFunction(c.toArray) && Promise.promisifyAll(c)], which
    changes [c] in place; [promisifyAll] is taken to succeed. *)
Definition promisifyIfCursor {W : Type} (c : value) (s : state W) : state W :=
  if isCursor c then record (PromisifyAll c) s else s.

(** The callback pushed in place of [lastArg]:
    [function(err, c) { ...promisify c...; lastArg.call(null, err, c); }]. *)
Definition replacedCallback {W : Type} {H : Host W} (lastArg : value)
    (args : list value) (s : state W) : JS.completion unit * state W :=
  let err := JS.index args 0 in
  let c := JS.index args 1 in
  let s := promisifyIfCursor c s in
  let s := record (Called lastArg [err; c]) s in
  match lastArgBody lastArg [err; c] (world s) with
  | (None, w) => (JS.Normal tt, {| world := w; log := log s |})
  | (Some e, w) => (JS.Thrown e, {| world := w; log := log s |})
  end.





End Cursor.

(** ** The connection string *)

Module Connection.

Local Open Scope string_scope.
Local Open Scope Z_scope.

(** [a && b] on values already evaluated. *)
Definition and_ (a b : value) : value := if JS.truthy a then b else a.

(** What [string += v] appends, for a primitive [v].  [None]: a value
    whose conversion is not modelled (an object, an array, a function). *)
Definition toString (v : value) : option String.string :=
  match v with
  | VUndefined => Some "undefined"
  | VNull => Some "null"
  | VBool b => Some (if b then "true" else "false")
  | VNum n => Some (JS.numberToString n)
  | VStr s => Some s
  | VFun _ | VArr _ | VObj _ => None
  end.

(** [v.length] for a [v] that is neither [undefined] nor [null]; [None]
    for a function, whose length is its arity. *)
Definition length (v : value) : option value :=
  match v with
  | VStr s => Some (VNum (Z.of_nat (String.length s)))
  | VArr items => Some (VNum (Z.of_nat (List.length items)))
  | VObj fields => Some (JS.assoc "length" fields)
  | VFun _ => None
  | _ => Some VUndefined
  end.

(** [v && v.length], as a condition. *)
Definition hasLength (v : value) : option bool :=
  if JS.truthy v then option_map JS.truthy (length v) else Some false.

(** [string += v]. *)
Definition add (string : String.string) (v : value) : option String.string :=
  option_map (fun text => string ++ text) (toString v).

(** The part before the hosts: [user], then [:pass] when there is one,
    then [@], when [conf.user] has a length. *)
Definition credentials (conf : value) (string : String.string)
  : option String.string :=
  let user := and_ conf (JS.prop conf "user") in
  match hasLength user with
  | None => None
  | Some false => Some string
  | Some true =>
      match add string user with
      | None => None
      | Some string =>
          let pass := JS.prop conf "pass" in
          match hasLength pass with
          | None => None
          | Some false => Some (string ++ "@")
          | Some true =>
              option_map (fun string => string ++ "@")
                         (add (string ++ ":") pass)
          end
      end
  end.

(** The callback of [_.each(conf.hosts, ...)] on the host at index
    [ind]; reading [host.host] of [undefined] or [null] throws. *)
Definition addHost (string : String.string) (host : value) (ind : nat)
  : option (JS.completion String.string) :=
  let string := if Nat.eqb ind 0 then string else string ++ "," in
  match JS.get host "host" with
  | JS.Thrown e => Some (JS.Thrown e)
  | JS.Normal name =>
      match add string name with
      | None => None
      | Some string =>
          let port := JS.prop host "port" in
          if JS.truthy port
          then option_map JS.Normal (add (string ++ ":") port)
          else Some (JS.Normal string)
      end
  end.

(** [_.each] on an array: the elements in order, each with its index. *)
Fixpoint eachHost (hosts : list value) (ind : nat) (string : String.string)
  : option (JS.completion String.string) :=
  match hosts with
  | [] => Some (JS.Normal string)
  | host :: rest =>
      match addHost string host ind with
      | Some (JS.Normal string) => eachHost rest (S ind) string
      | other => other
      end
  end.

(** The hosts and the [/] after them, when [conf.hosts] has a length.
    Only an array is iterated here: what [_.each] does with a string or
    an object that has a [length] is not modelled. *)
Definition hostList (conf : value) (string : String.string)
  : option (JS.completion String.string) :=
  let hosts := and_ conf (JS.prop conf "hosts") in
  match hasLength hosts with
  | None => None
  | Some false => Some (JS.Normal string)
  | Some true =>
      match hosts with
      | VArr items =>
          match eachHost items 0 string with
          | Some (JS.Normal string) => Some (JS.Normal (string ++ "/"))
          | other => other
          end
      | _ => None
      end
  end.

(** [exports.buildConnectionString(conf)]: [None] when a value is met
    whose conversion or iteration is not modelled. *)
Definition buildConnectionString (conf : value)
  : option (JS.completion String.string) :=
  match credentials conf "mongodb://" with
  | None => None
  | Some string =>
      match hostList conf string with
      | Some (JS.Normal string) =>
          match add string (and_ conf (JS.prop conf "dbName")) with
          | None => None
          | Some string =>
              let replicaSet := and_ conf (JS.prop conf "replicaSet") in
              if JS.truthy replicaSet
              then option_map JS.Normal (add (string ++ "?replicaSet=") replicaSet)
              else Some (JS.Normal string)
          end
      | other => other
      end
  end.

(** The configurations the model covers. *)
Definition primitive (v : value) : bool :=
  match v with
  | VFun _ | VArr _ | VObj _ => false
  | _ => true
  end.

(** A host that is [undefined] or [null], or whose [host] and [port] are
    primitives. *)
Definition plain_host (host : value) : bool :=
  primitive (JS.prop host "host") && primitive (JS.prop host "port").

(** [conf.hosts] is an array of such hosts, or has no length. *)
Definition plain_hosts (hosts : value) : bool :=
  match hosts with
  | VArr items => forallb plain_host items
  | VStr s => String.eqb s EmptyString
  | VObj fields => negb (JS.truthy (JS.assoc "length" fields))
  | VFun _ => false
  | _ => true
  end.

(** What is written of the configuration is a primitive, and its hosts
    are plain. *)
Definition plain (conf : value) : bool :=
  primitive (and_ conf (JS.prop conf "user"))
  && primitive (JS.prop conf "pass")
  && plain_hosts (and_ conf (JS.prop conf "hosts"))
  && primitive (and_ conf (JS.prop conf "dbName"))
  && primitive (and_ conf (JS.prop conf "replicaSet")).

(** What one host contributes: its name, and [:port] when it has one. *)
Definition hostText (host : value) : option (JS.completion String.string) :=
  addHost EmptyString host 0.

(** A configuration with everything in it. *)
Definition full : value :=
  VObj [("user", VStr "testUser"); ("pass", VStr "testPass");
        ("hosts", VArr [VObj [("host", VStr "testHost.com"); ("port", VNum 12345)];
                        VObj [("host", VStr "testHost2.com"); ("port", VNum 67890)]]);
        ("replicaSet", VStr "rs0");
        ("dbName", VStr "testDbName")].

End Connection.

(** ** Connections by database name *)

Module Wrapper.

Local Open Scope string_scope.

(** A promise for a database. *)
Inductive status : Type :=
| Pending
| Fulfilled (db : value)
| Rejected (err : value).

(** The variables of the module: [dbConfig], and the object [dbPromises]
    as its own properties, each holding a promise known by its number in
    [promises], the promises made so far. *)
Record wrapper : Type := {
  dbConfig : value;
  promises : list status;
  dbPromises : list (string * nat)
}.

Definition initial : wrapper :=
  {| dbConfig := VUndefined; promises := []; dbPromises := [] |}.

Inductive event : Type :=
| Connect (connectionString : string) (connectionOptions : value)
| Close (db : value).

(** What the promise returned by [getDb] is settled with: the promise
    stored under the name, which it then follows, or an error thrown in
    its executor. *)
Inductive answer : Type :=
| Following (promise : nat)
| Failing (err : value).

Definition Error (msg : string) : value :=
  VObj [("name", VStr "Error"); ("message", VStr msg)].

Fixpoint lookup (k : string) (o : list (string * nat)) : option nat :=
  match o with
  | [] => None
  | (k', v) :: rest => if String.eqb k k' then Some v else lookup k rest
  end.

(** [o[k] = v]. *)
Fixpoint store (o : list (string * nat)) (k : string) (v : nat)
  : list (string * nat) :=
  match o with
  | [] => [(k, v)]
  | (k', v') :: rest =>
      if String.eqb k k' then (k', v) :: rest else (k', v') :: store rest k v
  end.

(** [delete o[k]]. *)
Definition delete (o : list (string * nat)) (k : string)
  : list (string * nat) :=
  filter (fun kv => negb (String.eqb k (fst kv))) o.

(** The names [dbPromises] inherits a property for from
    [Object.prototype]; reading and writing them is not modelled. *)
Definition inherited (k : string) : bool :=
  existsb (String.eqb k)
    ["constructor"; "toString"; "toLocaleString"; "valueOf";
     "hasOwnProperty"; "isPrototypeOf"; "propertyIsEnumerable";
     "__proto__"; "__defineGetter__"; "__defineSetter__";
     "__lookupGetter__"; "__lookupSetter__"].

(** Values without a function in them, which [_.cloneDeep] copies as they
    are. *)
Fixpoint data (v : value) : bool :=
  match v with
  | VFun _ => false
  | VArr items => forallb (fun x => data x) items
  | VObj fields => forallb (fun kx => data (snd kx)) fields
  | _ => true
  end.

(** [_.cloneDeep(v)]; [None] when [v] holds a function. *)
Definition cloneDeep (v : value) : option value :=
  if data v then Some v else None.

(** [_.extend(object, { k: v })] on the properties of [object]. *)
Fixpoint extend (fields : list (string * value)) (k : string) (v : value)
  : list (string * value) :=
  match fields with
  | [] => [(k, v)]
  | (k', v') :: rest =>
      if String.eqb k k' then (k', v) :: rest else (k', v') :: extend rest k v
  end.

(** [exports.setConfig(config)].  An object is taken to be a plain one,
    as an object literal or a parsed JSON document is. *)
Definition setConfig (config : value) (m : wrapper)
  : option (JS.completion unit * wrapper) :=
  match config with
  | VObj _ =>
      match cloneDeep config with
      | Some copy =>
          Some (JS.Normal tt,
                {| dbConfig := copy;
                   promises := promises m;
                   dbPromises := dbPromises m |})
      | None => None
      end
  | _ =>
      Some (JS.Thrown
              (Error "Empty DB Config was passed to mongoWrapper.setConfig()!"),
            m)
  end.

Definition getConnectionOptions (conf : value) : value :=
  VObj [("server",
         VObj [("socketOptions",
                VObj [("connectTimeoutMS",
                       JS.or_ (JS.prop conf "connectTimeoutMS")
                              (VNum 1000))])])].

(** The first part of the executor in [getDb]: the name and the
    configuration to use, or the error thrown. *)
Definition chosen (dbNameOrConfig : value) (m : wrapper)
  : JS.completion (string * value) :=
  match dbNameOrConfig with
  | VStr dbName =>
      if JS.truthy (dbConfig m)
      then JS.Normal (dbName, dbConfig m)
      else JS.Thrown (Error "No dbConfig has been set!")
  | VObj fields =>
      match JS.assoc "dbName" fields with
      | VStr dbName => JS.Normal (dbName, dbNameOrConfig)
      | _ =>
          JS.Thrown
            (Error "Missing or invalid parameter provided to mongo.getDb()")
      end
  | _ =>
      JS.Thrown
        (Error "Missing or invalid parameter provided to mongo.getDb()")
  end.

(** The promise stored under the name, unless there is none or it is
    rejected ([!dbPromises[dbName] || dbPromises[dbName].isRejected()]),
    in which case a new one is to be made; [None] for a number that is no
    promise. *)
Definition reusable (dbName : string) (m : wrapper) : option (option nat) :=
  match lookup dbName (dbPromises m) with
  | None => Some None
  | Some promise =>
      match nth_error (promises m) promise with
      | Some (Rejected _) => Some None
      | Some _ => Some (Some promise)
      | None => None
      end
  end.

(** The executor of the promise stored under the name, which runs at
    once: the connection is asked for, and the promise is pending until
    the driver answers; when [buildConnectionString] throws, nothing is
    asked for and the promise is rejected. *)
Definition connect (dbName : string) (config : value) (m : wrapper)
  : option (answer * list event * wrapper) :=
  match cloneDeep config with
  | Some (VObj fields) =>
      let conf := VObj (extend fields "dbName" (VStr dbName)) in
      let made (st : status) :=
        {| dbConfig := dbConfig m;
           promises := promises m ++ [st];
           dbPromises :=
             store (dbPromises m) dbName (List.length (promises m)) |} in
      match Connection.buildConnectionString conf with
      | Some (JS.Normal connectionString) =>
          Some (Following (List.length (promises m)),
                [Connect connectionString (getConnectionOptions conf)],
                made Pending)
      | Some (JS.Thrown e) =>
          Some (Following (List.length (promises m)), [], made (Rejected e))
      | None => None
      end
  | _ => None
  end.

(** [exports.getDb(dbNameOrConfig)], up to its return: the answer of the
    returned promise, what was asked of the driver, and the module
    afterwards. *)
Definition getDb (dbNameOrConfig : value) (m : wrapper)
  : option (answer * list event * wrapper) :=
  match chosen dbNameOrConfig m with
  | JS.Thrown e => Some (Failing e, [], m)
  | JS.Normal (dbName, config) =>
      if inherited dbName then None
      else
        match reusable dbName m with
        | None => None
        | Some (Some promise) => Some (Following promise, [], m)
        | Some None => connect dbName config m
        end
  end.

(** The driver's answer to a connection asked for: the promise is
    settled, once. *)
Definition settle (promise : nat) (outcome : status) (m : wrapper)
  : wrapper :=
  match nth_error (promises m) promise with
  | Some Pending =>
      {| dbConfig := dbConfig m;
         promises :=
           firstn promise (promises m) ++ outcome ::
           skipn (S promise) (promises m);
         dbPromises := dbPromises m |}
  | _ => m
  end.

(** [exports.close(dbName)], up to its return: the promise its two
    callbacks are attached to, if any; nothing changes yet. *)
Definition close (dbName : string) (m : wrapper) : option (option nat) :=
  if inherited dbName then None else Some (lookup dbName (dbPromises m)).

(** The callbacks [close] attached to a promise, run once that promise
    is settled: the database is closed when there is one to close, and
    the property of that name is deleted in every case, whichever promise
    it holds by then.  [None] while the promise is pending. *)
Definition closed (dbName : string) (promise : nat) (m : wrapper)
  : option (list event * wrapper) :=
  let deleted :=
    {| dbConfig := dbConfig m;
       promises := promises m;
       dbPromises := delete (dbPromises m) dbName |} in
  match nth_error (promises m) promise with
  | Some (Fulfilled db) =>
      Some (if JS.is_function (JS.prop db "close") then [Close db] else [],
            deleted)
  | Some (Rejected _) => Some ([], deleted)
  | _ => None
  end.

(** The module is in order when the configuration is unset or an object,
    and every property of [dbPromises] holds a promise that was made. *)
Definition in_order (m : wrapper) : Prop :=
  (dbConfig m = VUndefined \/ exists fields, dbConfig m = VObj fields) /\
  forall dbName promise,
    lookup dbName (dbPromises m) = Some promise ->
    (promise < List.length (promises m))%nat.

(** The timeout a connection is asked for with. *)
Definition connectTimeoutMS (connectionOptions : value) : value :=
  JS.prop (JS.prop (JS.prop connectionOptions "server") "socketOptions")
          "connectTimeoutMS".

(** A configuration one of whose hosts is missing. *)
Definition missing_host : value :=
  VObj [("dbName", VStr "testDbName");
        ("hosts", VArr [VObj [("host", VStr "localhost")]; VNull])].

(** A database as the driver hands it over, and a module that holds a
    configuration. *)
Definition a_database : value :=
  VObj [("databaseName", VStr "testDbName");
        ("close", VFun "function close() { [driver] }")].

Definition configured : wrapper :=
  {| dbConfig := VObj [("hosts", VArr [VObj [("host", VStr "localhost")]])];
     promises := [];
     dbPromises := [] |}.

(** The same module while a connection is being made, once a connection
    was refused, and once one was made. *)
Definition connecting : wrapper :=
  {| dbConfig := dbConfig configured;
     promises := [Pending];
     dbPromises := [("someDbName", 0%nat)] |}.

Definition refused : wrapper :=
  {| dbConfig := dbConfig configured;
     promises := [Rejected (VStr "connection refused")];
     dbPromises := [("someDbName", 0%nat)] |}.

Definition connected : wrapper :=
  {| dbConfig := dbConfig configured;
     promises := [Fulfilled a_database];
     dbPromises := [("someDbName", 0%nat)] |}.

End Wrapper.

(** On the document store an invocation ends in the store it started
    in, in the store as its query left it, or in that store after one
    upsert keyed by its fingerprint. *)
Definition left_by (h : string) (w wq w' : Store.mongo) : Prop :=
  w' = w \/ w' = wq
  \/ exists coll doc,
      JS.prop doc "queryHash" = VStr h
      /\ w' = snd (update coll (Store.by_hash h) doc upsert_option wq).

Arguments hashQueryArgs : simpl never.

(** ** The argument normalizer *)

Lemma parse_invocation opts queryArgs handler :
  parseCacheFuncParams (invocation opts queryArgs handler)
  = {| callback := VFun handler;
       cacheOptions := asCacheOptions opts;
       queryArgsArray := queryArgs |}.
Proof.
  unfold parseCacheFuncParams, invocation, JS.pop.
  change (opts :: queryArgs ++ [VFun handler])
    with ((opts :: queryArgs) ++ [VFun handler]).
  rewrite last_last, removelast_last. reflexivity.
Qed.

Lemma asCacheOptions_nullish opts :
  JS.nullish (asCacheOptions opts) = JS.nullish opts.
Proof. destruct opts; reflexivity. Qed.

Lemma get_not_nullish v k :
  JS.nullish v = false -> JS.get v k = JS.Normal (JS.prop v k).
Proof. unfold JS.get. intros ->. reflexivity. Qed.

(** ** The paths of an invocation *)

Section Paths.

Context {W : Type} {D : Driver W}.

Ltac monad_step :=
  unfold then_catch, detached, try_catch, saveResultToCache,
    db_collection, call, on_rejected, bind, emit, lift,
    perform, ret, throw;
  cbn [world trace fst snd JS.is_function app negb].

Ltac monad_steps := repeat (progress monad_step).

(** Case analysis on what the handler does, wherever it is called. *)
Ltac settle :=
  repeat (cbn [world trace app fst snd handed_back unhandled written_back
               world_after];
          match goal with
          | |- context [applyFunction ?f ?a ?w] =>
              destruct (applyFunction f a w) as [[?|] ?]
          end);
  cbn [world trace app fst snd handed_back unhandled written_back
       world_after];
  try (repeat split; reflexivity).

Ltac enter :=
  unfold run, cachedAggregate, cachedMapReduce;
  rewrite parse_invocation;
  cbn [callback cacheOptions queryArgsArray];
  unfold forceUpdateCache, cacheCollectionName, selector_of, entry_of,
    upsert_option in *.

Lemma truthy_not_nullish v : JS.truthy v = true -> JS.nullish v = false.
Proof. destruct v; simpl; congruence. Qed.

Lemma not_empty_not_nullish v :
  Lodash.isEmpty v = false -> JS.nullish v = false.
Proof. destruct v; simpl; congruence. Qed.

Lemma useCached_eval entry opts queryArgs handler (s : state W) :
  JS.nullish opts = false ->
  useCached entry {| callback := VFun handler;
                     cacheOptions := asCacheOptions opts;
                     queryArgsArray := queryArgs |} s
  = (JS.Normal (usable entry opts), s).
Proof.
  intros Hn. unfold useCached, usable, forceUpdateCache.
  cbn [cacheOptions].
  destruct (Lodash.isEmpty entry); cbn [negb andb]; [reflexivity|].
  unfold bind, lift, ret.
  rewrite get_not_nullish by (rewrite asCacheOptions_nullish; exact Hn).
  reflexivity.
Qed.

Lemma resultToCache_eval inline result (s : state W) :
  resultToCache inline result s
  = (JS.Normal (cacheable (JS.truthy inline) result), s).
Proof.
  unfold resultToCache, cacheable.
  destruct (JS.truthy inline); [reflexivity|].
  destruct (JS.truthy result) eqn:Ht; [|reflexivity].
  unfold lift. rewrite get_not_nullish by (apply truthy_not_nullish, Ht).
  reflexivity.
Qed.

Lemma usesInlineOutput_eval queryArgs :
  exists inline,
    usesInlineOutput queryArgs = JS.Normal inline
    /\ JS.truthy inline = inline_output queryArgs.
Proof.
  unfold usesInlineOutput, inline_output.
  destruct (JS.truthy (JS.index queryArgs 2)) eqn:H2.
  - rewrite get_not_nullish by (apply truthy_not_nullish, H2).
    destruct (JS.truthy (JS.prop (JS.index queryArgs 2) "out")) eqn:Ho.
    + rewrite get_not_nullish by (apply truthy_not_nullish, Ho).
      eexists. split; [reflexivity|].
      unfold JS.or_.
      destruct (JS.truthy (JS.prop (JS.prop (JS.index queryArgs 2) "out") "inline"))
        eqn:Hi; [exact Hi | reflexivity].
    + eexists. split; [reflexivity|].
      unfold JS.or_. rewrite Ho.
      destruct (JS.prop (JS.index queryArgs 2) "out"); simpl in *;
        try reflexivity; try discriminate.
  - eexists. split; [reflexivity|].
    unfold JS.or_. rewrite H2.
    destruct (JS.index queryArgs 2); simpl in *;
      try reflexivity; try discriminate.
Qed.

Section OneInvocation.

Variables (opts : value) (queryArgs : list value) (handler : string).
Variable w : W.

Local Abbreviation name := (cacheCollectionName opts).
Local Abbreviation coll := (collection_handle (cacheCollectionName opts)).
Local Abbreviation selector := (selector_of queryArgs).
Local Abbreviation f := (VFun handler).



Hypothesis options_given : JS.nullish opts = false.

Ltac options :=
  rewrite get_not_nullish
    by (rewrite asCacheOptions_nullish; exact options_given).

(** The lookup fails. *)
Lemma aggregate_lookup_rejected e w1 :
  findOneAsync coll selector w = (Rejected e, w1) ->
  returns (cachedAggregate (invocation opts queryArgs handler)) w
  = JS.Normal tt
  /\ events (cachedAggregate (invocation opts queryArgs handler)) w
     = [Collection name; FindOne coll selector; Callback f [e]]
         ++ unhandled (fst (applyFunction f [e] w1)).
Proof.
  intros Hl.
  unfold returns, events. enter. monad_steps. options.
  rewrite Hl. settle.
Qed.

Lemma mapReduce_lookup_rejected e w1 :
  findOneAsync coll selector w = (Rejected e, w1) ->
  returns (cachedMapReduce (invocation opts queryArgs handler)) w
  = JS.Normal tt
  /\ events (cachedMapReduce (invocation opts queryArgs handler)) w
     = [Collection name; FindOne coll selector; Callback f [e]]
         ++ unhandled (fst (applyFunction f [e] w1)).
Proof.
  intros Hl.
  destruct (usesInlineOutput_eval queryArgs) as (inline & Hi & _).
  unfold returns, events. enter. monad_steps. options.
  rewrite Hi, Hl. settle.
Qed.

(** The lookup finds an entry that is used. *)
Lemma aggregate_hit entry w1 :
  findOneAsync coll selector w = (Resolved entry, w1) ->
  usable entry opts = true ->
  let cachedResult := JS.prop entry "cachedResult" in
  returns (cachedAggregate (invocation opts queryArgs handler)) w
  = JS.Normal tt
  /\ events (cachedAggregate (invocation opts queryArgs handler)) w
     = [Collection name; FindOne coll selector;
        Callback f [VNull; cachedResult]]
         ++ handed_back handler (applyFunction f [VNull; cachedResult] w1).
Proof.
  intros Hl Hu cachedResult. subst cachedResult.
  assert (He : Lodash.isEmpty entry = false).
  { unfold usable in Hu. destruct (Lodash.isEmpty entry); [discriminate|reflexivity]. }
  unfold returns, events. enter. monad_steps. options.
  rewrite Hl. rewrite useCached_eval by exact options_given.
  unfold forceUpdateCache in Hu. rewrite Hu.
  rewrite get_not_nullish by (apply not_empty_not_nullish, He).
  settle.
Qed.

Lemma mapReduce_hit entry w1 :
  findOneAsync coll selector w = (Resolved entry, w1) ->
  usable entry opts = true ->
  let cachedResult := JS.prop entry "cachedResult" in
  let result := if inline_output queryArgs then cachedResult
                else collection_handle cachedResult in
  returns (cachedMapReduce (invocation opts queryArgs handler)) w
  = JS.Normal tt
  /\ events (cachedMapReduce (invocation opts queryArgs handler)) w
     = [Collection name; FindOne coll selector]
         ++ (if inline_output queryArgs then []
             else [Collection cachedResult])
         ++ [Callback f [VNull; result]]
         ++ handed_back handler (applyFunction f [VNull; result] w1).
Proof.
  intros Hl Hu cachedResult result.
  subst cachedResult result.
  assert (He : Lodash.isEmpty entry = false).
  { unfold usable in Hu. destruct (Lodash.isEmpty entry); [discriminate|reflexivity]. }
  destruct (usesInlineOutput_eval queryArgs) as (inline & Hi & Ht).
  unfold returns, events. enter. monad_steps. options.
  rewrite Hi, Hl. rewrite useCached_eval by exact options_given.
  unfold forceUpdateCache in Hu. rewrite Hu.
  rewrite get_not_nullish by (apply not_empty_not_nullish, He).
  rewrite Ht. destruct (inline_output queryArgs); settle.
Qed.

(** The lookup finds nothing to use and the query succeeds. *)
Lemma aggregate_miss_resolved entry results now when err w1 w2 w3 w4 :
  findOneAsync coll selector w = (Resolved entry, w1) ->
  usable entry opts = false ->
  aggregateAsync queryArgs w1 = (Resolved results, w2) ->
  newDate w2 = (now, w3) ->
  update coll selector (entry_of queryArgs now results) upsert_option w3
  = ((when, err), w4) ->
  returns (cachedAggregate (invocation opts queryArgs handler)) w
  = JS.Normal tt
  /\ events (cachedAggregate (invocation opts queryArgs handler)) w
     = [Collection name; FindOne coll selector; Aggregate queryArgs;
        Update coll selector (entry_of queryArgs now results) upsert_option;
        Callback f [err; results]]
         ++ written_back handler when (applyFunction f [err; results] w4)
  /\ world (snd (run (cachedAggregate (invocation opts queryArgs handler)) w))
     = world_after handler when (applyFunction f [err; results] w4).
Proof.
  intros Hl Hu Hq Hd Hw.
  unfold returns, events. enter. monad_steps. options.
  rewrite Hl. rewrite useCached_eval by exact options_given.
  unfold forceUpdateCache in Hu. rewrite Hu.
  cbn [world trace app]. rewrite Hq. cbn [world trace app].
  rewrite Hd. cbn [world trace app]. rewrite Hw.
  cbn [fst snd world trace app]. destruct when; monad_steps; settle.
Qed.

Lemma mapReduce_miss_resolved entry result now when err w1 w2 w3 w4 :
  findOneAsync coll selector w = (Resolved entry, w1) ->
  usable entry opts = false ->
  mapReduceAsync queryArgs w1 = (Resolved result, w2) ->
  newDate w2 = (now, w3) ->
  let toCache := cacheable (inline_output queryArgs) result in
  update coll selector (entry_of queryArgs now toCache) upsert_option w3
  = ((when, err), w4) ->
  returns (cachedMapReduce (invocation opts queryArgs handler)) w
  = JS.Normal tt
  /\ events (cachedMapReduce (invocation opts queryArgs handler)) w
     = [Collection name; FindOne coll selector; MapReduce queryArgs;
        Update coll selector (entry_of queryArgs now toCache) upsert_option;
        Callback f [err; result]]
         ++ written_back handler when (applyFunction f [err; result] w4)
  /\ world (snd (run (cachedMapReduce (invocation opts queryArgs handler)) w))
     = world_after handler when (applyFunction f [err; result] w4).
Proof.
  intros Hl Hu Hq Hd toCache Hw. subst toCache.
  destruct (usesInlineOutput_eval queryArgs) as (inline & Hi & Ht).
  unfold returns, events. enter. monad_steps. options.
  rewrite Hi, Hl. rewrite useCached_eval by exact options_given.
  unfold forceUpdateCache in Hu. rewrite Hu.
  cbn [world trace app]. rewrite Hq. rewrite resultToCache_eval, Ht.
  cbn [world trace app]. rewrite Hd. cbn [world trace app]. rewrite Hw.
  cbn [fst snd world trace app]. destruct when; monad_steps; settle.
Qed.

(** The lookup finds nothing to use and the query fails. *)
Lemma aggregate_miss_rejected entry e w1 w2 :
  findOneAsync coll selector w = (Resolved entry, w1) ->
  usable entry opts = false ->
  aggregateAsync queryArgs w1 = (Rejected e, w2) ->
  returns (cachedAggregate (invocation opts queryArgs handler)) w
  = JS.Normal tt
  /\ events (cachedAggregate (invocation opts queryArgs handler)) w
     = [Collection name; FindOne coll selector; Aggregate queryArgs;
        Callback f [e]]
         ++ unhandled (fst (applyFunction f [e] w2)).
Proof.
  intros Hl Hu Hq.
  unfold returns, events. enter. monad_steps. options.
  rewrite Hl. rewrite useCached_eval by exact options_given.
  unfold forceUpdateCache in Hu. rewrite Hu.
  cbn [world trace app]. rewrite Hq. settle.
Qed.

Lemma mapReduce_miss_rejected entry e w1 w2 :
  findOneAsync coll selector w = (Resolved entry, w1) ->
  usable entry opts = false ->
  mapReduceAsync queryArgs w1 = (Rejected e, w2) ->
  returns (cachedMapReduce (invocation opts queryArgs handler)) w
  = JS.Normal tt
  /\ events (cachedMapReduce (invocation opts queryArgs handler)) w
     = [Collection name; FindOne coll selector; MapReduce queryArgs;
        Callback f [e]]
         ++ unhandled (fst (applyFunction f [e] w2)).
Proof.
  intros Hl Hu Hq.
  destruct (usesInlineOutput_eval queryArgs) as (inline & Hi & Ht).
  unfold returns, events. enter. monad_steps. options.
  rewrite Hi, Hl. rewrite useCached_eval by exact options_given.
  unfold forceUpdateCache in Hu. rewrite Hu.
  cbn [world trace app]. rewrite Hq. settle.
Qed.

End OneInvocation.
End Paths.

Lemma usable_hit entry opts :
  Lodash.isEmpty entry = false -> forceUpdateCache opts = false ->
  usable entry opts = true.
Proof. unfold usable. intros -> ->. reflexivity. Qed.

Lemma usable_miss entry opts :
  Lodash.isEmpty entry = true \/ forceUpdateCache opts = true ->
  usable entry opts = false.
Proof.
  unfold usable. intros [-> | ->]; [reflexivity|].
  apply andb_false_r.
Qed.

(** Rewrites a trace projection along the events of a run. *)
Ltac read_trace :=
  cbn [queries writes lookups resolutions calls_of flat_map app firstn
       handed_back unhandled written_back called_again fst snd
       Store.value_eqb];
  rewrite ?String.eqb_refl;
  cbn [app].

(** Case analysis on when the write calls back and on what the handler
    does then. *)
Ltac written :=
  match goal with
  | |- context [written_back _ ?when (applyFunction ?f ?a ?w)] =>
      destruct when;
      [ destruct (applyFunction f a w) as [[?e|] ?w]; read_trace;
        [ match goal with
          | |- context [applyFunction ?g ?b ?v] =>
              destruct (applyFunction g b v) as [[?e|] ?w]; read_trace
          end
        | ]
      | destruct (applyFunction f a w) as [[?e|] ?w]; read_trace ]
  end.

(** ** Cache hit *)

(** C1.  When the lookup by the arguments' fingerprint finds a non-empty
    entry and [forceUpdateCache] is falsy, [cachedAggregate], and
    [cachedMapReduce] with inline output, never call the query executor,
    write nothing to the cache, and start by handing the completion
    handler [(null, entry.cachedResult)]; when the handler returns, that
    call is all that follows the lookup. *)
Theorem cache_hit_returns_stored_value :
  forall (W : Type) (D : Driver W) (w w1 : W)
         (opts : value) (queryArgs : list value) (handler : string)
         (entry : value),
    JS.nullish opts = false ->
    forceUpdateCache opts = false ->
    findOneAsync (collection_handle (cacheCollectionName opts))
      (selector_of queryArgs) w = (Resolved entry, w1) ->
    Lodash.isEmpty entry = false ->
    let stored := JS.prop entry "cachedResult" in
    let hit := [Collection (cacheCollectionName opts);
                FindOne (collection_handle (cacheCollectionName opts))
                  (selector_of queryArgs);
                Callback (VFun handler) [VNull; stored]] in
    let served (tr : list event) :=
      queries tr = [] /\ writes tr = [] /\ firstn 3 tr = hit
      /\ (fst (applyFunction (VFun handler) [VNull; stored] w1) = None -> tr = hit) in
    served (events (cachedAggregate (invocation opts queryArgs handler)) w)
    /\ (inline_output queryArgs = true ->
        served (events (cachedMapReduce (invocation opts queryArgs handler)) w)).
Proof.
  intros W D w w1 opts queryArgs handler entry Hn Hf Hl He stored hit served.
  subst served hit stored.
  pose proof (usable_hit _ _ He Hf) as Hu.
  split.
  - destruct (aggregate_hit opts queryArgs handler w Hn entry w1 Hl Hu)
      as [_ ->].
    destruct (applyFunction (VFun handler) [VNull; JS.prop entry "cachedResult"] w1)
      as [[e|] w2]; read_trace.
    + destruct (applyFunction (VFun handler) [e] w2) as [[e'|] w3]; read_trace;
        repeat split; discriminate.
    + repeat split.
  - intros Hi.
    destruct (mapReduce_hit opts queryArgs handler w Hn entry w1 Hl Hu)
      as [_ ->].
    rewrite Hi.
    destruct (applyFunction (VFun handler) [VNull; JS.prop entry "cachedResult"] w1)
      as [[e|] w2]; read_trace.
    + destruct (applyFunction (VFun handler) [e] w2) as [[e'|] w3]; read_trace;
        repeat split; discriminate.
    + repeat split.
Qed.

Lemma cache_hit_witness :
  let tr := events (cachedAggregate (D := Stub.driver)
                      (invocation (VStr "test") [VObj []] Fixture.done))
              Fixture.cached in
  queries tr = [] /\ writes tr = []
  /\ calls_of (VFun Fixture.done) tr = [[VNull; Fixture.some_result]].
Proof.
  destruct (cache_hit_returns_stored_value Stub.script Stub.driver
              Fixture.cached Fixture.cached (VStr "test") [VObj []]
              Fixture.done
              (VObj [("cachedResult", Fixture.some_result)])
              eq_refl eq_refl eq_refl eq_refl)
    as [(Hq & Hw & _ & Ht) _].
  cbv zeta. rewrite (Ht eq_refl). repeat split; reflexivity.
Defined.

(** ** Cache miss *)

(** C2.  When the lookup finds nothing (or [forceUpdateCache] is truthy)
    and the query succeeds, the executor is called exactly once, with the
    query arguments in their order; then exactly one upsert is made,
    selected by the fingerprint, of the document [{ queryHash, cachedAt,
    cachedResult }] whose [cachedResult] is the result of the query (for a
    map-reduce without inline output, the [collectionName] of the handle
    the query resolved with); then the handler is called, with the live
    result as its second argument.  That is its only call, unless it
    throws while [update] has not yet returned: it is then called once
    more, with its own error. *)
Theorem cache_miss_writes_through :
  forall (W : Type) (D : Driver W) (w w1 : W)
         (opts : value) (queryArgs : list value) (handler : string)
         (entry : value),
    JS.nullish opts = false ->
    findOneAsync (collection_handle (cacheCollectionName opts))
      (selector_of queryArgs) w = (Resolved entry, w1) ->
    Lodash.isEmpty entry = true \/ forceUpdateCache opts = true ->
    let name := cacheCollectionName opts in
    let coll := collection_handle name in
    let selector := VObj [("queryHash", VStr (hashQueryArgs queryArgs))] in
    let doc (now cachedResult : value) :=
      VObj [("queryHash", VStr (hashQueryArgs queryArgs));
            ("cachedAt", now);
            ("cachedResult", cachedResult)] in
    let options := VObj [("upsert", VBool true)] in
    (forall (results now err : value) (when : called_back) (w2 w3 w4 : W),
        aggregateAsync queryArgs w1 = (Resolved results, w2) ->
        newDate w2 = (now, w3) ->
        update coll selector (doc now results) options w3
        = ((when, err), w4) ->
        let tr := events (cachedAggregate (invocation opts queryArgs handler)) w in
        queries tr = [queryArgs]
        /\ writes tr = [(coll, selector, doc now results, options)]
        /\ calls_of (VFun handler) tr
           = [err; results]
               :: called_again when
                    (applyFunction (VFun handler) [err; results] w4)
        /\ firstn 5 tr
           = [Collection name; FindOne coll selector; Aggregate queryArgs;
              Update coll selector (doc now results) options;
              Callback (VFun handler) [err; results]])
    /\ (forall (result now err : value) (when : called_back) (w2 w3 w4 : W),
        mapReduceAsync queryArgs w1 = (Resolved result, w2) ->
        newDate w2 = (now, w3) ->
        (inline_output queryArgs = false -> JS.truthy result = true) ->
        let cachedResult := if inline_output queryArgs then result
                            else JS.prop result "collectionName" in
        update coll selector (doc now cachedResult) options w3
        = ((when, err), w4) ->
        let tr := events (cachedMapReduce (invocation opts queryArgs handler)) w in
        queries tr = [queryArgs]
        /\ writes tr = [(coll, selector, doc now cachedResult, options)]
        /\ calls_of (VFun handler) tr
           = [err; result]
               :: called_again when
                    (applyFunction (VFun handler) [err; result] w4)
        /\ firstn 5 tr
           = [Collection name; FindOne coll selector; MapReduce queryArgs;
              Update coll selector (doc now cachedResult) options;
              Callback (VFun handler) [err; result]]).
Proof.
  intros W D w w1 opts queryArgs handler entry Hn Hl Hmiss
         name coll selector doc options.
  subst name coll selector doc options.
  pose proof (usable_miss _ _ Hmiss) as Hu.
  split.
  - intros results now err when w2 w3 w4 Hq Hd Hw tr. subst tr.
    destruct (aggregate_miss_resolved opts queryArgs handler w Hn
                entry results now when err w1 w2 w3 w4 Hl Hu Hq Hd Hw)
      as (_ & -> & _).
    unfold selector_of, entry_of, upsert_option.
    written; repeat split.
  - intros result now err when w2 w3 w4 Hq Hd Hh cachedResult Hw tr.
    subst tr cachedResult.
    assert (Hc : cacheable (inline_output queryArgs) result
                 = if inline_output queryArgs then result
                   else JS.prop result "collectionName").
    { unfold cacheable. destruct (inline_output queryArgs); [reflexivity|].
      rewrite (Hh eq_refl). reflexivity. }
    rewrite <- Hc in *.
    destruct (mapReduce_miss_resolved opts queryArgs handler w Hn
                entry result now when err w1 w2 w3 w4 Hl Hu Hq Hd Hw)
      as (_ & -> & _).
    unfold selector_of, entry_of, upsert_option.
    written; repeat split.
Qed.

Lemma cache_miss_witness :
  let tr := events (cachedMapReduce (D := Stub.driver)
                      (invocation (VStr "testCache") [VFun "map"; VFun "reduce"]
                         Fixture.done))
              (Fixture.fresh Fixture.resultCollection) in
  queries tr = [[VFun "map"; VFun "reduce"]]
  /\ map (fun u => JS.prop (snd (fst u)) "cachedResult") (writes tr)
     = [VStr "resultingWordCache"]
  /\ calls_of (VFun Fixture.done) tr
     = [[VUndefined; Fixture.resultCollection]].
Proof.
  destruct (cache_miss_writes_through Stub.script Stub.driver
              (Fixture.fresh Fixture.resultCollection)
              (Fixture.fresh Fixture.resultCollection)
              (VStr "testCache") [VFun "map"; VFun "reduce"] Fixture.done
              VNull eq_refl eq_refl (or_introl eq_refl)) as [_ H].
  destruct (H Fixture.resultCollection (VNum 0) VUndefined InsideTheCall
              (Fixture.fresh Fixture.resultCollection)
              (Fixture.fresh Fixture.resultCollection)
              (Fixture.fresh Fixture.resultCollection)
              eq_refl eq_refl (fun _ => eq_refl) eq_refl)
    as (Hq & Hw & Hc & _).
  cbv zeta. rewrite Hq, Hw, Hc. repeat split; reflexivity.
Defined.

(** ** The store *)

Lemma value_eqb_refl : forall a, Store.value_eqb a a = true.
Proof.
  fix IH 1. intros [| |b|n|s|s|items|fields]; cbn [Store.value_eqb].
  - reflexivity.
  - reflexivity.
  - apply Bool.eqb_reflx.
  - apply Z.eqb_refl.
  - apply String.eqb_refl.
  - apply String.eqb_refl.
  - induction items as [|x items IHitems]; [reflexivity|].
    rewrite IH, IHitems. reflexivity.
  - induction fields as [|[k x] fields IHfields]; [reflexivity|].
    rewrite String.eqb_refl, IH, IHfields. reflexivity.
Qed.

Lemma value_eqb_sound : forall a b, Store.value_eqb a b = true -> a = b.
Proof.
  fix IH 1. intros [| |x|x|x|x|xs|xs] [| |y|y|y|y|ys|ys];
    cbn [Store.value_eqb]; try discriminate; try reflexivity.
  - intros H. apply Bool.eqb_prop in H. congruence.
  - intros H. apply Z.eqb_eq in H. congruence.
  - intros H. apply String.eqb_eq in H. congruence.
  - intros H. apply String.eqb_eq in H. congruence.
  - intros H. f_equal. revert ys H.
    induction xs as [|x xs IHxs]; intros [|y ys] H;
      try discriminate; [reflexivity|].
    apply andb_true_iff in H. destruct H as [H1 H2].
    f_equal; [apply IH, H1 | apply IHxs, H2].
  - intros H. f_equal. revert ys H.
    induction xs as [|[k x] xs IHxs]; intros [|[l y] ys] H;
      try discriminate; [reflexivity|].
    apply andb_true_iff in H. destruct H as [H12 H3].
    apply andb_true_iff in H12. destruct H12 as [H1 H2].
    apply String.eqb_eq in H1. subst l.
    f_equal; [f_equal; apply IH, H2 | apply IHxs, H3].
Qed.

Lemma has_hash_prop h doc :
  Store.has_hash h doc = true <-> JS.prop doc "queryHash" = VStr h.
Proof.
  unfold Store.has_hash, Store.matches, Store.by_hash.
  cbn [forallb fst snd]. rewrite andb_true_r. split.
  - apply value_eqb_sound.
  - intros ->. apply value_eqb_refl.
Qed.

Lemma has_hash_functional h h' doc :
  Store.has_hash h doc = true -> Store.has_hash h' doc = true -> h = h'.
Proof.
  rewrite !has_hash_prop. congruence.
Qed.

Lemma replace_first_cons selector doc d docs :
  Store.replace_first selector doc (d :: docs)
  = if Store.matches selector d then Some (doc :: docs)
    else option_map (cons d) (Store.replace_first selector doc docs).
Proof. reflexivity. Qed.

Lemma entries_cons h d docs :
  Store.entries h (d :: docs)
  = ((if Store.has_hash h d then 1 else 0) + Store.entries h docs)%nat.
Proof.
  unfold Store.entries. cbn [filter].
  destruct (Store.has_hash h d); reflexivity.
Qed.

(** Replacing an entry filed under [h0] by another one filed under [h0]
    changes no count. *)
Lemma entries_replace_first h0 doc docs docs' h :
  Store.has_hash h0 doc = true ->
  Store.replace_first (Store.by_hash h0) doc docs = Some docs' ->
  Store.entries h docs' = Store.entries h docs.
Proof.
  intros Hdoc. revert docs'.
  induction docs as [|d docs IH]; intros docs' H; [discriminate|].
  rewrite replace_first_cons in H.
  destruct (Store.matches (Store.by_hash h0) d) eqn:Hd.
  - injection H as <-. rewrite !entries_cons. f_equal.
    destruct (Store.has_hash h doc) eqn:H1, (Store.has_hash h d) eqn:H2;
      try reflexivity.
    + pose proof (has_hash_functional _ _ _ H1 Hdoc) as ->.
      unfold Store.has_hash in H2. congruence.
    + pose proof (has_hash_functional _ _ _ H2 Hd) as ->.
      congruence.
  - destruct (Store.replace_first (Store.by_hash h0) doc docs) as [rest|];
      [|discriminate].
    injection H as <-. rewrite !entries_cons, (IH rest eq_refl). reflexivity.
Qed.

Lemma entries_replaced h0 doc docs docs' :
  Store.has_hash h0 doc = true ->
  Store.replace_first (Store.by_hash h0) doc docs = Some docs' ->
  (1 <= Store.entries h0 docs')%nat.
Proof.
  intros Hdoc. revert docs'.
  induction docs as [|d docs IH]; intros docs' H; [discriminate|].
  rewrite replace_first_cons in H.
  destruct (Store.matches (Store.by_hash h0) d) eqn:Hd.
  - injection H as <-. rewrite entries_cons, Hdoc. lia.
  - destruct (Store.replace_first (Store.by_hash h0) doc docs) as [rest|];
      [|discriminate].
    injection H as <-. rewrite entries_cons.
    specialize (IH rest eq_refl). lia.
Qed.

Lemma entries_no_match h0 doc docs :
  Store.replace_first (Store.by_hash h0) doc docs = None ->
  Store.entries h0 docs = 0%nat.
Proof.
  induction docs as [|d docs IH]; intros H; [reflexivity|].
  rewrite replace_first_cons in H. rewrite entries_cons.
  unfold Store.has_hash.
  destruct (Store.matches (Store.by_hash h0) d); [discriminate|].
  destruct (Store.replace_first (Store.by_hash h0) doc docs);
    [discriminate|]. apply IH. reflexivity.
Qed.

Lemma entries_app h docs docs' :
  Store.entries h (docs ++ docs')
  = (Store.entries h docs + Store.entries h docs')%nat.
Proof.
  unfold Store.entries. rewrite filter_app, length_app. reflexivity.
Qed.

Lemma upsert_option_set : JS.truthy (JS.prop upsert_option "upsert") = true.
Proof. reflexivity. Qed.

(** An upsert by [h0] of an entry filed under [h0] leaves one entry under
    [h0] where there was none and changes no other count. *)
Lemma entries_upsert h0 doc docs h :
  Store.has_hash h0 doc = true ->
  Store.entries h (Store.update_docs (Store.by_hash h0) doc upsert_option docs)
  = if String.eqb h h0
    then Nat.max 1 (Store.entries h docs)
    else Store.entries h docs.
Proof.
  intros Hdoc. unfold Store.update_docs.
  destruct (Store.replace_first (Store.by_hash h0) doc docs) as [docs'|] eqn:Hr.
  - rewrite (entries_replace_first h0 doc docs docs' h Hdoc Hr).
    destruct (String.eqb h h0) eqn:Hh; [|reflexivity].
    apply String.eqb_eq in Hh. subst h.
    pose proof (entries_replaced h0 doc docs docs' Hdoc Hr) as H1.
    rewrite (entries_replace_first h0 doc docs docs' h0 Hdoc Hr) in H1. lia.
  - rewrite upsert_option_set, entries_app, entries_cons.
    destruct (String.eqb h h0) eqn:Hh.
    + apply String.eqb_eq in Hh. subst h.
      rewrite Hdoc, (entries_no_match h0 doc docs Hr). reflexivity.
    + destruct (Store.has_hash h doc) eqn:H1; cbn; [|lia].
      pose proof (has_hash_functional _ _ _ H1 Hdoc) as ->.
      rewrite String.eqb_refl in Hh. discriminate.
Qed.

Lemma find_cons (p : value -> bool) d docs :
  find p (d :: docs) = if p d then Some d else find p docs.
Proof. reflexivity. Qed.

(** After the upsert, the lookup by [h0] finds the document written. *)
Lemma find_one_upsert h0 doc docs :
  Store.has_hash h0 doc = true ->
  Store.find_one (Store.by_hash h0)
    (Store.update_docs (Store.by_hash h0) doc upsert_option docs) = doc.
Proof.
  intros Hdoc. unfold Store.update_docs, Store.find_one.
  unfold Store.has_hash in Hdoc.
  destruct (Store.replace_first (Store.by_hash h0) doc docs) as [docs'|] eqn:Hr.
  - revert docs' Hr.
    induction docs as [|d docs IH]; intros docs' Hr; [discriminate|].
    rewrite replace_first_cons in Hr.
    destruct (Store.matches (Store.by_hash h0) d) eqn:Hd.
    + injection Hr as <-. rewrite find_cons, Hdoc. reflexivity.
    + destruct (Store.replace_first (Store.by_hash h0) doc docs) as [rest|];
        [|discriminate].
      injection Hr as <-. rewrite find_cons, Hd. apply (IH rest eq_refl).
  - rewrite upsert_option_set.
    induction docs as [|d docs IH].
    + cbn [app]. rewrite find_cons, Hdoc. reflexivity.
    + rewrite replace_first_cons in Hr. cbn [app]. rewrite find_cons.
      destruct (Store.matches (Store.by_hash h0) d); [discriminate|].
      destruct (Store.replace_first (Store.by_hash h0) doc docs);
        [discriminate|]. apply IH. reflexivity.
Qed.

(** ** Invariants of an invocation *)

Section Invariants.

Context {W : Type} {D : Driver W}.

Variable I : state W -> Prop.
Variable hash : string.

(** [I] does not mind an event that is not a write, nor a write that is an
    upsert keyed by [hash]. *)
Hypothesis stable_event :
  forall s ev, keyed_upsert hash ev -> I s ->
               I {| world := world s; trace := trace s ++ [ev] |}.

(** [I] does not mind what the lookup, the queries, the clock and the
    handler do to the world. *)
Hypothesis stable_findOne :
  forall s coll selector, I s ->
    I {| world := snd (findOneAsync coll selector (world s)); trace := trace s |}.
Hypothesis stable_aggregate :
  forall s args, I s ->
    I {| world := snd (aggregateAsync args (world s)); trace := trace s |}.
Hypothesis stable_mapReduce :
  forall s args, I s ->
    I {| world := snd (mapReduceAsync args (world s)); trace := trace s |}.
Hypothesis stable_newDate :
  forall s, I s -> I {| world := snd (newDate (world s)); trace := trace s |}.
Hypothesis stable_apply :
  forall s f args, I s ->
    I {| world := snd (applyFunction f args (world s)); trace := trace s |}.

(** [I] does not mind what an upsert keyed by [hash] does to the world. *)
Hypothesis stable_update :
  forall s coll doc, JS.prop doc "queryHash" = VStr hash -> I s ->
    I {| world := snd (update coll (Store.by_hash hash) doc upsert_option (world s));
         trace := trace s |}.

Lemma preserves_ret {A : Type} (a : A) : preserves I (ret a).
Proof. intros s Hs. exact Hs. Qed.

Lemma preserves_throw {A : Type} (e : value) : preserves I (@throw W A e).
Proof. intros s Hs. exact Hs. Qed.

Lemma preserves_lift {A : Type} (c : JS.completion A) : preserves I (lift c).
Proof. intros s Hs. exact Hs. Qed.

Lemma preserves_bind {A B : Type} (m : M W A) (k : A -> M W B) :
  preserves I m -> (forall a, preserves I (k a)) -> preserves I (bind m k).
Proof.
  intros Hm Hk s Hs. unfold bind. specialize (Hm s Hs).
  destruct (m s) as [[a|e] s']; cbn [snd] in *; [apply Hk, Hm | exact Hm].
Qed.

Lemma preserves_try_catch {A : Type} (m : M W A) (h : value -> M W A) :
  preserves I m -> (forall e, preserves I (h e)) ->
  preserves I (try_catch m h).
Proof.
  intros Hm Hh s Hs. unfold try_catch. specialize (Hm s Hs).
  destruct (m s) as [[a|e] s']; cbn [snd] in *; [exact Hm | apply Hh, Hm].
Qed.

Lemma preserves_emit ev : keyed_upsert hash ev -> preserves I (emit ev).
Proof. intros Hev s Hs. apply stable_event; assumption. Qed.

Lemma preserves_perform {A : Type} (f : W -> A * W) :
  (forall s, I s -> I {| world := snd (f (world s)); trace := trace s |}) ->
  preserves I (perform f).
Proof.
  intros Hf s Hs. unfold perform. specialize (Hf s Hs).
  destruct (f (world s)) as [a w']. exact Hf.
Qed.

Lemma preserves_detached (m : M W unit) :
  preserves I m -> preserves I (detached m).
Proof.
  intros Hm. apply preserves_try_catch; [exact Hm|].
  intros e. apply preserves_emit. exact Logic.I.
Qed.

Lemma preserves_call f args : preserves I (call f args).
Proof.
  unfold call. destruct (JS.is_function f); [|apply preserves_throw].
  apply preserves_bind; [apply preserves_emit; exact Logic.I|]. intros _.
  apply preserves_bind.
  - apply preserves_perform. intros s. apply stable_apply.
  - intros [e|]; [apply preserves_throw | apply preserves_ret].
Qed.

Lemma preserves_on_rejected f e : preserves I (on_rejected f e).
Proof.
  unfold on_rejected. destruct (JS.is_function f);
    [apply preserves_call | apply preserves_throw].
Qed.

Lemma preserves_then_catch o (h : value -> M W unit) f :
  (forall v, preserves I (h v)) -> preserves I (then_catch o h f).
Proof.
  intros Hh. apply preserves_detached, preserves_try_catch.
  - destruct o; [apply Hh | apply preserves_throw].
  - apply preserves_on_rejected.
Qed.

Lemma preserves_db_collection name : preserves I (db_collection name).
Proof.
  apply preserves_bind; [apply preserves_emit; exact Logic.I|].
  intros _. apply preserves_ret.
Qed.

Lemma preserves_useCached entry p : preserves I (useCached entry p).
Proof.
  unfold useCached. destruct (negb (Lodash.isEmpty entry));
    [|apply preserves_ret].
  apply preserves_bind; [apply preserves_lift|].
  intros force. apply preserves_ret.
Qed.

Lemma preserves_resultToCache inline result :
  preserves I (resultToCache inline result).
Proof.
  unfold resultToCache.
  destruct (JS.truthy inline); [apply preserves_ret|].
  destruct (JS.truthy result); [apply preserves_lift | apply preserves_ret].
Qed.

Lemma preserves_saveResultToCache coll result (k : value -> M W unit) :
  (forall err, preserves I (k err)) ->
  preserves I (saveResultToCache coll hash result k).
Proof.
  intros Hk. unfold saveResultToCache.
  apply preserves_bind.
  { apply preserves_perform. intros s. apply stable_newDate. }
  intros now. apply preserves_bind.
  { apply preserves_emit. repeat split. }
  intros _. apply preserves_bind.
  { apply preserves_perform. intros s. apply stable_update. reflexivity. }
  intros [when err]. cbn [fst snd].
  destruct when; [apply Hk | apply preserves_detached, Hk].
Qed.

Lemma preserves_cachedAggregate arguments :
  hash = argsHash arguments ->
  preserves I (cachedAggregate arguments).
Proof.
  intros Hhash. unfold cachedAggregate. cbv zeta.
  fold (argsHash arguments). rewrite <- Hhash.
  apply preserves_bind; [apply preserves_lift|]. intros name.
  apply preserves_bind; [apply preserves_db_collection|]. intros coll.
  apply preserves_bind; [apply preserves_emit; exact Logic.I|]. intros _.
  apply preserves_bind.
  { apply preserves_perform. intros s. apply stable_findOne. }
  intros found. apply preserves_then_catch. intros entry.
  apply preserves_bind; [apply preserves_useCached|]. intros [|].
  - apply preserves_bind; [apply preserves_lift|]. intros cachedResult.
    apply preserves_call.
  - apply preserves_bind; [apply preserves_emit; exact Logic.I|]. intros _.
    apply preserves_bind.
    { apply preserves_perform. intros s. apply stable_aggregate. }
    intros ran. apply preserves_then_catch. intros results.
    apply preserves_saveResultToCache. intros err. apply preserves_call.
Qed.

Lemma preserves_cachedMapReduce arguments :
  hash = argsHash arguments ->
  preserves I (cachedMapReduce arguments).
Proof.
  intros Hhash. unfold cachedMapReduce. cbv zeta.
  fold (argsHash arguments). rewrite <- Hhash.
  apply preserves_bind; [apply preserves_lift|]. intros name.
  apply preserves_bind; [apply preserves_db_collection|]. intros coll.
  apply preserves_bind; [apply preserves_lift|]. intros inline.
  apply preserves_bind; [apply preserves_emit; exact Logic.I|]. intros _.
  apply preserves_bind.
  { apply preserves_perform. intros s. apply stable_findOne. }
  intros found. apply preserves_then_catch. intros entry.
  apply preserves_bind; [apply preserves_useCached|]. intros [|].
  - apply preserves_bind; [apply preserves_lift|]. intros cachedResult.
    apply preserves_bind.
    { destruct (JS.truthy inline);
        [apply preserves_ret | apply preserves_db_collection]. }
    intros result. apply preserves_call.
  - apply preserves_bind; [apply preserves_emit; exact Logic.I|]. intros _.
    apply preserves_bind.
    { apply preserves_perform. intros s. apply stable_mapReduce. }
    intros ran. apply preserves_then_catch. intros result.
    apply preserves_bind; [apply preserves_resultToCache|]. intros toCache.
    apply preserves_saveResultToCache. intros err. apply preserves_call.
Qed.

End Invariants.

(** ** One entry per fingerprint *)

Lemma collections_set_collection w name docs n :
  Store.collections (Store.set_collection w name docs) n
  = if Store.value_eqb n name then docs else Store.collections w n.
Proof. reflexivity. Qed.

(** What a keyed upsert does to the number of entries under any hash of
    any collection: nothing, or it goes from none to one. *)
Lemma store_update_entries (w : Store.mongo) coll h doc n h' :
  JS.prop doc "queryHash" = VStr h ->
  let w' := snd (update coll (Store.by_hash h) doc upsert_option w) in
  Store.entries h' (Store.collections w' n)
  = Store.entries h' (Store.collections w n)
  \/ (Store.entries h' (Store.collections w n) = 0
      /\ Store.entries h' (Store.collections w' n) = 1)%nat.
Proof.
  intros Hdoc w'. subst w'. cbn [update Store.driver].
  destruct (Store.write_error w); cbn [snd]; [left; reflexivity|].
  rewrite collections_set_collection.
  destruct (Store.value_eqb n (Store.name_of coll)) eqn:Hn;
    [|left; reflexivity].
  apply value_eqb_sound in Hn. subst n.
  rewrite entries_upsert by (apply has_hash_prop, Hdoc).
  destruct (String.eqb h' h); [|left; reflexivity].
  destruct (Store.entries h' (Store.collections w (Store.name_of coll)));
    [right; split; reflexivity | left; reflexivity].
Qed.

Ltac store_step :=
  repeat (progress
            (unfold then_catch, detached, try_catch, saveResultToCache,
               db_collection, call, on_rejected, useCached, resultToCache,
               bind, emit, lift, perform, ret, throw;
             cbn [world trace fst snd app negb findOneAsync aggregateAsync
                  mapReduceAsync update newDate applyFunction Store.driver
                  Store.write_error Store.write_answered
                  Store.handler_throws Store.clock Store.lookup_error
                  Store.with_collections Store.set_collection])).

Ltac store_case :=
  match goal with
  | |- context [JS.get ?v ?k] => destruct (JS.get v k)
  | |- context [usesInlineOutput ?a] => destruct (usesInlineOutput a)
  | |- context [Store.lookup_error ?w] => destruct (Store.lookup_error w)
  | |- context [Lodash.isEmpty ?v] => destruct (Lodash.isEmpty v)
  | |- context [negb (JS.truthy ?v)] => destruct (JS.truthy v)
  | |- context [if JS.truthy ?v then _ else _] => destruct (JS.truthy v)
  | |- context [if JS.is_function ?v then _ else _] =>
      destruct (JS.is_function v)
  | |- context [Store.aggregate_outcome ?w ?a] =>
      destruct (Store.aggregate_outcome w a)
  | |- context [Store.mapReduce_outcome ?w ?a] =>
      destruct (Store.mapReduce_outcome w a)
  | |- context [match Store.write_error ?w with _ => _ end] =>
      destruct (Store.write_error w) eqn:?
  | |- context [match Store.write_answered ?w with _ => _ end] =>
      destruct (Store.write_answered w)
  | |- context [Store.handler_throws ?w ?f ?a] =>
      destruct (Store.handler_throws w f a)
  end.

Ltac store_done :=
  first
    [ left; reflexivity
    | right; left; reflexivity
    | match goal with
      | |- left_by _ _ _
             (Store.set_collection _ (Store.name_of ?c)
                (Store.update_docs _ ?d _ _)) =>
          right; right; exists c, d; split; [reflexivity|];
          cbn [update Store.driver fst snd Store.write_error
               Store.with_collections];
          match goal with
          | H : Store.write_error _ = _ |- _ => rewrite H
          end;
          reflexivity
      end ].

Lemma store_left_by_aggregate (w : Store.mongo) (arguments : list value) :
  left_by (argsHash arguments) w
    (snd (aggregateAsync
            (queryArgsArray (parseCacheFuncParams arguments)) w))
    (world (snd (run (cachedAggregate arguments) w))).
Proof.
  unfold run, cachedAggregate, argsHash. cbv zeta.
  set (p := parseCacheFuncParams arguments).
  set (h := hashQueryArgs (queryArgsArray p)).
  store_step.
  repeat (store_case; store_step; try store_done).
Qed.

Lemma store_left_by_mapReduce (w : Store.mongo) (arguments : list value) :
  left_by (argsHash arguments) w
    (snd (mapReduceAsync
            (queryArgsArray (parseCacheFuncParams arguments)) w))
    (world (snd (run (cachedMapReduce arguments) w))).
Proof.
  unfold run, cachedMapReduce, argsHash. cbv zeta.
  set (p := parseCacheFuncParams arguments).
  set (h := hashQueryArgs (queryArgsArray p)).
  store_step.
  repeat (store_case; store_step; try store_done).
Qed.

(** C9.  Every cache write of [cachedAggregate] and [cachedMapReduce] is
    an upsert selected by the [queryHash] of the invocation whose document
    carries that same [queryHash].  On the document store such a write
    keeps at most one entry per [queryHash] in every collection and takes
    no entry away; so an invocation started with at most one entry per
    [queryHash], and whose query executor files no entry and removes none,
    ends with at most one, and no collection has fewer entries under any
    hash than before: entries are created or overwritten, never
    duplicated, never deleted. *)
Theorem upserts_keep_one_entry_per_hash :
  (forall (W : Type) (D : Driver W) (w : W) (arguments : list value),
      Forall (keyed_upsert (argsHash arguments))
        (events (cachedAggregate arguments) w)
      /\ Forall (keyed_upsert (argsHash arguments))
           (events (cachedMapReduce arguments) w))
  /\ (forall (w : Store.mongo) (coll doc : value) (h : string),
      JS.prop doc "queryHash" = VStr h ->
      let w' := snd (update coll (Store.by_hash h) doc upsert_option w) in
      (Store.one_entry_per_hash w -> Store.one_entry_per_hash w')
      /\ forall name h',
          (Store.entries h' (Store.collections w name)
           <= Store.entries h' (Store.collections w' name))%nat)
  /\ (forall (w : Store.mongo) (arguments : list value),
      Store.one_entry_per_hash w ->
      Store.executor_keeps_entries w ->
      forall w' : Store.mongo,
        w' = world (snd (run (cachedAggregate arguments) w))
        \/ w' = world (snd (run (cachedMapReduce arguments) w)) ->
        Store.one_entry_per_hash w'
        /\ forall name h,
            (Store.entries h (Store.collections w name)
             <= Store.entries h (Store.collections w' name))%nat).
Proof.
  assert (Hwrite : forall (w : Store.mongo) (coll doc : value) (h : string),
      JS.prop doc "queryHash" = VStr h ->
      let w' := snd (update coll (Store.by_hash h) doc upsert_option w) in
      (Store.one_entry_per_hash w -> Store.one_entry_per_hash w')
      /\ forall name h',
          (Store.entries h' (Store.collections w name)
           <= Store.entries h' (Store.collections w' name))%nat).
  { intros w coll doc h Hdoc w'. split.
    - intros H1 n h'. specialize (H1 n h').
      destruct (store_update_entries w coll h doc n h' Hdoc)
        as [E | [_ E]]; fold w' in E; rewrite E; lia.
    - intros n h'.
      destruct (store_update_entries w coll h doc n h' Hdoc)
        as [E | [E0 E]]; fold w' in E; rewrite E; lia. }
  split; [|split; [exact Hwrite|]].
  - intros W D w arguments.
    set (h := argsHash arguments).
    assert (Hpres : forall m : M W unit,
               preserves (fun s => Forall (keyed_upsert h) (trace s)) m ->
               Forall (keyed_upsert h) (events m w)).
    { intros m Hm. apply Hm. constructor. }
    assert (Hstable : forall (s : state W) ev,
               keyed_upsert h ev -> Forall (keyed_upsert h) (trace s) ->
               Forall (keyed_upsert h) (trace s ++ [ev])).
    { intros s ev Hev Hs. apply Forall_app. split; [exact Hs|].
      apply Forall_cons; [exact Hev | apply Forall_nil]. }
    split; apply Hpres;
      [apply (preserves_cachedAggregate _ h)
      | apply (preserves_cachedMapReduce _ h)];
      try exact Hstable; try reflexivity; intros; assumption.
  - intros w arguments Hinv Hkeeps w' Hw'.
    assert (Hleft : exists wq,
               left_by (argsHash arguments) w wq w'
               /\ forall name h,
                   Store.entries h (Store.collections wq name)
                   = Store.entries h (Store.collections w name)).
    { destruct Hw' as [-> | ->].
      - eexists. split; [apply store_left_by_aggregate|].
        intros name h. apply Hkeeps.
      - eexists. split; [apply store_left_by_mapReduce|].
        intros name h. apply Hkeeps. }
    destruct Hleft as (wq & Hleft & Hq).
    assert (Hinvq : Store.one_entry_per_hash wq).
    { intros name h. rewrite Hq. apply Hinv. }
    destruct Hleft as [-> | [-> | (coll & doc & Hdoc & ->)]].
    + split; [exact Hinv | intros; lia].
    + split; [exact Hinvq | intros name h; rewrite Hq; lia].
    + destruct (Hwrite wq coll doc (argsHash arguments) Hdoc) as [H1 H2].
      split; [exact (H1 Hinvq)|].
      intros name h. rewrite <- Hq. apply H2.
Qed.

(** The map-reduce of the scenario writes its output collection, which
    holds no cache entry before or after. *)
Lemma database_keeps_entries docs :
  Store.executor_keeps_entries (Fixture.database docs).
Proof.
  intros args name h. split; [reflexivity|].
  cbn [Store.mapReduce_writes Store.collections Fixture.database].
  destruct (Store.value_eqb name (VStr "resultingWordCache")) eqn:Hname;
    [|reflexivity].
  apply value_eqb_sound in Hname. subst name. reflexivity.
Qed.

Lemma one_entry_per_hash_witness :
  let w := Fixture.database [Fixture.stale] in
  let arguments := invocation (VObj [("cacheCollectionName", VStr "testCache");
                                     ("forceUpdateCache", VBool true)])
                     [Fixture.pipeline] Fixture.done in
  Store.one_entry_per_hash (world (snd (run (cachedAggregate arguments) w)))
  /\ Store.one_entry_per_hash
       (world (snd (run (cachedMapReduce arguments) w))).
Proof.
  intros w arguments.
  assert (Hone : Store.one_entry_per_hash w).
  { intros name h. unfold w. cbn [Store.collections Fixture.database].
    destruct (Store.value_eqb name (VStr "testCache")).
    - unfold Store.entries. cbn [filter].
      destruct (Store.has_hash h Fixture.stale); simpl; lia.
    - unfold Store.entries. simpl. lia. }
  split.
  - exact (proj1 (proj2 (proj2 upserts_keep_one_entry_per_hash) w arguments
                    Hone (database_keeps_entries _) _ (or_introl eq_refl))).
  - exact (proj1 (proj2 (proj2 upserts_keep_one_entry_per_hash) w arguments
                    Hone (database_keeps_entries _) _ (or_intror eq_refl))).
Defined.

(** ** Forced update *)

Lemma name_of_handle name : Store.name_of (collection_handle name) = name.
Proof. reflexivity. Qed.

Lemma entry_of_has_hash queryArgs now cachedResult :
  Store.has_hash (hashQueryArgs queryArgs)
    (entry_of queryArgs now cachedResult) = true.
Proof. apply has_hash_prop. reflexivity. Qed.

(** On the document store, the lookup answers with what the store finds
    and the upsert with what the store becomes. *)
Lemma store_lookup (w : Store.mongo) name queryArgs :
  Store.lookup_error w = None ->
  findOneAsync (collection_handle name) (selector_of queryArgs) w
  = (Resolved (Store.find_one (selector_of queryArgs)
                 (Store.collections w name)), w).
Proof. intros H. cbn [findOneAsync Store.driver]. rewrite H. reflexivity. Qed.

Lemma store_written (w : Store.mongo) name queryArgs now cachedResult :
  Store.write_error w = None ->
  let w' := snd (update (collection_handle name) (selector_of queryArgs)
                   (entry_of queryArgs now cachedResult) upsert_option w) in
  JS.prop (Store.find_one (selector_of queryArgs)
             (Store.collections w' name)) "cachedResult" = cachedResult
  /\ Store.entries (hashQueryArgs queryArgs) (Store.collections w' name)
     = Nat.max 1
         (Store.entries (hashQueryArgs queryArgs) (Store.collections w name)).
Proof.
  intros Hw w'. subst w'. cbn [update Store.driver]. rewrite Hw.
  cbn [snd]. rewrite name_of_handle, collections_set_collection, value_eqb_refl.
  split.
  - change (selector_of queryArgs) with (Store.by_hash (hashQueryArgs queryArgs)).
    rewrite find_one_upsert by apply entry_of_has_hash. reflexivity.
  - change (selector_of queryArgs) with (Store.by_hash (hashQueryArgs queryArgs)).
    rewrite entries_upsert by apply entry_of_has_hash.
    rewrite String.eqb_refl. reflexivity.
Qed.

(** On the document store a call of the handler changes nothing. *)
Lemma store_world_after handler when f args (w : Store.mongo) :
  world_after handler when (applyFunction f args w) = w.
Proof.
  cbn [applyFunction Store.driver].
  destruct when, (Store.handler_throws w f args); reflexivity.
Qed.

(** C3.  On the document store, with [forceUpdateCache] truthy and an
    entry already filed under the fingerprint, the query executor is
    still called exactly once; and when the query and the write succeed,
    the entry is overwritten: the lookup by the fingerprint then finds the
    new result (for a map-reduce, what the new result is cached as), and
    the upsert has added no entry to those the query left under the
    fingerprint, so that the collection has as many as before whenever
    the query did not write to the cache collection itself. *)
Theorem forced_update_overwrites :
  forall (w : Store.mongo) (opts : value) (queryArgs : list value)
         (handler : string),
    JS.nullish opts = false ->
    forceUpdateCache opts = true ->
    Store.lookup_error w = None ->
    let name := cacheCollectionName opts in
    let h := hashQueryArgs queryArgs in
    (1 <= Store.entries h (Store.collections w name))%nat ->
    let overwritten (wq w' : Store.mongo) (cachedResult : value) :=
      JS.prop (Store.find_one (Store.by_hash h) (Store.collections w' name))
        "cachedResult" = cachedResult
      /\ Store.entries h (Store.collections w' name)
         = Nat.max 1 (Store.entries h (Store.collections wq name))
      /\ (Store.collections wq name = Store.collections w name ->
          Store.entries h (Store.collections w' name)
          = Store.entries h (Store.collections w name)) in
    (let s := snd (run (cachedAggregate (invocation opts queryArgs handler)) w) in
     queries (trace s) = [queryArgs]
     /\ forall results,
         Store.aggregate_outcome w queryArgs = Resolved results ->
         Store.write_error w = None ->
         overwritten (snd (aggregateAsync queryArgs w)) (world s) results)
    /\ (let s := snd (run (cachedMapReduce (invocation opts queryArgs handler)) w) in
        queries (trace s) = [queryArgs]
        /\ forall result,
            Store.mapReduce_outcome w queryArgs = Resolved result ->
            Store.write_error w = None ->
            overwritten (snd (mapReduceAsync queryArgs w)) (world s)
              (cacheable (inline_output queryArgs) result)).
Proof.
  intros w opts queryArgs handler Hn Hf Hl name h Hpre overwritten.
  subst overwritten.
  pose proof (store_lookup w name queryArgs Hl) as Hfind.
  set (entry := Store.find_one (selector_of queryArgs) (Store.collections w name))
    in Hfind.
  assert (Hu : usable entry opts = false) by (apply usable_miss; right; exact Hf).
  split; intros s; subst s.
  - set (wq := snd (aggregateAsync queryArgs w)).
    destruct (Store.aggregate_outcome w queryArgs) as [results|e] eqn:Hq.
    + set (doc := entry_of queryArgs (VNum (Store.clock w)) results).
      destruct (update (collection_handle name) (selector_of queryArgs) doc
                  upsert_option wq) as [[when err] w4] eqn:Hw.
      destruct (aggregate_miss_resolved opts queryArgs handler w Hn
                  entry results (VNum (Store.clock w)) when err w wq wq w4)
        as (_ & Htr & Hw');
        [exact Hfind | exact Hu
        | cbn [aggregateAsync Store.driver]; rewrite Hq; reflexivity
        | reflexivity | exact Hw |].
      unfold events in Htr. rewrite Htr, Hw', store_world_after. split.
      * written; reflexivity.
      * intros r Hr Hwr. injection Hr as <-.
        replace w4 with
          (snd (update (collection_handle name) (selector_of queryArgs) doc
                  upsert_option wq)) by (rewrite Hw; reflexivity).
        pose proof (store_written wq name queryArgs (VNum (Store.clock w))
                      results Hwr) as [H1 H2].
        split; [exact H1 | split; [exact H2|]].
        intros Hsame. fold h in H2. unfold doc. rewrite H2, Hsame. lia.
    + destruct (aggregate_miss_rejected opts queryArgs handler w Hn
                  entry e w wq) as (_ & Htr);
        [exact Hfind | exact Hu
        | cbn [aggregateAsync Store.driver]; rewrite Hq; reflexivity |].
      unfold events in Htr. rewrite Htr. split.
      * match goal with
        | |- context [unhandled ?r] => destruct r
        end; reflexivity.
      * intros r Hr. discriminate.
  - set (wq := snd (mapReduceAsync queryArgs w)).
    destruct (Store.mapReduce_outcome w queryArgs) as [result|e] eqn:Hq.
    + set (toCache := cacheable (inline_output queryArgs) result).
      set (doc := entry_of queryArgs (VNum (Store.clock w)) toCache).
      destruct (update (collection_handle name) (selector_of queryArgs) doc
                  upsert_option wq) as [[when err] w4] eqn:Hw.
      destruct (mapReduce_miss_resolved opts queryArgs handler w Hn
                  entry result (VNum (Store.clock w)) when err w wq wq w4)
        as (_ & Htr & Hw');
        [exact Hfind | exact Hu
        | cbn [mapReduceAsync Store.driver]; rewrite Hq; reflexivity
        | reflexivity | exact Hw |].
      unfold events in Htr. rewrite Htr, Hw', store_world_after. split.
      * written; reflexivity.
      * intros r Hr Hwr. injection Hr as <-.
        replace w4 with
          (snd (update (collection_handle name) (selector_of queryArgs) doc
                  upsert_option wq)) by (rewrite Hw; reflexivity).
        pose proof (store_written wq name queryArgs (VNum (Store.clock w))
                      toCache Hwr) as [H1 H2].
        split; [exact H1 | split; [exact H2|]].
        intros Hsame. fold h in H2. unfold doc. rewrite H2, Hsame. lia.
    + destruct (mapReduce_miss_rejected opts queryArgs handler w Hn
                  entry e w wq) as (_ & Htr);
        [exact Hfind | exact Hu
        | cbn [mapReduceAsync Store.driver]; rewrite Hq; reflexivity |].
      unfold events in Htr. rewrite Htr. split.
      * match goal with
        | |- context [unhandled ?r] => destruct r
        end; reflexivity.
      * intros r Hr. discriminate.
Qed.

Lemma forced_update_witness :
  let w := Fixture.database [Fixture.stale] in
  let opts := VObj [("cacheCollectionName", VStr "testCache");
                    ("forceUpdateCache", VBool true)] in
  let s := snd (run (cachedAggregate
                       (invocation opts [Fixture.pipeline] Fixture.done)) w) in
  queries (trace s) = [[Fixture.pipeline]]
  /\ JS.prop (Store.find_one (selector_of [Fixture.pipeline])
                (Store.collections (world s) (VStr "testCache")))
       "cachedResult" = Fixture.some_result
  /\ Store.entries (hashQueryArgs [Fixture.pipeline])
       (Store.collections (world s) (VStr "testCache")) = 1%nat.
Proof.
  intros w opts s.
  assert (Hpre : (1 <= Store.entries (hashQueryArgs [Fixture.pipeline])
                        (Store.collections w (cacheCollectionName opts)))%nat).
  { vm_compute. lia. }
  destruct (forced_update_overwrites w opts [Fixture.pipeline] Fixture.done
              eq_refl eq_refl eq_refl Hpre) as [[Hq Hover] _].
  destruct (Hover Fixture.some_result eq_refl eq_refl) as (H1 & _ & H2).
  specialize (H2 eq_refl).
  split; [exact Hq | split; [exact H1 |]].
  fold s in H2. change (cacheCollectionName opts) with (VStr "testCache") in H2.
  rewrite H2. vm_compute. reflexivity.
Defined.

(** ** Every path *)

(** With cache options given, an invocation returns normally, starts by
    resolving the cache collection and looking the fingerprint up there,
    looks nothing else up, and calls the handler. *)
Lemma aggregate_begins {W : Type} {D : Driver W} opts queryArgs handler
    (w : W) :
  JS.nullish opts = false ->
  returns (cachedAggregate (invocation opts queryArgs handler)) w
  = JS.Normal tt
  /\ exists rest,
      events (cachedAggregate (invocation opts queryArgs handler)) w
      = [Collection (cacheCollectionName opts);
         FindOne (collection_handle (cacheCollectionName opts))
           (selector_of queryArgs)] ++ rest
      /\ lookups rest = []
      /\ resolutions rest = []
      /\ calls_of (VFun handler) rest <> [].
Proof.
  intros Hn.
  destruct (findOneAsync (collection_handle (cacheCollectionName opts))
              (selector_of queryArgs) w) as [[entry|e] w1] eqn:Hl.
  - destruct (usable entry opts) eqn:Hu.
    + destruct (aggregate_hit opts queryArgs handler w Hn entry w1 Hl Hu)
        as [-> ->].
      split; [reflexivity|]. eexists. split; [reflexivity|].
      destruct (applyFunction _ _ w1) as [[e|] w2]; read_trace;
        [destruct (applyFunction _ _ w2) as [[e'|] w3]; read_trace|];
        repeat split; discriminate.
    + destruct (aggregateAsync queryArgs w1) as [[results|e] w2] eqn:Hq.
      * destruct (newDate w2) as [now w3] eqn:Hd.
        destruct (update (collection_handle (cacheCollectionName opts))
                    (selector_of queryArgs) (entry_of queryArgs now results)
                    upsert_option w3) as [[when err] w4] eqn:Hw.
        destruct (aggregate_miss_resolved opts queryArgs handler w Hn
                    entry results now when err w1 w2 w3 w4 Hl Hu Hq Hd Hw)
          as (-> & -> & _).
        split; [reflexivity|]. eexists. split; [reflexivity|].
        written; repeat split; discriminate.
      * destruct (aggregate_miss_rejected opts queryArgs handler w Hn
                    entry e w1 w2 Hl Hu Hq) as (-> & ->).
        split; [reflexivity|]. eexists. split; [reflexivity|].
        destruct (applyFunction _ _ w2) as [[e'|] w3]; read_trace;
          repeat split; discriminate.
  - destruct (aggregate_lookup_rejected opts queryArgs handler w Hn e w1 Hl)
      as (-> & ->).
    split; [reflexivity|]. eexists. split; [reflexivity|].
    destruct (applyFunction _ _ w1) as [[e'|] w2]; read_trace;
      repeat split; discriminate.
Qed.

Lemma mapReduce_begins {W : Type} {D : Driver W} opts queryArgs handler
    (w : W) :
  JS.nullish opts = false ->
  returns (cachedMapReduce (invocation opts queryArgs handler)) w
  = JS.Normal tt
  /\ exists rest,
      events (cachedMapReduce (invocation opts queryArgs handler)) w
      = [Collection (cacheCollectionName opts);
         FindOne (collection_handle (cacheCollectionName opts))
           (selector_of queryArgs)] ++ rest
      /\ lookups rest = []
      /\ calls_of (VFun handler) rest <> [].
Proof.
  intros Hn.
  destruct (findOneAsync (collection_handle (cacheCollectionName opts))
              (selector_of queryArgs) w) as [[entry|e] w1] eqn:Hl.
  - destruct (usable entry opts) eqn:Hu.
    + destruct (mapReduce_hit opts queryArgs handler w Hn entry w1 Hl Hu)
        as [-> ->].
      split; [reflexivity|]. eexists. split; [reflexivity|].
      destruct (inline_output queryArgs);
        (destruct (applyFunction _ _ w1) as [[e|] w2]; read_trace;
         [destruct (applyFunction _ _ w2) as [[e'|] w3]; read_trace|];
         repeat split; discriminate).
    + destruct (mapReduceAsync queryArgs w1) as [[result|e] w2] eqn:Hq.
      * destruct (newDate w2) as [now w3] eqn:Hd.
        destruct (update (collection_handle (cacheCollectionName opts))
                    (selector_of queryArgs)
                    (entry_of queryArgs now
                       (cacheable (inline_output queryArgs) result))
                    upsert_option w3) as [[when err] w4] eqn:Hw.
        destruct (mapReduce_miss_resolved opts queryArgs handler w Hn
                    entry result now when err w1 w2 w3 w4 Hl Hu Hq Hd Hw)
          as (-> & -> & _).
        split; [reflexivity|]. eexists. split; [reflexivity|].
        written; repeat split; discriminate.
      * destruct (mapReduce_miss_rejected opts queryArgs handler w Hn
                    entry e w1 w2 Hl Hu Hq) as (-> & ->).
        split; [reflexivity|]. eexists. split; [reflexivity|].
        destruct (applyFunction _ _ w2) as [[e'|] w3]; read_trace;
          repeat split; discriminate.
  - destruct (mapReduce_lookup_rejected opts queryArgs handler w Hn e w1 Hl)
      as (-> & ->).
    split; [reflexivity|]. eexists. split; [reflexivity|].
    destruct (applyFunction _ _ w1) as [[e'|] w2]; read_trace;
      repeat split; discriminate.
Qed.

(** ** The fingerprint *)







(** Fingerprints of the test suite's queries. *)
Example fingerprint_of_pipeline :
  hashQueryArgs [Fixture.pipeline] = "Mfo/iqRIE/zBBBaq0kYUxg==".
Proof. vm_compute. reflexivity. Qed.

Example fingerprint_of_functions :
  hashQueryArgs [VFun "m"; VFun "r"] = "yolB0aB8iVIz+fHN7Jro9A=="
  /\ hashQueryArgs [VStr "m"; VStr "r"] = "yolB0aB8iVIz+fHN7Jro9A==".
Proof. vm_compute. split; reflexivity. Qed.

Example md5_of_nothing :
  Digest.md5_base64 EmptyString = "1B2M2Y8AsgTpgAmY7PhCfg==".
Proof. vm_compute. reflexivity. Qed.

Example md5_of_two_blocks :
  Digest.md5_base64
    "aaaaaaaaaaaaaaaaaaaaaaaaaaaaaaaaaaaaaaaaaaaaaaaaaaaaaaaaaaaaaaaa"
  = "AUhC1IC1cUlaSgNjeT9zZw==".
Proof. vm_compute. reflexivity. Qed.

(** ** Inline and named map-reduce output *)

(** A handle is never the name it was resolved from. *)
Lemma handle_not_name : forall name, collection_handle name <> name.
Proof.
  fix IH 1. intros [| | | | | | |fields] H; try discriminate.
  destruct fields as [|[k v] [|kv fields]]; try discriminate.
  unfold collection_handle in H. injection H as Hk Hv.
  apply (IH v). unfold collection_handle. rewrite Hk. exact Hv.
Qed.

(** C5.  For [cachedMapReduce], inline mode is decided by the third query
    argument having a truthy [out.inline].  In inline mode a hit hands
    the stored value over without resolving any collection but the cache,
    and a miss stores the result itself.  Otherwise a miss stores the
    [collectionName] of the handle the query resolved with, and a hit
    resolves the stored name with [db.collection] and hands over that
    handle, which is not the name. *)
Theorem mapReduce_result_shape :
  forall (W : Type) (D : Driver W) (w w1 : W)
         (opts : value) (queryArgs : list value) (handler : string)
         (entry : value),
    JS.nullish opts = false ->
    findOneAsync (collection_handle (cacheCollectionName opts))
      (selector_of queryArgs) w = (Resolved entry, w1) ->
    let name := cacheCollectionName opts in
    let coll := collection_handle name in
    let selector := selector_of queryArgs in
    let stored := JS.prop entry "cachedResult" in
    let tr := events (cachedMapReduce (invocation opts queryArgs handler)) w in
    (exists inline, usesInlineOutput queryArgs = JS.Normal inline
                    /\ JS.truthy inline = inline_output queryArgs)
    /\ (usable entry opts = true -> inline_output queryArgs = true ->
        resolutions tr = [name]
        /\ firstn 3 tr
           = [Collection name; FindOne coll selector;
              Callback (VFun handler) [VNull; stored]])
    /\ (usable entry opts = true -> inline_output queryArgs = false ->
        resolutions tr = [name; stored]
        /\ firstn 4 tr
           = [Collection name; FindOne coll selector; Collection stored;
              Callback (VFun handler) [VNull; collection_handle stored]]
        /\ collection_handle stored <> stored)
    /\ (usable entry opts = false ->
        forall (result now err : value) (when : called_back) (w2 w3 w4 : W),
          mapReduceAsync queryArgs w1 = (Resolved result, w2) ->
          newDate w2 = (now, w3) ->
          (inline_output queryArgs = false -> JS.truthy result = true) ->
          let cachedResult := if inline_output queryArgs then result
                              else JS.prop result "collectionName" in
          update coll selector (entry_of queryArgs now cachedResult)
            upsert_option w3 = ((when, err), w4) ->
          writes tr
          = [(coll, selector, entry_of queryArgs now cachedResult,
              upsert_option)]
          /\ JS.prop (entry_of queryArgs now cachedResult) "cachedResult"
             = cachedResult).
Proof.
  intros W D w w1 opts queryArgs handler entry Hn Hl
         name coll selector stored tr.
  subst name coll selector stored tr.
  split; [apply usesInlineOutput_eval|].
  split; [|split].
  - intros Hu Hi.
    destruct (mapReduce_hit opts queryArgs handler w Hn entry w1 Hl Hu)
      as [_ ->].
    rewrite Hi.
    destruct (applyFunction _ _ w1) as [[e|] w2]; read_trace;
      [destruct (applyFunction _ _ w2) as [[e'|] w3]; read_trace|];
      split; reflexivity.
  - intros Hu Hi.
    destruct (mapReduce_hit opts queryArgs handler w Hn entry w1 Hl Hu)
      as [_ ->].
    rewrite Hi.
    destruct (applyFunction _ _ w1) as [[e|] w2]; read_trace;
      [destruct (applyFunction _ _ w2) as [[e'|] w3]; read_trace|];
      (split; [reflexivity | split; [reflexivity | apply handle_not_name]]).
  - intros Hu result now err when w2 w3 w4 Hq Hd Hh cachedResult Hw.
    subst cachedResult.
    assert (Hc : cacheable (inline_output queryArgs) result
                 = if inline_output queryArgs then result
                   else JS.prop result "collectionName").
    { unfold cacheable. destruct (inline_output queryArgs); [reflexivity|].
      rewrite (Hh eq_refl). reflexivity. }
    rewrite <- Hc in *.
    destruct (mapReduce_miss_resolved opts queryArgs handler w Hn
                entry result now when err w1 w2 w3 w4 Hl Hu Hq Hd Hw)
      as (_ & -> & _).
    written; split; reflexivity.
Qed.

Lemma mapReduce_result_shape_witness :
  let stored := VStr "resultingWordCache" in
  let w := Fixture.cached_as stored Fixture.resultCollection in
  firstn 4
    (events (cachedMapReduce (D := Stub.driver)
               (invocation (VStr "testCache") [VFun "map"; VFun "reduce"]
                  Fixture.done)) w)
  = [Collection (VStr "testCache");
     FindOne (collection_handle (VStr "testCache"))
       (selector_of [VFun "map"; VFun "reduce"]);
     Collection stored;
     Callback (VFun Fixture.done) [VNull; Fixture.resultCollection]].
Proof.
  intros stored w.
  destruct (mapReduce_result_shape Stub.script Stub.driver w w
              (VStr "testCache") [VFun "map"; VFun "reduce"] Fixture.done
              (VObj [("cachedResult", stored)]) eq_refl eq_refl)
    as (_ & _ & H & _).
  destruct (H eq_refl eq_refl) as (_ & H4 & _).
  exact H4.
Defined.

(** ** Failures *)



(** C10.  When the query succeeds and the write fails, the handler is
    called with the write's error as its first argument and the live
    result of the query as its second: the value [aggregateAsync]
    resolved with, or the very value [mapReduceAsync] resolved with, also
    where the cache is given its [collectionName] only.  It is the
    handler's first call, and its only one unless the handler throws
    while [update] has not returned. *)
Theorem write_failure_keeps_result :
  forall (W : Type) (D : Driver W) (w w1 w2 w3 w4 : W)
         (opts : value) (queryArgs : list value) (handler : string)
         (entry result now err : value) (when : called_back),
    JS.nullish opts = false ->
    let coll := collection_handle (cacheCollectionName opts) in
    let selector := selector_of queryArgs in
    findOneAsync coll selector w = (Resolved entry, w1) ->
    usable entry opts = false ->
    newDate w2 = (now, w3) ->
    let again :=
      called_again when (applyFunction (VFun handler) [err; result] w4) in
    (aggregateAsync queryArgs w1 = (Resolved result, w2) ->
     update coll selector (entry_of queryArgs now result) upsert_option w3
     = ((when, err), w4) ->
     let tr := events (cachedAggregate (invocation opts queryArgs handler)) w in
     calls_of (VFun handler) tr = [err; result] :: again
     /\ nth_error tr 4 = Some (Callback (VFun handler) [err; result]))
    /\ (mapReduceAsync queryArgs w1 = (Resolved result, w2) ->
        update coll selector
          (entry_of queryArgs now (cacheable (inline_output queryArgs) result))
          upsert_option w3
        = ((when, err), w4) ->
        let tr := events (cachedMapReduce (invocation opts queryArgs handler)) w in
        calls_of (VFun handler) tr = [err; result] :: again
        /\ nth_error tr 4 = Some (Callback (VFun handler) [err; result])).
Proof.
  intros W D w w1 w2 w3 w4 opts queryArgs handler entry result now err when
         Hn coll selector Hl Hu Hd again.
  subst coll selector again. split; intros Hq Hw tr; subst tr.
  - destruct (aggregate_miss_resolved opts queryArgs handler w Hn
                entry result now when err w1 w2 w3 w4 Hl Hu Hq Hd Hw)
      as (_ & -> & _).
    written; split; reflexivity.
  - destruct (mapReduce_miss_resolved opts queryArgs handler w Hn
                entry result now when err w1 w2 w3 w4 Hl Hu Hq Hd Hw)
      as (_ & -> & _).
    written; split; reflexivity.
Qed.

Lemma write_failure_witness :
  let w := Fixture.broken_write Fixture.resultCollection in
  calls_of (VFun Fixture.done)
    (events (cachedMapReduce (D := Stub.driver)
               (invocation (VStr "testCache") [VFun "map"; VFun "reduce"]
                  Fixture.done)) w)
  = [[Fixture.write_failed; Fixture.resultCollection]].
Proof.
  intros w.
  destruct (write_failure_keeps_result Stub.script Stub.driver w w w w w
              (VStr "testCache") [VFun "map"; VFun "reduce"] Fixture.done
              VNull Fixture.resultCollection (VNum 0) Fixture.write_failed
              InsideTheCall eq_refl eq_refl eq_refl eq_refl) as [_ H].
  exact (proj1 (H eq_refl eq_refl)).
Defined.

(** ** Cache options *)

Lemma parse_cons first rest :
  rest <> [] ->
  parseCacheFuncParams (first :: rest)
  = {| callback := last rest VUndefined;
       cacheOptions := asCacheOptions first;
       queryArgsArray := removelast rest |}.
Proof.
  intros Hrest. destruct rest as [|x rest]; [contradiction|].
  reflexivity.
Qed.

(** C7.  A bare string as first argument is sugar for
    [{ cacheCollectionName: <string> }]: whatever query arguments and
    completion handler follow, and whatever the collaborators do, the two
    invocations resolve the same cache collection, look the same
    fingerprint up and end the same way, event for event. *)
Theorem string_is_sugar_for_cacheCollectionName :
  forall (W : Type) (D : Driver W) (w : W) (s : string)
         (queryArgs : list value) (handler : value) (rest : list value),
    let sugar := VStr s in
    let plain := VObj [("cacheCollectionName", VStr s)] in
    parseCacheFuncParams (sugar :: queryArgs ++ [handler])
    = parseCacheFuncParams (plain :: queryArgs ++ [handler])
    /\ cacheOptions (parseCacheFuncParams (sugar :: queryArgs ++ [handler]))
       = plain
    /\ run (cachedAggregate (sugar :: rest)) w
       = run (cachedAggregate (plain :: rest)) w
    /\ run (cachedMapReduce (sugar :: rest)) w
       = run (cachedMapReduce (plain :: rest)) w.
Proof.
  intros W D w s queryArgs handler rest sugar plain. subst sugar plain.
  assert (Hne : queryArgs ++ [handler] <> []).
  { destruct queryArgs; discriminate. }
  split; [|split; [|split]].
  - rewrite !parse_cons by exact Hne. reflexivity.
  - rewrite parse_cons by exact Hne. reflexivity.
  - destruct rest as [|x rest]; [reflexivity|].
    unfold run, cachedAggregate.
    rewrite !parse_cons by discriminate. reflexivity.
  - destruct rest as [|x rest]; [reflexivity|].
    unfold run, cachedMapReduce.
    rewrite !parse_cons by discriminate. reflexivity.
Qed.

(** C8, as the code has it.  With cache options that are an object
    lacking [cacheCollectionName], [cachedAggregate] and [cachedMapReduce]
    return normally, resolve the collection named ["queryCache"], look the
    fingerprint up there, and call the completion handler. *)
Theorem default_cache_collection :
  forall (W : Type) (D : Driver W) (w : W)
         (fields : list (string * value)) (queryArgs : list value)
         (handler : string),
    JS.assoc "cacheCollectionName" fields = VUndefined ->
    let arguments := invocation (VObj fields) queryArgs handler in
    let defaulted (m : M W unit) :=
      returns m w = JS.Normal tt
      /\ exists rest,
          events m w
          = [Collection (VStr "queryCache");
             FindOne (collection_handle (VStr "queryCache"))
               (selector_of queryArgs)] ++ rest
          /\ calls_of (VFun handler) rest <> [] in
    defaulted (cachedAggregate arguments)
    /\ defaulted (cachedMapReduce arguments).
Proof.
  intros W D w fields queryArgs handler Hlack arguments defaulted.
  subst arguments defaulted. cbv beta.
  assert (Hname : cacheCollectionName (VObj fields) = VStr "queryCache").
  { unfold cacheCollectionName. cbn [asCacheOptions JS.is_string JS.prop].
    rewrite Hlack. reflexivity. }
  split.
  - destruct (aggregate_begins (VObj fields) queryArgs handler w eq_refl)
      as (Hr & rest & Hev & _ & _ & Hc).
    rewrite Hname in Hev. split; [exact Hr|].
    exists rest. split; [exact Hev | exact Hc].
  - destruct (mapReduce_begins (VObj fields) queryArgs handler w eq_refl)
      as (Hr & rest & Hev & _ & Hc).
    rewrite Hname in Hev. split; [exact Hr|].
    exists rest. split; [exact Hev | exact Hc].
Qed.

Lemma default_cache_collection_witness :
  let call := cachedAggregate (D := Stub.driver)
                (invocation (VObj [("forceUpdateCache", VBool true)])
                   [Fixture.pipeline] Fixture.done) in
  returns call Fixture.cached = JS.Normal tt
  /\ resolutions (events call Fixture.cached) = [VStr "queryCache"].
Proof.
  intros call.
  destruct (default_cache_collection Stub.script Stub.driver Fixture.cached
              [("forceUpdateCache", VBool true)] [Fixture.pipeline]
              Fixture.done eq_refl) as [[Hr _] _].
  split; [exact Hr | reflexivity].
Defined.

(** C8 as stated fails where the cache options are absent or [undefined]:
    the call throws a [TypeError] while it reads [cacheCollectionName],
    before any collection is resolved, and the handler is never called. *)
Lemma undefined_options_counterexample :
  let w := Fixture.fresh Fixture.some_result in
  let undefined_options :=
    cachedAggregate (D := Stub.driver)
      (invocation VUndefined [Fixture.pipeline] Fixture.done) in
  let absent_options :=
    cachedMapReduce (D := Stub.driver) [VFun Fixture.done] in
  ~ (returns undefined_options w = JS.Normal tt
     /\ resolutions (events undefined_options w) = [VStr "queryCache"])
  /\ run undefined_options w
     = (JS.Thrown (JS.TypeError "Cannot read property cacheCollectionName"),
        {| world := w; trace := [] |})
  /\ run absent_options w
     = (JS.Thrown (JS.TypeError "Cannot read property cacheCollectionName"),
        {| world := w; trace := [] |}).
Proof.
  intros w undefined_options absent_options.
  split; [|split; reflexivity].
  intros [H _]. discriminate H.
Qed.

(** ** The test suite, replayed *)

(** "should re-run the query and cache the result on cache misses". *)
Example aggregate_miss_replayed :
  events (cachedAggregate (D := Stub.driver)
            (invocation (VStr "test") [VObj []] Fixture.done))
    (Fixture.fresh Fixture.some_result)
  = [Collection (VStr "test");
     FindOne (collection_handle (VStr "test")) (selector_of [VObj []]);
     Aggregate [VObj []];
     Update (collection_handle (VStr "test")) (selector_of [VObj []])
       (entry_of [VObj []] (VNum 0) Fixture.some_result) upsert_option;
     Callback (VFun Fixture.done) [VUndefined; Fixture.some_result]].
Proof. vm_compute. reflexivity. Qed.

(** "should return the actual results (on cache miss) if inline output is
    specified". *)
Example mapReduce_inline_miss_replayed :
  let queryArgs := [VNull; VNull; Fixture.inline_options] in
  events (cachedMapReduce (D := Stub.driver)
            (invocation (VStr "testCache") queryArgs Fixture.done))
    (Fixture.fresh Fixture.inline_results)
  = [Collection (VStr "testCache");
     FindOne (collection_handle (VStr "testCache")) (selector_of queryArgs);
     MapReduce queryArgs;
     Update (collection_handle (VStr "testCache")) (selector_of queryArgs)
       (entry_of queryArgs (VNum 0) Fixture.inline_results) upsert_option;
     Callback (VFun Fixture.done) [VUndefined; Fixture.inline_results]].
Proof. vm_compute. reflexivity. Qed.

(** "should return the actual results (on cache hit) if inline output is
    specified". *)
Example mapReduce_inline_hit_replayed :
  let queryArgs := [VNull; VNull; Fixture.inline_options] in
  events (cachedMapReduce (D := Stub.driver)
            (invocation (VStr "testCache") queryArgs Fixture.done))
    (Fixture.cached_as Fixture.inline_results Fixture.inline_results)
  = [Collection (VStr "testCache");
     FindOne (collection_handle (VStr "testCache")) (selector_of queryArgs);
     Callback (VFun Fixture.done) [VNull; Fixture.inline_results]].
Proof. vm_compute. reflexivity. Qed.

(** The end-to-end scenario on the document store: with an empty cache
    the executor runs once and one entry is written; the same call made
    again finds it, runs nothing and hands over the first result. *)
Example end_to_end_replayed :
  let arguments := invocation (VStr "testCache") [Fixture.pipeline]
                     Fixture.done in
  let first := snd (run (cachedAggregate arguments) (Fixture.database [])) in
  let second := snd (run (cachedAggregate arguments) (world first)) in
  queries (trace first) = [[Fixture.pipeline]]
  /\ Store.collections (world first) (VStr "testCache")
     = [entry_of [Fixture.pipeline] (VNum 1420070400000) Fixture.some_result]
  /\ trace second
     = [Collection (VStr "testCache");
        FindOne (collection_handle (VStr "testCache"))
          (selector_of [Fixture.pipeline]);
        Callback (VFun Fixture.done) [VNull; Fixture.some_result]]
  /\ Store.collections (world second) (VStr "testCache")
     = Store.collections (world first) (VStr "testCache").
Proof. vm_compute. repeat split; reflexivity. Qed.

(** A handler that throws on a hit is handed its own error by
    [.catch(params.callback)]. *)
Example throwing_handler_replayed :
  let w := {| Stub.found := Resolved (VObj [("cachedResult", VNum 1)]);
              Stub.ran := Resolved VNull;
              Stub.written := VUndefined;
              Stub.today := VNum 0;
              Stub.thrown := fun args =>
                match args with
                | [VNull; _] => Some (VStr "oops")
                | _ => None
                end |} in
  calls_of (VFun Fixture.done)
    (events (cachedAggregate (D := Stub.driver)
               (invocation (VStr "test") [VObj []] Fixture.done)) w)
  = [[VNull; VNum 1]; [VStr "oops"]].
Proof. vm_compute. reflexivity. Qed.

(** So is a handler that throws on a miss, when the stub of [update] calls
    it: the error leaves [saveResultToCache] and reaches the
    [.catch(params.callback)] of the query's chain. *)
Example throwing_handler_on_miss_replayed :
  let w := {| Stub.found := Resolved VNull;
              Stub.ran := Resolved Fixture.some_result;
              Stub.written := VUndefined;
              Stub.today := VNum 0;
              Stub.thrown := fun args =>
                match args with
                | [VUndefined; _] => Some (VStr "oops")
                | _ => None
                end |} in
  calls_of (VFun Fixture.done)
    (events (cachedAggregate (D := Stub.driver)
               (invocation (VStr "test") [VObj []] Fixture.done)) w)
  = [[VUndefined; Fixture.some_result]; [VStr "oops"]].
Proof. vm_compute. reflexivity. Qed.

(** * Beyond the claims *)

(** ** The argument normalizer, whatever it is given *)

Lemma length_removelast {A : Type} (l : list A) :
  List.length (removelast l) = (List.length l - 1)%nat.
Proof.
  induction l as [|a [|b l] IH]; [reflexivity | reflexivity |].
  change (removelast (a :: b :: l)) with (a :: removelast (b :: l)).
  cbn [List.length] in *. rewrite IH. lia.
Qed.

(** X1.  [parseCacheFuncParams] splits any argument list positionally:
    the last argument is the callback, the first the cache options and
    what lies between the query arguments, in order; so there are two
    query arguments fewer than arguments, and none when fewer than two
    arguments are given. *)
Theorem parse_splits_positionally :
  forall (first last : value) (between : list value) (arguments : list value),
    parseCacheFuncParams (first :: between ++ [last])
    = {| callback := last;
         cacheOptions := asCacheOptions first;
         queryArgsArray := between |}
    /\ List.length (queryArgsArray (parseCacheFuncParams arguments))
       = (List.length arguments - 2)%nat
    /\ callback (parseCacheFuncParams arguments) = List.last arguments VUndefined.
Proof.
  intros first last between arguments. split; [|split].
  - rewrite parse_cons by (destruct between; discriminate).
    rewrite last_last, removelast_last. reflexivity.
  - unfold parseCacheFuncParams, JS.pop, JS.slice1. cbn [queryArgsArray].
    destruct arguments as [|a rest]; [reflexivity|].
    destruct rest as [|b rest]; [reflexivity|].
    change (removelast (a :: b :: rest)) with (a :: removelast (b :: rest)).
    cbn [tl]. rewrite length_removelast. cbn [List.length]. lia.
  - reflexivity.
Qed.

(** ** Calls that cannot start *)

(** X2.  Without cache options the cached operations do nothing but
    throw: called with no argument or a single one (which is taken for
    the callback, also when it is a cache name), or with [undefined] or
    [null] in first place, they throw a [TypeError] synchronously, before
    any collection is resolved, any lookup made or any callback called. *)
Theorem cached_call_needs_options :
  forall (W : Type) (D : Driver W) (w : W) (only : value) (rest : list value),
    let thrown :=
      (JS.Thrown (JS.TypeError "Cannot read property cacheCollectionName"),
       {| world := w; trace := [] |}) in
    (run (cachedAggregate []) w = thrown
     /\ run (cachedAggregate [only]) w = thrown
     /\ run (cachedAggregate (VUndefined :: rest)) w = thrown
     /\ run (cachedAggregate (VNull :: rest)) w = thrown)
    /\ (run (cachedMapReduce []) w = thrown
        /\ run (cachedMapReduce [only]) w = thrown
        /\ run (cachedMapReduce (VUndefined :: rest)) w = thrown
        /\ run (cachedMapReduce (VNull :: rest)) w = thrown).
Proof.
  intros W D w only rest thrown. subst thrown.
  split; (split; [reflexivity|]; split; [reflexivity|]);
    (split; (destruct rest as [|x rest]; [reflexivity|]);
     unfold run, cachedAggregate, cachedMapReduce;
     rewrite parse_cons by discriminate; reflexivity).
Qed.

(** ** Which collection is the cache *)

(** X3.  The cache collection is the [cacheCollectionName] given when it
    is truthy, whatever kind of value it is, and ["queryCache"] whenever
    it is falsy: missing, but also the empty string (bare or in the
    options object), [0], [null] or [false].  It is the first thing an
    invocation resolves and the only collection it looks up. *)
Theorem falsy_name_selects_queryCache :
  forall (W : Type) (D : Driver W) (w : W)
         (opts : value) (queryArgs : list value) (handler : string),
    JS.nullish opts = false ->
    let given := JS.prop (asCacheOptions opts) "cacheCollectionName" in
    let resolved := if JS.truthy given then given else VStr "queryCache" in
    let cache_is (tr : list event) :=
      hd_error tr = Some (Collection resolved)
      /\ lookups tr = [(collection_handle resolved, selector_of queryArgs)] in
    cache_is (events (cachedAggregate (invocation opts queryArgs handler)) w)
    /\ cache_is (events (cachedMapReduce (invocation opts queryArgs handler)) w).
Proof.
  intros W D w opts queryArgs handler Hn given resolved cache_is.
  subst given resolved cache_is. cbv beta.
  change (if JS.truthy (JS.prop (asCacheOptions opts) "cacheCollectionName")
          then JS.prop (asCacheOptions opts) "cacheCollectionName"
          else VStr "queryCache")
    with (cacheCollectionName opts).
  destruct (aggregate_begins opts queryArgs handler w Hn)
    as (_ & rest & -> & Hl & _).
  destruct (mapReduce_begins opts queryArgs handler w Hn)
    as (_ & rest' & -> & Hl' & _).
  cbn [hd_error app lookups flat_map].
  fold (lookups rest). fold (lookups rest'). rewrite Hl, Hl'.
  repeat split.
Qed.

Lemma falsy_name_witness :
  let empty_name := VStr EmptyString in
  let numbered := VObj [("cacheCollectionName", VNum 7)] in
  hd_error (events (cachedAggregate (D := Stub.driver)
                      (invocation empty_name [Fixture.pipeline] Fixture.done))
              Fixture.cached)
  = Some (Collection (VStr "queryCache"))
  /\ hd_error (events (cachedMapReduce (D := Stub.driver)
                         (invocation numbered [Fixture.pipeline] Fixture.done))
                 Fixture.cached)
     = Some (Collection (VNum 7)).
Proof.
  intros empty_name numbered. split.
  - exact (proj1 (proj1 (falsy_name_selects_queryCache Stub.script Stub.driver
             Fixture.cached empty_name [Fixture.pipeline] Fixture.done
             eq_refl))).
  - exact (proj1 (proj2 (falsy_name_selects_queryCache Stub.script Stub.driver
             Fixture.cached numbered [Fixture.pipeline] Fixture.done
             eq_refl))).
Defined.

(** ** How often the callback is called *)

(** X4.  With cache options given, every invocation calls the callback
    once or twice.  It is called exactly once, except where it throws
    inside a promise chain that ends in [.catch(params.callback)], which
    calls it a second time: on a cache hit, and on a miss whose query
    resolves when [update] calls back before it returns. *)
Theorem callback_called_once_or_twice :
  forall (W : Type) (D : Driver W) (w : W)
         (opts : value) (queryArgs : list value) (handler : string),
    JS.nullish opts = false ->
    let coll := collection_handle (cacheCollectionName opts) in
    let once_unless_thrown (r : option value * W) : nat :=
      match fst r with
      | Some _ => 2%nat
      | None => 1%nat
      end in
    let times (handed : value -> value) (ran : W -> outcome * W)
              (cached : value -> value) : nat :=
      match findOneAsync coll (selector_of queryArgs) w with
      | (Resolved entry, w1) =>
          if usable entry opts
          then once_unless_thrown
                 (applyFunction (VFun handler)
                    [VNull; handed (JS.prop entry "cachedResult")] w1)
          else match ran w1 with
               | (Resolved result, w2) =>
                   let (now, w3) := newDate w2 in
                   match update coll (selector_of queryArgs)
                           (entry_of queryArgs now (cached result))
                           upsert_option w3 with
                   | ((InsideTheCall, err), w4) =>
                       once_unless_thrown
                         (applyFunction (VFun handler) [err; result] w4)
                   | ((AfterTheCall, _), _) => 1%nat
                   end
               | (Rejected _, _) => 1%nat
               end
      | (Rejected _, _) => 1%nat
      end in
    List.length
      (calls_of (VFun handler)
         (events (cachedAggregate (invocation opts queryArgs handler)) w))
    = times (fun stored => stored) (aggregateAsync queryArgs)
        (fun result => result)
    /\ List.length
         (calls_of (VFun handler)
            (events (cachedMapReduce (invocation opts queryArgs handler)) w))
       = times (fun stored => if inline_output queryArgs then stored
                              else collection_handle stored)
           (mapReduceAsync queryArgs)
           (cacheable (inline_output queryArgs)).
Proof.
  intros W D w opts queryArgs handler Hn coll once_unless_thrown times.
  subst coll once_unless_thrown times.
  cbv beta.
  destruct (findOneAsync (collection_handle (cacheCollectionName opts))
              (selector_of queryArgs) w) as [[entry|e] w1] eqn:Hl.
  - destruct (usable entry opts) eqn:Hu.
    + destruct (aggregate_hit opts queryArgs handler w Hn entry w1 Hl Hu)
        as [_ ->].
      destruct (mapReduce_hit opts queryArgs handler w Hn entry w1 Hl Hu)
        as [_ ->].
      split.
      * destruct (applyFunction _ _ w1) as [[e|] w2]; read_trace;
          [destruct (applyFunction _ _ w2) as [[e'|] w3]; read_trace|];
          reflexivity.
      * destruct (inline_output queryArgs);
          (destruct (applyFunction _ _ w1) as [[e|] w2]; read_trace;
           [destruct (applyFunction _ _ w2) as [[e'|] w3]; read_trace|];
           reflexivity).
    + split.
      * destruct (aggregateAsync queryArgs w1) as [[results|e] w2] eqn:Hq.
        -- destruct (newDate w2) as [now w3] eqn:Hd.
           destruct (update (collection_handle (cacheCollectionName opts))
                       (selector_of queryArgs) (entry_of queryArgs now results)
                       upsert_option w3) as [[when err] w4] eqn:Hw.
           destruct (aggregate_miss_resolved opts queryArgs handler w Hn
                       entry results now when err w1 w2 w3 w4 Hl Hu Hq Hd Hw)
             as (_ & -> & _).
           written; reflexivity.
        -- destruct (aggregate_miss_rejected opts queryArgs handler w Hn
                       entry e w1 w2 Hl Hu Hq) as (_ & ->).
           destruct (applyFunction _ _ w2) as [[e'|] w3]; read_trace;
             reflexivity.
      * destruct (mapReduceAsync queryArgs w1) as [[result|e] w2] eqn:Hq.
        -- destruct (newDate w2) as [now w3] eqn:Hd.
           destruct (update (collection_handle (cacheCollectionName opts))
                       (selector_of queryArgs)
                       (entry_of queryArgs now
                          (cacheable (inline_output queryArgs) result))
                       upsert_option w3) as [[when err] w4] eqn:Hw.
           destruct (mapReduce_miss_resolved opts queryArgs handler w Hn
                       entry result now when err w1 w2 w3 w4 Hl Hu Hq Hd Hw)
             as (_ & -> & _).
           written; reflexivity.
        -- destruct (mapReduce_miss_rejected opts queryArgs handler w Hn
                       entry e w1 w2 Hl Hu Hq) as (_ & ->).
           destruct (applyFunction _ _ w2) as [[e'|] w3]; read_trace;
             reflexivity.
  - destruct (aggregate_lookup_rejected opts queryArgs handler w Hn e w1 Hl)
      as (_ & ->).
    destruct (mapReduce_lookup_rejected opts queryArgs handler w Hn e w1 Hl)
      as (_ & ->).
    destruct (applyFunction _ _ w1) as [[e'|] w2]; read_trace;
      split; reflexivity.
Qed.

Lemma callback_count_witness :
  let call := cachedAggregate (D := Stub.driver)
                (invocation (VStr "test") [Fixture.pipeline] Fixture.done) in
  List.length (calls_of (VFun Fixture.done) (events call Fixture.broken_query))
  = 1%nat
  /\ List.length
       (calls_of (VFun Fixture.done)
          (events call (Scenario.throwing_on_miss Fixture.some_result)))
     = 2%nat.
Proof.
  intros call. split.
  - exact (proj1 (callback_called_once_or_twice Stub.script Stub.driver
             Fixture.broken_query (VStr "test") [Fixture.pipeline] Fixture.done
             eq_refl)).
  - exact (proj1 (callback_called_once_or_twice Stub.script Stub.driver
             (Scenario.throwing_on_miss Fixture.some_result)
             (VStr "test") [Fixture.pipeline] Fixture.done eq_refl)).
Defined.

(** X5.  On a cache hit a callback that throws is called a second time,
    with its own error as only argument: the [.catch(params.callback)]
    that ends the lookup's chain also catches what the callback throws. *)
Theorem throwing_callback_called_again :
  forall (W : Type) (D : Driver W) (w w1 w2 : W)
         (opts : value) (queryArgs : list value) (handler : string)
         (entry e : value),
    JS.nullish opts = false ->
    findOneAsync (collection_handle (cacheCollectionName opts))
      (selector_of queryArgs) w = (Resolved entry, w1) ->
    usable entry opts = true ->
    let stored := JS.prop entry "cachedResult" in
    (applyFunction (VFun handler) [VNull; stored] w1 = (Some e, w2) ->
     calls_of (VFun handler)
       (events (cachedAggregate (invocation opts queryArgs handler)) w)
     = [[VNull; stored]; [e]])
    /\ (let result := if inline_output queryArgs then stored
                      else collection_handle stored in
        applyFunction (VFun handler) [VNull; result] w1 = (Some e, w2) ->
        calls_of (VFun handler)
          (events (cachedMapReduce (invocation opts queryArgs handler)) w)
        = [[VNull; result]; [e]]).
Proof.
  intros W D w w1 w2 opts queryArgs handler entry e Hn Hl Hu stored.
  subst stored. split.
  - intros Ha.
    destruct (aggregate_hit opts queryArgs handler w Hn entry w1 Hl Hu)
      as [_ ->].
    rewrite Ha. read_trace.
    destruct (applyFunction _ _ w2) as [[e'|] w3]; read_trace; reflexivity.
  - intros result Ha. subst result.
    destruct (mapReduce_hit opts queryArgs handler w Hn entry w1 Hl Hu)
      as [_ ->].
    rewrite Ha.
    destruct (inline_output queryArgs); read_trace;
      (destruct (applyFunction _ _ w2) as [[e'|] w3]; read_trace; reflexivity).
Qed.

Lemma throwing_callback_witness :
  calls_of (VFun Fixture.done)
    (events (cachedAggregate (D := Stub.driver)
               (invocation (VStr "test") [Fixture.pipeline] Fixture.done))
       (Scenario.throwing_on_result (VNum 1)))
  = [[VNull; VNum 1]; [VStr "callback failed"]].
Proof.
  exact (proj1 (throwing_callback_called_again Stub.script Stub.driver
           (Scenario.throwing_on_result (VNum 1))
           (Scenario.throwing_on_result (VNum 1))
           (Scenario.throwing_on_result (VNum 1))
           (VStr "test") [Fixture.pipeline] Fixture.done
           (VObj [("cachedResult", VNum 1)]) (VStr "callback failed")
           eq_refl eq_refl eq_refl) eq_refl).
Defined.

(** ** What the bare string cannot ask for *)

Lemma usable_with_string entry s :
  usable entry (VStr s) = negb (Lodash.isEmpty entry).
Proof. unfold usable. apply andb_true_r. Qed.

(** X6.  A cache name given as a bare string can never force an update:
    whenever the lookup finds a non-empty entry, the query executor is not
    called, nothing is written and the stored value is handed over; only
    the options object can carry [forceUpdateCache]. *)
Theorem bare_string_never_forces :
  forall (W : Type) (D : Driver W) (w w1 : W)
         (name : string) (queryArgs : list value) (handler : string)
         (entry : value),
    findOneAsync (collection_handle (cacheCollectionName (VStr name)))
      (selector_of queryArgs) w = (Resolved entry, w1) ->
    Lodash.isEmpty entry = false ->
    let stored := JS.prop entry "cachedResult" in
    let used (handed : value) (tr : list event) :=
      queries tr = [] /\ writes tr = []
      /\ hd_error (calls_of (VFun handler) tr) = Some [VNull; handed] in
    used stored
      (events (cachedAggregate (invocation (VStr name) queryArgs handler)) w)
    /\ used (if inline_output queryArgs then stored
             else collection_handle stored)
         (events (cachedMapReduce (invocation (VStr name) queryArgs handler)) w).
Proof.
  intros W D w w1 name queryArgs handler entry Hl He stored used.
  subst stored used. cbv beta.
  assert (Hu : usable entry (VStr name) = true).
  { rewrite usable_with_string, He. reflexivity. }
  destruct (aggregate_hit (VStr name) queryArgs handler w eq_refl entry w1 Hl Hu)
    as [_ ->].
  destruct (mapReduce_hit (VStr name) queryArgs handler w eq_refl entry w1 Hl Hu)
    as [_ ->].
  split.
  - destruct (applyFunction _ _ w1) as [[e|] w2]; read_trace;
      [destruct (applyFunction _ _ w2) as [[e'|] w3]; read_trace|];
      repeat split.
  - destruct (inline_output queryArgs);
      (destruct (applyFunction _ _ w1) as [[e|] w2]; read_trace;
       [destruct (applyFunction _ _ w2) as [[e'|] w3]; read_trace|];
       repeat split).
Qed.

Lemma bare_string_witness :
  queries
    (events (cachedAggregate (D := Stub.driver)
               (invocation (VStr "test") [Fixture.pipeline] Fixture.done))
       Fixture.cached)
  = [].
Proof.
  exact (proj1 (proj1 (bare_string_never_forces Stub.script Stub.driver
           Fixture.cached Fixture.cached "test" [Fixture.pipeline]
           Fixture.done (VObj [("cachedResult", Fixture.some_result)])
           eq_refl eq_refl))).
Defined.

(** ** What the fingerprint cannot tell apart *)

(** The text an array element is written as. *)
Lemma fingerprint_of_element_text pre x y post :
  match JSON.stringify (argToHash x) with Some t => t | None => "null" end
  = match JSON.stringify (argToHash y) with Some t => t | None => "null" end ->
  hashQueryArgs (pre ++ x :: post) = hashQueryArgs (pre ++ y :: post).
Proof.
  intros H. unfold hashQueryArgs, JSON.stringify_array.
  cbn [JSON.stringify]. rewrite ?map_app. cbn [map]. rewrite ?map_app.
  cbn [map]. rewrite H. reflexivity.
Qed.

Lemma stringify_drops_property fs1 k v fs2 :
  JSON.stringify v = None ->
  JSON.stringify (VObj (fs1 ++ (k, v) :: fs2)) = JSON.stringify (VObj (fs1 ++ fs2)).
Proof.
  intros H. cbn [JSON.stringify]. rewrite !flat_map_app.
  cbn [flat_map snd]. rewrite H. reflexivity.
Qed.

(** X7.  The fingerprint does not tell apart what [JSON.stringify] writes
    alike.  Only a function that is itself a query argument is hashed by
    its source: a function inside an argument (the [finalize] of the
    map-reduce options, say) leaves no mark, no more than a property that
    is [undefined], so two queries that differ in it share a cache entry;
    and an argument or array element that is [undefined] hashes as
    [null]. *)
Theorem fingerprint_blind_spots :
  forall (pre post : list value) (fs1 fs2 : list (string * value))
         (k src : string) (xs ys : list value),
    hashQueryArgs (pre ++ VObj (fs1 ++ (k, VFun src) :: fs2) :: post)
    = hashQueryArgs (pre ++ VObj (fs1 ++ fs2) :: post)
    /\ hashQueryArgs (pre ++ VObj (fs1 ++ (k, VUndefined) :: fs2) :: post)
       = hashQueryArgs (pre ++ VObj (fs1 ++ fs2) :: post)
    /\ hashQueryArgs (pre ++ VArr (xs ++ VFun src :: ys) :: post)
       = hashQueryArgs (pre ++ VArr (xs ++ VNull :: ys) :: post)
    /\ hashQueryArgs (pre ++ VUndefined :: post)
       = hashQueryArgs (pre ++ VNull :: post).
Proof.
  intros pre post fs1 fs2 k src xs ys.
  split; [|split; [|split]]; apply fingerprint_of_element_text.
  - cbn [argToHash]. rewrite stringify_drops_property by reflexivity.
    reflexivity.
  - cbn [argToHash]. rewrite stringify_drops_property by reflexivity.
    reflexivity.
  - cbn [argToHash JSON.stringify]. rewrite !map_app. reflexivity.
  - reflexivity.
Qed.

(** ** The document store after an invocation *)

Ltac unfold_monad :=
  repeat (progress
            (unfold then_catch, detached, try_catch, saveResultToCache,
               db_collection, call, on_rejected, bind, emit, lift, perform,
               ret, throw;
             cbn [world trace fst snd JS.is_function app negb])).

Ltac unfold_invocation :=
  unfold run, cachedAggregate, cachedMapReduce;
  rewrite parse_invocation;
  cbn [callback cacheOptions queryArgsArray];
  unfold_monad.

(** On the document store a callback changes nothing, whether it returns
    or throws. *)
Ltac store_settle :=
  repeat (cbn [world trace fst snd app applyFunction Store.driver];
          match goal with
          | |- context [Store.handler_throws ?w ?f ?a] =>
              destruct (Store.handler_throws w f a)
          end);
  cbn [world trace fst snd app];
  try reflexivity.

(** What an invocation of [cachedAggregate] leaves in the store: the
    store it found when the lookup fails or the entry found is used, and
    else the store as the query left it, with the entry written when the
    query resolved. *)
Lemma store_after_aggregate (w : Store.mongo) opts queryArgs handler :
  JS.nullish opts = false ->
  let name := cacheCollectionName opts in
  let selector := selector_of queryArgs in
  let wq := snd (aggregateAsync queryArgs w) in
  world (snd (run (cachedAggregate (invocation opts queryArgs handler)) w))
  = match Store.lookup_error w with
    | Some _ => w
    | None =>
        if usable (Store.find_one selector (Store.collections w name)) opts
        then w
        else match Store.aggregate_outcome w queryArgs with
             | Rejected _ => wq
             | Resolved results =>
                 snd (update (collection_handle name) selector
                        (entry_of queryArgs (VNum (Store.clock w)) results)
                        upsert_option wq)
             end
    end.
Proof.
  intros Hn name selector wq. subst name selector wq.
  unfold_invocation.
  rewrite get_not_nullish by (rewrite asCacheOptions_nullish; exact Hn).
  cbn [findOneAsync Store.driver]. rewrite name_of_handle.
  destruct (Store.lookup_error w) as [e|]; [store_settle|].
  cbv beta iota. rewrite useCached_eval by exact Hn.
  unfold cacheCollectionName, selector_of.
  destruct (usable _ opts).
  - match goal with
    | |- context [JS.get ?v "cachedResult"] => destruct (JS.get v "cachedResult")
    end; store_settle.
  - cbn [world trace fst snd aggregateAsync Store.driver].
    destruct (Store.aggregate_outcome w queryArgs) as [results|e];
      [|store_settle].
    cbn [world trace fst snd newDate update Store.driver entry_of
         upsert_option Store.clock Store.write_error Store.write_answered
         Store.with_collections].
    destruct (Store.write_error w) as [e|];
      cbn [fst snd world trace]; unfold_monad;
      destruct (Store.write_answered w); unfold_monad; store_settle.
Qed.

(** What an invocation of [cachedMapReduce] leaves in the store. *)
Lemma store_after_mapReduce (w : Store.mongo) opts queryArgs handler :
  JS.nullish opts = false ->
  let name := cacheCollectionName opts in
  let selector := selector_of queryArgs in
  let wq := snd (mapReduceAsync queryArgs w) in
  world (snd (run (cachedMapReduce (invocation opts queryArgs handler)) w))
  = match Store.lookup_error w with
    | Some _ => w
    | None =>
        if usable (Store.find_one selector (Store.collections w name)) opts
        then w
        else match Store.mapReduce_outcome w queryArgs with
             | Rejected _ => wq
             | Resolved result =>
                 snd (update (collection_handle name) selector
                        (entry_of queryArgs (VNum (Store.clock w))
                           (cacheable (inline_output queryArgs) result))
                        upsert_option wq)
             end
    end.
Proof.
  intros Hn name selector wq. subst name selector wq.
  destruct (usesInlineOutput_eval queryArgs) as (inline & Hi & Ht).
  unfold_invocation.
  rewrite get_not_nullish by (rewrite asCacheOptions_nullish; exact Hn).
  rewrite Hi. cbn [findOneAsync Store.driver]. rewrite name_of_handle.
  destruct (Store.lookup_error w) as [e|]; [store_settle|].
  cbv beta iota. rewrite useCached_eval by exact Hn.
  unfold cacheCollectionName, selector_of.
  destruct (usable _ opts).
  - match goal with
    | |- context [JS.get ?v "cachedResult"] => destruct (JS.get v "cachedResult")
    end; [|store_settle].
    destruct (JS.truthy inline); store_settle.
  - cbn [world trace fst snd mapReduceAsync Store.driver].
    destruct (Store.mapReduce_outcome w queryArgs) as [result|e];
      [|store_settle].
    cbv beta iota. rewrite resultToCache_eval, Ht.
    cbn [world trace fst snd newDate update Store.driver entry_of
         upsert_option Store.clock Store.write_error Store.write_answered
         Store.with_collections].
    destruct (Store.write_error w) as [e|];
      cbn [fst snd world trace]; unfold_monad;
      destruct (Store.write_answered w); unfold_monad; store_settle.
Qed.


(** ** Write, then read *)

Lemma entry_of_not_empty queryArgs now cachedResult :
  Lodash.isEmpty (entry_of queryArgs now cachedResult) = false.
Proof. reflexivity. Qed.




(** ** What an invocation leaves alone *)

Lemma filter_replace_first_other h0 doc docs docs' h :
  h <> h0 ->
  Store.has_hash h0 doc = true ->
  Store.replace_first (Store.by_hash h0) doc docs = Some docs' ->
  filter (Store.has_hash h) docs' = filter (Store.has_hash h) docs.
Proof.
  intros Hne Hdoc. revert docs'.
  induction docs as [|d docs IH]; intros docs' H; [discriminate|].
  rewrite replace_first_cons in H.
  destruct (Store.matches (Store.by_hash h0) d) eqn:Hd.
  - injection H as <-. cbn [filter].
    destruct (Store.has_hash h doc) eqn:H1.
    { elim Hne. exact (has_hash_functional _ _ _ H1 Hdoc). }
    destruct (Store.has_hash h d) eqn:H2; [|reflexivity].
    elim Hne. exact (has_hash_functional _ _ _ H2 Hd).
  - destruct (Store.replace_first (Store.by_hash h0) doc docs) as [rest|];
      [|discriminate].
    injection H as <-. cbn [filter]. rewrite (IH rest eq_refl). reflexivity.
Qed.

(** An upsert under [h0] leaves the entries under every other hash as they
    were: the same documents in the same order. *)
Lemma filter_upsert_other h0 doc docs h :
  h <> h0 ->
  Store.has_hash h0 doc = true ->
  filter (Store.has_hash h)
    (Store.update_docs (Store.by_hash h0) doc upsert_option docs)
  = filter (Store.has_hash h) docs.
Proof.
  intros Hne Hdoc. unfold Store.update_docs.
  destruct (Store.replace_first (Store.by_hash h0) doc docs) as [docs'|] eqn:Hr.
  - exact (filter_replace_first_other h0 doc docs docs' h Hne Hdoc Hr).
  - rewrite upsert_option_set, filter_app. cbn [filter].
    destruct (Store.has_hash h doc) eqn:H1; [|apply app_nil_r].
    elim Hne. exact (has_hash_functional _ _ _ H1 Hdoc).
Qed.

(** What a write of an invocation leaves alone. *)
Lemma store_write_frame (w : Store.mongo) name queryArgs now cachedResult n h :
  let w' := snd (update (collection_handle name) (selector_of queryArgs)
                   (entry_of queryArgs now cachedResult) upsert_option w) in
  (n <> name -> Store.collections w' n = Store.collections w n)
  /\ (h <> hashQueryArgs queryArgs ->
      filter (Store.has_hash h) (Store.collections w' n)
      = filter (Store.has_hash h) (Store.collections w n)).
Proof.
  intros w'. subst w'. cbn [update Store.driver].
  destruct (Store.write_error w); cbn [snd]; [split; reflexivity|].
  rewrite name_of_handle, collections_set_collection.
  destruct (Store.value_eqb n name) eqn:Hn.
  - apply value_eqb_sound in Hn. subst n. split; [intros H; elim H; reflexivity|].
    intros Hh.
    change (selector_of queryArgs) with (Store.by_hash (hashQueryArgs queryArgs)).
    apply filter_upsert_other; [exact Hh | apply entry_of_has_hash].
  - split; reflexivity.
Qed.

(** X9.  On the document store an invocation changes nothing but what
    its query writes and the entry under its own fingerprint in its own
    cache collection.  Compared with the store it found when no query was
    run, and with the store as the query left it when one was, every
    other collection holds exactly the same documents, and in every
    collection the entries under any other fingerprint are the same
    documents in the same order. *)
Theorem invocation_leaves_the_rest_alone :
  forall (w : Store.mongo) (opts : value) (queryArgs : list value)
         (handler : string) (n : value) (h : string),
    JS.nullish opts = false ->
    let entry := Store.find_one (selector_of queryArgs)
                   (Store.collections w (cacheCollectionName opts)) in
    let after (wq : Store.mongo) : Store.mongo :=
      match Store.lookup_error w with
      | Some _ => w
      | None => if usable entry opts then w else wq
      end in
    let untouched (w0 w' : Store.mongo) :=
      (n <> cacheCollectionName opts ->
       Store.collections w' n = Store.collections w0 n)
      /\ (h <> hashQueryArgs queryArgs ->
          filter (Store.has_hash h) (Store.collections w' n)
          = filter (Store.has_hash h) (Store.collections w0 n)) in
    untouched (after (snd (aggregateAsync queryArgs w)))
      (world (snd (run (cachedAggregate (invocation opts queryArgs handler)) w)))
    /\ untouched (after (snd (mapReduceAsync queryArgs w)))
         (world (snd (run (cachedMapReduce (invocation opts queryArgs handler)) w))).
Proof.
  intros w opts queryArgs handler n h Hn entry after untouched.
  subst entry after untouched. cbv beta.
  rewrite store_after_aggregate, store_after_mapReduce by exact Hn.
  cbv zeta.
  split.
  - destruct (Store.lookup_error w); [split; reflexivity|].
    destruct (usable _ opts); [split; reflexivity|].
    destruct (Store.aggregate_outcome w queryArgs); [|split; reflexivity].
    apply store_write_frame.
  - destruct (Store.lookup_error w); [split; reflexivity|].
    destruct (usable _ opts); [split; reflexivity|].
    destruct (Store.mapReduce_outcome w queryArgs); [|split; reflexivity].
    apply store_write_frame.
Qed.

(** X10.  On the document store the cache is changed by nothing but a
    query and the successful write that follows it.  When the lookup
    fails or the entry found is used, the store after the invocation is
    the store before it; when the query is run and fails, or its result
    cannot be written, it is the store as the query left it. *)
Theorem store_changes_only_after_a_query :
  forall (w : Store.mongo) (opts : value) (queryArgs : list value)
         (handler : string),
    JS.nullish opts = false ->
    let entry := Store.find_one (selector_of queryArgs)
                   (Store.collections w (cacheCollectionName opts)) in
    let aggregate :=
      world (snd (run (cachedAggregate (invocation opts queryArgs handler)) w)) in
    let mapReduce :=
      world (snd (run (cachedMapReduce (invocation opts queryArgs handler)) w)) in
    (Store.lookup_error w <> None \/ usable entry opts = true ->
     aggregate = w /\ mapReduce = w)
    /\ (Store.lookup_error w = None -> usable entry opts = false ->
        (forall e, Store.aggregate_outcome w queryArgs = Rejected e ->
                   aggregate = snd (aggregateAsync queryArgs w))
        /\ (forall e, Store.mapReduce_outcome w queryArgs = Rejected e ->
                      mapReduce = snd (mapReduceAsync queryArgs w))
        /\ (Store.write_error w <> None ->
            aggregate = snd (aggregateAsync queryArgs w)
            /\ mapReduce = snd (mapReduceAsync queryArgs w))).
Proof.
  intros w opts queryArgs handler Hn entry aggregate mapReduce.
  subst entry aggregate mapReduce.
  rewrite store_after_aggregate, store_after_mapReduce by exact Hn.
  cbv zeta.
  split.
  - intros H.
    destruct (Store.lookup_error w) as [e|] eqn:Hl; [split; reflexivity|].
    destruct (usable _ opts) eqn:Hu; [split; reflexivity|].
    destruct H as [H | H]; [elim H; reflexivity | discriminate].
  - intros -> ->. split; [|split].
    + intros e ->. reflexivity.
    + intros e ->. reflexivity.
    + intros H. cbn [update Store.driver Store.write_error
                     Store.with_collections aggregateAsync mapReduceAsync
                     snd].
      destruct (Store.write_error w) as [e|]; [|elim H; reflexivity].
      split.
      * destruct (Store.aggregate_outcome w queryArgs); reflexivity.
      * destruct (Store.mapReduce_outcome w queryArgs); reflexivity.
Qed.

Lemma leaves_the_rest_alone_witness :
  let w := Fixture.database [Scenario.other_entry] in
  let w' := world (snd (run (cachedMapReduce
                               (invocation (VStr "testCache")
                                  [VFun "map"; VFun "reduce"] Fixture.done))
                          w)) in
  Store.collections w' (VStr "elsewhere") = []
  /\ Store.collections w' (VStr "resultingWordCache") = Fixture.word_counts
  /\ filter (Store.has_hash "another fingerprint")
       (Store.collections w' (VStr "testCache"))
     = [Scenario.other_entry].
Proof.
  intros w w'.
  pose proof (fun n =>
                proj2 (invocation_leaves_the_rest_alone w (VStr "testCache")
                         [VFun "map"; VFun "reduce"] Fixture.done n
                         "another fingerprint" eq_refl)) as H.
  split; [|split].
  - refine (eq_trans (proj1 (H (VStr "elsewhere")) _) _);
      [discriminate | reflexivity].
  - refine (eq_trans (proj1 (H (VStr "resultingWordCache")) _) _);
      [discriminate | reflexivity].
  - refine (eq_trans (proj2 (H (VStr "testCache")) _) _).
    + intros E. vm_compute in E. discriminate E.
    + reflexivity.
Defined.

Lemma store_unchanged_witness :
  let call (arguments : list value) (w : Store.mongo) :=
    world (snd (run (cachedMapReduce arguments) w)) in
  let arguments := invocation (VStr "testCache") [VFun "map"; VFun "reduce"]
                     Fixture.done in
  let unreadable := Scenario.unreadable [Scenario.other_entry] in
  let unwritable := Scenario.unwritable [Scenario.other_entry] in
  call arguments unreadable = unreadable
  /\ Store.collections (call arguments unwritable) (VStr "testCache")
     = [Scenario.other_entry]
  /\ Store.collections (call arguments unwritable) (VStr "resultingWordCache")
     = Fixture.word_counts.
Proof.
  intros call arguments unreadable unwritable.
  split.
  - refine (proj2 (proj1 (store_changes_only_after_a_query unreadable
              (VStr "testCache") [VFun "map"; VFun "reduce"] Fixture.done
              eq_refl) _)).
    left. discriminate.
  - assert (H : call arguments unwritable
                = snd (mapReduceAsync [VFun "map"; VFun "reduce"] unwritable)).
    { refine (proj2 (proj2 (proj2 (proj2 (store_changes_only_after_a_query
                unwritable (VStr "testCache") [VFun "map"; VFun "reduce"]
                Fixture.done eq_refl) eq_refl eq_refl)) _)).
      discriminate. }
    rewrite H. split; reflexivity.
Defined.

(** ** Wrapping the class *)

Lemma prototype_get_set (p : Prototype.prototype) (k k' : string)
    (m : Prototype.member) :
  Prototype.get (Prototype.set p k m) k' =
  if String.eqb k' k then m else Prototype.get p k'.
Proof.
  induction p as [|[k0 m0] rest IH]; simpl.
  - reflexivity.
  - destruct (String.eqb k k0) eqn:Hk; simpl.
    + apply String.eqb_eq in Hk. subst k0.
      destruct (String.eqb k' k); reflexivity.
    + rewrite IH.
      destruct (String.eqb k' k0) eqn:Hk0; [|reflexivity].
      apply String.eqb_eq in Hk0. subst k0.
      rewrite String.eqb_sym, Hk. reflexivity.
Qed.

Lemma underscore_changes_name (c : ascii) (s : string) :
  String.eqb s (String c s) = false.
Proof.
  revert c. induction s as [|a s IH]; intros c; simpl.
  - reflexivity.
  - destruct (Ascii.eqb a c); [apply IH | reflexivity].
Qed.

Lemma ends_with_suffix (suffix k : string) :
  Prototype.ends_with suffix (k ++ suffix) = true.
Proof.
  induction k as [|c k IH]; simpl.
  - destruct suffix; simpl.
    + reflexivity.
    + rewrite Ascii.eqb_refl, String.eqb_refl. reflexivity.
  - rewrite IH. apply orb_true_r.
Qed.

Lemma promisifyAll_keeps (q : Prototype.prototype) (k : string) :
  Prototype.ends_with "Async" k = false ->
  Prototype.get (Prototype.promisifyAll q) k = Prototype.get q k.
Proof.
  intros Hk. unfold Prototype.promisifyAll.
  generalize q at 2 3. generalize q.
  intros l. induction l as [|[k0 m0] l IH]; intros acc; simpl.
  - reflexivity.
  - rewrite IH.
    destruct (Prototype.is_function m0 && negb (Prototype.underscored k0));
      [|reflexivity].
    rewrite prototype_get_set.
    destruct (String.eqb k (k0 ++ "Async")) eqn:E; [|reflexivity].
    apply String.eqb_eq in E. subst k.
    rewrite ends_with_suffix in Hk. discriminate.
Qed.

(** X11.  Wrapping a class that is already wrapped changes nothing,
    whatever [Promise.promisifyAll] does to the prototype: a second
    [wrap] stops at the [__is_wrapped__] mark the first one left. *)
Theorem wrap_twice_is_wrap_once
    (promisifyAll : Prototype.prototype -> Prototype.prototype)
    (p : Prototype.prototype) :
  Prototype.wrap promisifyAll (Prototype.wrap promisifyAll p) =
  Prototype.wrap promisifyAll p.
Proof.
  unfold Prototype.wrap at 2 3.
  destruct (Prototype.truthy (Prototype.get p "__is_wrapped__")) eqn:Hmark.
  - unfold Prototype.wrap. rewrite Hmark. reflexivity.
  - cbv zeta. unfold Prototype.wrap.
    rewrite prototype_get_set, String.eqb_refl. reflexivity.
Qed.

(** X12.  On a class not yet wrapped, and with a [promisifyAll] that leaves
    the properties named here as they are, [wrap] keeps the class's own
    [find] and [aggregate] under [_find] and [_aggregate], puts the
    cursor-promisifying functions in their place, installs
    [cachedAggregate] and [cachedMapReduce], and sets the mark. *)
Theorem wrap_keeps_the_originals
    (promisifyAll : Prototype.prototype -> Prototype.prototype)
    (p : Prototype.prototype) :
  Prototype.truthy (Prototype.get p "__is_wrapped__") = false ->
  (forall q k, In k Prototype.names ->
     Prototype.get (promisifyAll q) k = Prototype.get q k) ->
  let wrapped := Prototype.wrap promisifyAll p in
  Prototype.get wrapped "_find" = Prototype.get p "find" /\
  Prototype.get wrapped "_aggregate" = Prototype.get p "aggregate" /\
  Prototype.get wrapped "find" = Prototype.PromisifiedCursorFunction "_find" /\
  Prototype.get wrapped "aggregate" =
    Prototype.PromisifiedCursorFunction "_aggregate" /\
  Prototype.get wrapped "cachedAggregate" = Prototype.CachedAggregate /\
  Prototype.get wrapped "cachedMapReduce" = Prototype.CachedMapReduce /\
  Prototype.get wrapped "__is_wrapped__" = Prototype.Plain (VBool true).
Proof.
  intros Hmark Hkeeps wrapped. subst wrapped.
  unfold Prototype.wrap. rewrite Hmark. cbv zeta.
  unfold Prototype.ensurePromisifiedCursor.
  repeat split;
    rewrite prototype_get_set; cbn [String.eqb Ascii.eqb Bool.eqb];
    try reflexivity;
    (rewrite Hkeeps by (unfold Prototype.names; simpl; tauto));
    repeat (rewrite prototype_get_set; cbn [String.eqb Ascii.eqb Bool.eqb]);
    reflexivity.
Qed.

Lemma wrap_keeps_the_originals_witness :
  Prototype.get (Prototype.wrap Prototype.promisifyAll Prototype.native)
    "_find" = Prototype.get Prototype.native "find" /\
  Prototype.get (Prototype.wrap Prototype.promisifyAll Prototype.native)
    "find" = Prototype.PromisifiedCursorFunction "_find".
Proof.
  assert (Hkeeps : forall q k, In k Prototype.names ->
            Prototype.get (Prototype.promisifyAll q) k = Prototype.get q k).
  { intros q k Hk. apply promisifyAll_keeps.
    unfold Prototype.names in Hk. simpl in Hk.
    repeat (destruct Hk as [<- | Hk]; [reflexivity|]).
    destruct Hk. }
  pose proof (wrap_keeps_the_originals Prototype.promisifyAll
                Prototype.native eq_refl Hkeeps) as H.
  cbv zeta in H.
  split; [exact (proj1 H) | exact (proj1 (proj2 (proj2 H)))].
Defined.

(** X13.  [ensurePromisifiedCursor] must not be applied twice to the same
    name: the first time, the renamed property holds what the name held;
    the second time it is overwritten by the installed function, which
    calls the renamed property, that is, itself.  The function the class
    came with is then under neither name. *)
Theorem second_ensure_loses_the_original
    (p : Prototype.prototype) (funcName : string) :
  let renamed := ("_" ++ funcName)%string in
  let once := Prototype.ensurePromisifiedCursor p funcName in
  let twice := Prototype.ensurePromisifiedCursor once funcName in
  Prototype.get once renamed = Prototype.get p funcName /\
  Prototype.get once funcName = Prototype.PromisifiedCursorFunction renamed /\
  Prototype.get twice renamed = Prototype.PromisifiedCursorFunction renamed /\
  Prototype.get twice funcName = Prototype.PromisifiedCursorFunction renamed.
Proof.
  intros renamed once twice. subst renamed once twice.
  unfold Prototype.ensurePromisifiedCursor. cbv zeta.
  change ("_" ++ funcName)%string with (String "_" funcName).
  assert (Hne : String.eqb (String "_" funcName) funcName = false).
  { rewrite String.eqb_sym. apply underscore_changes_name. }
  repeat split;
    repeat (rewrite prototype_get_set;
            rewrite ?String.eqb_refl, ?Hne, ?underscore_changes_name);
    reflexivity.
Qed.

(** ** The installed function *)




(** X15.  The callback the installed function passes on in place of the
    caller's calls the caller's exactly once, with the error and the
    result it received and nothing more (a missing one is [undefined]),
    after promisifying the result when it is a cursor; what the caller's
    callback throws is thrown on to the original function. *)
Theorem callers_callback_sees_a_promisified_cursor
    {W : Type} {H : Cursor.Host W}
    (lastArg : value) (received : list value) (s : Cursor.state W) :
  let err := JS.index received 0 in
  let c := JS.index received 1 in
  let out := Cursor.replacedCallback lastArg received s in
  let body :=
    Cursor.lastArgBody lastArg [err; c] (Cursor.world s) in
  [err; c] = firstn 2 (received ++ [VUndefined; VUndefined]) /\
  Cursor.log (snd out) =
    Cursor.log s ++
    (if JS.truthy c && JS.is_function (JS.prop c "toArray")
     then [Cursor.PromisifyAll c] else []) ++
    [Cursor.Called lastArg [err; c]] /\
  fst out =
    match fst body with
    | None => JS.Normal tt
    | Some e => JS.Thrown e
    end /\
  Cursor.world (snd out) = snd body.
Proof.
  cbv zeta. split.
  { destruct received as [|a [|b rest]]; reflexivity. }
  unfold Cursor.replacedCallback, Cursor.promisifyIfCursor, Cursor.isCursor.
  cbv zeta.
  destruct (JS.truthy (JS.index received 1) &&
            JS.is_function (JS.prop (JS.index received 1) "toArray"));
    simpl;
    match goal with
    | |- context [Cursor.lastArgBody ?f ?a ?w] =>
        destruct (Cursor.lastArgBody f a w) as [[e|] w']
    end; simpl; rewrite <- ?app_assoc; repeat split; reflexivity.
Qed.

(** ** The connection string *)

Lemma string_app_assoc (a b c : string) :
  ((a ++ b) ++ c)%string = (a ++ (b ++ c))%string.
Proof.
  induction a as [|x a IH]; simpl; [reflexivity | rewrite IH; reflexivity].
Qed.

Lemma string_app_nil_r (a : string) : (a ++ EmptyString)%string = a.
Proof.
  induction a as [|x a IH]; simpl; [reflexivity | rewrite IH; reflexivity].
Qed.

Lemma add_text (s : string) (v : value) (text : string) :
  Connection.toString v = Some text ->
  Connection.add s v = Some (s ++ text)%string.
Proof.
  intros H. unfold Connection.add. rewrite H. reflexivity.
Qed.

Lemma add_extends (s s' : string) (v : value) :
  Connection.add s v = Some s' -> exists t, s' = (s ++ t)%string.
Proof.
  unfold Connection.add.
  destruct (Connection.toString v) as [text|]; simpl; [|discriminate].
  intros [= <-]. exists text. reflexivity.
Qed.

Lemma credentials_extends (conf : value) (s s' : string) :
  Connection.credentials conf s = Some s' ->
  exists t, s' = (s ++ t)%string.
Proof.
  unfold Connection.credentials. cbv zeta.
  destruct (Connection.hasLength _) as [[|]|]; [| |discriminate].
  - destruct (Connection.add s _) as [s1|] eqn:H1; [|discriminate].
    apply add_extends in H1. destruct H1 as [t1 ->].
    destruct (Connection.hasLength _) as [[|]|]; [| |discriminate].
    + destruct (Connection.add _ _) as [s2|] eqn:H2; simpl; [|discriminate].
      apply add_extends in H2. destruct H2 as [t2 ->].
      intros [= <-]. eexists. rewrite !string_app_assoc. reflexivity.
    + intros [= <-]. eexists. rewrite !string_app_assoc. reflexivity.
  - intros [= <-]. exists EmptyString. rewrite string_app_nil_r. reflexivity.
Qed.

Lemma addHost_extends (s s' : string) (host : value) (ind : nat) :
  Connection.addHost s host ind = Some (JS.Normal s') ->
  exists t, s' = (s ++ t)%string.
Proof.
  unfold Connection.addHost. cbv zeta.
  destruct (JS.get host "host") as [name|e]; [|discriminate].
  destruct (Connection.add _ name) as [s1|] eqn:H1; [|discriminate].
  apply add_extends in H1. destruct H1 as [t1 ->].
  destruct (JS.truthy _).
  - destruct (Connection.add _ _) as [s2|] eqn:H2; simpl; [|discriminate].
    apply add_extends in H2. destruct H2 as [t2 ->].
    intros [= <-]. destruct (Nat.eqb ind 0);
      eexists; rewrite !string_app_assoc; reflexivity.
  - intros [= <-]. destruct (Nat.eqb ind 0);
      eexists; rewrite ?string_app_assoc; reflexivity.
Qed.

Lemma eachHost_extends (hosts : list value) (ind : nat) (s s' : string) :
  Connection.eachHost hosts ind s = Some (JS.Normal s') ->
  exists t, s' = (s ++ t)%string.
Proof.
  revert ind s. induction hosts as [|host rest IH]; intros ind s; simpl.
  - intros [= <-]. exists EmptyString. rewrite string_app_nil_r. reflexivity.
  - destruct (Connection.addHost s host ind) as [[s1|e]|] eqn:H1;
      [|discriminate|discriminate].
    apply addHost_extends in H1. destruct H1 as [t1 ->].
    intros H. apply IH in H. destruct H as [t2 ->].
    eexists. rewrite !string_app_assoc. reflexivity.
Qed.

Lemma hostList_extends (conf : value) (s s' : string) :
  Connection.hostList conf s = Some (JS.Normal s') ->
  exists t, s' = (s ++ t)%string.
Proof.
  unfold Connection.hostList. cbv zeta.
  destruct (Connection.hasLength _) as [[|]|]; [| |discriminate].
  - destruct (Connection.and_ conf _); try discriminate.
    destruct (Connection.eachHost _ 0 s) as [[s1|e]|] eqn:H1;
      [|discriminate|discriminate].
    apply eachHost_extends in H1. destruct H1 as [t1 ->].
    intros [= <-]. eexists. rewrite !string_app_assoc. reflexivity.
  - intros [= <-]. exists EmptyString. rewrite string_app_nil_r. reflexivity.
Qed.

Lemma buildConnectionString_extends (conf : value) (s : string) :
  Connection.buildConnectionString conf = Some (JS.Normal s) ->
  exists rest, s = ("mongodb://" ++ rest)%string.
Proof.
  unfold Connection.buildConnectionString.
  destruct (Connection.credentials conf _) as [s1|] eqn:H1; [|discriminate].
  apply credentials_extends in H1. destruct H1 as [t1 ->].
  destruct (Connection.hostList conf _) as [[s2|e]|] eqn:H2;
    [|discriminate|discriminate].
  apply hostList_extends in H2. destruct H2 as [t2 ->].
  destruct (Connection.add _ _) as [s3|] eqn:H3; [|discriminate].
  apply add_extends in H3. destruct H3 as [t3 ->].
  cbv zeta. destruct (JS.truthy _).
  - destruct (Connection.add _ _) as [s4|] eqn:H4; simpl; [|discriminate].
    apply add_extends in H4. destruct H4 as [t4 ->].
    intros [= <-]. eexists. rewrite !string_app_assoc. reflexivity.
  - intros [= <-]. eexists. rewrite !string_app_assoc. reflexivity.
Qed.

Lemma toString_primitive (v : value) :
  Connection.primitive v = true -> exists t, Connection.toString v = Some t.
Proof.
  destruct v; try discriminate; intros _; eexists; reflexivity.
Qed.

Lemma add_primitive (s : string) (v : value) :
  Connection.primitive v = true -> exists s', Connection.add s v = Some s'.
Proof.
  intros H. destruct (toString_primitive v H) as [t Ht].
  exists (s ++ t)%string. apply add_text, Ht.
Qed.

Lemma hasLength_primitive (v : value) :
  Connection.primitive v = true -> exists b, Connection.hasLength v = Some b.
Proof.
  unfold Connection.hasLength.
  destruct v; try discriminate; intros _;
    destruct (JS.truthy _); eexists; reflexivity.
Qed.

Lemma credentials_total (conf : value) (s : string) :
  Connection.primitive (Connection.and_ conf (JS.prop conf "user")) = true ->
  Connection.primitive (JS.prop conf "pass") = true ->
  exists c, Connection.credentials conf s = Some c.
Proof.
  intros Huser Hpass. unfold Connection.credentials. cbv zeta.
  destruct (hasLength_primitive _ Huser) as [[|] ->];
    [|eexists; reflexivity].
  destruct (add_primitive s _ Huser) as [s1 ->].
  destruct (hasLength_primitive _ Hpass) as [[|] ->];
    [|eexists; reflexivity].
  destruct (add_primitive (s1 ++ ":") _ Hpass) as [s2 ->].
  eexists; reflexivity.
Qed.

(** A host either throws the TypeError of reading [host] of [undefined]
    or [null], or is written. *)
Lemma addHost_total (s : string) (host : value) (ind : nat) :
  Connection.plain_host host = true ->
  exists out,
    Connection.addHost s host ind = Some out
    /\ forall e, out = JS.Thrown e ->
                 e = JS.TypeError "Cannot read property host".
Proof.
  intros H. apply andb_true_iff in H. destruct H as [Hname Hport].
  unfold Connection.addHost, JS.get. cbv zeta.
  destruct (JS.nullish host).
  - eexists. split; [reflexivity|]. intros e [= <-]. reflexivity.
  - destruct (add_primitive (if Nat.eqb ind 0 then s else (s ++ ",")%string)
                _ Hname) as [s1 ->].
    destruct (JS.truthy (JS.prop host "port")).
    + destruct (add_primitive (s1 ++ ":") _ Hport) as [s2 ->].
      eexists. split; [reflexivity|]. discriminate.
    + eexists. split; [reflexivity|]. discriminate.
Qed.

Lemma eachHost_total (hosts : list value) :
  forallb Connection.plain_host hosts = true ->
  forall (ind : nat) (s : string),
  exists out,
    Connection.eachHost hosts ind s = Some out
    /\ forall e, out = JS.Thrown e ->
                 e = JS.TypeError "Cannot read property host".
Proof.
  induction hosts as [|host rest IH]; intros H ind s.
  - eexists. split; [reflexivity|]. discriminate.
  - cbn [forallb] in H. apply andb_true_iff in H. destruct H as [Hhost Hrest].
    cbn [Connection.eachHost].
    destruct (addHost_total s host ind Hhost) as ([s1|e] & -> & Hthrown).
    + apply IH, Hrest.
    + eexists. split; [reflexivity|]. exact Hthrown.
Qed.

Lemma hostList_total (conf : value) (s : string) :
  Connection.plain_hosts (Connection.and_ conf (JS.prop conf "hosts")) = true ->
  exists out,
    Connection.hostList conf s = Some out
    /\ forall e, out = JS.Thrown e ->
                 e = JS.TypeError "Cannot read property host".
Proof.
  unfold Connection.hostList. cbv zeta.
  assert (Hno : forall v,
             Connection.hasLength v = Some false ->
             exists out,
               match Connection.hasLength v with
               | Some true =>
                   match v with
                   | VArr items =>
                       match Connection.eachHost items 0 s with
                       | Some (JS.Normal string) =>
                           Some (JS.Normal (string ++ "/")%string)
                       | other => other
                       end
                   | _ => None
                   end
               | Some false => Some (JS.Normal s)
               | None => None
               end = Some out
               /\ forall e, out = JS.Thrown e ->
                            e = JS.TypeError "Cannot read property host").
  { intros v ->. eexists. split; [reflexivity|]. discriminate. }
  destruct (Connection.and_ conf (JS.prop conf "hosts"))
    as [| |b|n|t|f|items|fields]; cbn [Connection.plain_hosts]; intros H.
  - apply Hno. reflexivity.
  - apply Hno. reflexivity.
  - apply Hno. destruct b; reflexivity.
  - apply Hno. unfold Connection.hasLength. cbn [JS.truthy].
    destruct (negb (n =? 0)%Z); reflexivity.
  - apply String.eqb_eq in H. subst t. apply Hno. reflexivity.
  - discriminate H.
  - destruct (Connection.hasLength (VArr items)) as [[|]|] eqn:Hlen.
    + destruct (eachHost_total items H 0%nat s) as ([s1|e] & -> & Hthrown).
      * eexists. split; [reflexivity|]. discriminate.
      * eexists. split; [reflexivity|]. exact Hthrown.
    + eexists. split; [reflexivity|]. discriminate.
    + discriminate Hlen.
  - apply Hno. unfold Connection.hasLength.
    cbn [JS.truthy Connection.length option_map].
    apply negb_true_iff in H. rewrite H. reflexivity.
Qed.

(** X16.  For every configuration whose written parts are primitives and
    whose [hosts], if it has a length, is an array of hosts that are
    missing or have a primitive [host] and [port],
    [buildConnectionString] either returns a string that starts with
    [mongodb://] or throws the TypeError of a host that is [undefined] or
    [null]. *)
Theorem connection_string_has_the_scheme (conf : value) :
  Connection.plain conf = true ->
  exists out,
    Connection.buildConnectionString conf = Some out
    /\ match out with
       | JS.Normal s => exists rest, s = ("mongodb://" ++ rest)%string
       | JS.Thrown e => e = JS.TypeError "Cannot read property host"
       end.
Proof.
  intros H. unfold Connection.plain in H.
  repeat (apply andb_true_iff in H; destruct H as [H ?]).
  assert (Hdefined : exists out,
             Connection.buildConnectionString conf = Some out
             /\ forall e, out = JS.Thrown e ->
                          e = JS.TypeError "Cannot read property host").
  { unfold Connection.buildConnectionString.
    destruct (credentials_total conf "mongodb://") as [c ->];
      [assumption | assumption |].
    destruct (hostList_total conf c) as ([s1|e] & -> & Hthrown);
      [assumption | |].
    - destruct (add_primitive s1 (Connection.and_ conf (JS.prop conf "dbName")))
        as [s2 ->]; [assumption|].
      cbv zeta. destruct (JS.truthy _).
      + destruct (add_primitive (s2 ++ "?replicaSet=")
                    (Connection.and_ conf (JS.prop conf "replicaSet")))
          as [s3 ->]; [assumption|].
        eexists. split; [reflexivity|]. discriminate.
      + eexists. split; [reflexivity|]. discriminate.
    - eexists. split; [reflexivity|]. exact Hthrown. }
  destruct Hdefined as ([s1|e] & Hout & Hthrown); eexists;
    (split; [exact Hout|]).
  - exact (buildConnectionString_extends conf s1 Hout).
  - exact (Hthrown e eq_refl).
Qed.

Lemma has_the_scheme_witness :
  (exists rest,
      Connection.buildConnectionString Connection.full
      = Some (JS.Normal ("mongodb://" ++ rest)%string))
  /\ Connection.buildConnectionString Wrapper.missing_host
     = Some (JS.Thrown (JS.TypeError "Cannot read property host")).
Proof.
  split.
  - destruct (connection_string_has_the_scheme Connection.full eq_refl)
      as ([s|e] & Hout & Hs); [|discriminate Hout].
    destruct Hs as [rest ->]. exists rest. exact Hout.
  - destruct (connection_string_has_the_scheme Wrapper.missing_host eq_refl)
      as ([s|e] & Hout & Hs); [discriminate Hout|].
    rewrite Hout, Hs. reflexivity.
Defined.

(** X17.  A configuration that is missing or falsy does not make
    [buildConnectionString] throw: the configuration itself is written
    where the database name goes, so that no argument gives
    [mongodb://undefined] and [null] gives [mongodb://null]. *)
Theorem falsy_configuration_is_written_out (conf : value) :
  JS.truthy conf = false ->
  exists text,
    Connection.toString conf = Some text /\
    Connection.buildConnectionString conf =
      Some (JS.Normal ("mongodb://" ++ text)%string).
Proof.
  intros Hfalsy.
  destruct conf as [| |b|n|s|f|items|fields]; simpl in Hfalsy;
    try discriminate.
  - eexists; split; reflexivity.
  - eexists; split; reflexivity.
  - destruct b; [discriminate|]. eexists; split; reflexivity.
  - apply negb_false_iff, Z.eqb_eq in Hfalsy. subst n.
    eexists; split; reflexivity.
  - apply negb_false_iff, String.eqb_eq in Hfalsy. subst s.
    eexists; split; reflexivity.
Qed.

Lemma falsy_configuration_witness :
  Connection.buildConnectionString VUndefined =
    Some (JS.Normal "mongodb://undefined").
Proof.
  destruct (falsy_configuration_is_written_out VUndefined eq_refl)
    as (text & Htext & Hbuild).
  injection Htext as <-. exact Hbuild.
Defined.

(** X18.  The password counts only with a user: when [user] is missing or
    falsy, two configurations that agree on every property but [pass]
    give the same connection string. *)
Theorem password_needs_a_user (fields fields' : list (string * value)) :
  (forall k, k <> "pass" -> JS.assoc k fields = JS.assoc k fields') ->
  JS.truthy (JS.assoc "user" fields) = false ->
  Connection.buildConnectionString (VObj fields) =
  Connection.buildConnectionString (VObj fields').
Proof.
  intros Hsame Huser.
  assert (Huser' : JS.truthy (JS.assoc "user" fields') = false).
  { rewrite <- Hsame by discriminate. exact Huser. }
  unfold Connection.buildConnectionString, Connection.credentials,
    Connection.hostList, Connection.and_, Connection.hasLength.
  cbn [JS.truthy JS.prop]. cbv zeta.
  rewrite Huser, Huser'.
  rewrite <- (Hsame "hosts") by discriminate.
  rewrite <- (Hsame "dbName") by discriminate.
  rewrite <- (Hsame "replicaSet") by discriminate.
  reflexivity.
Qed.

Lemma password_needs_a_user_witness :
  Connection.buildConnectionString
    (VObj [("pass", VStr "testPass"); ("dbName", VStr "testDbName")]) =
  Connection.buildConnectionString (VObj [("dbName", VStr "testDbName")]).
Proof.
  apply password_needs_a_user.
  - intros k Hk. simpl.
    destruct (String.eqb k "pass") eqn:E; [|reflexivity].
    apply String.eqb_eq in E. contradiction.
  - reflexivity.
Defined.

Lemma addHost_of_text (s : string) (host : value) (ind : nat) (t : string) :
  Connection.hostText host = Some (JS.Normal t) ->
  Connection.addHost s host ind =
    Some (JS.Normal ((if Nat.eqb ind 0 then s else s ++ ",") ++ t)%string).
Proof.
  unfold Connection.hostText, Connection.addHost. cbv zeta.
  change (Nat.eqb 0 0) with true. cbv iota.
  destruct (JS.get host "host") as [name|e]; [|discriminate].
  unfold Connection.add.
  destruct (Connection.toString name) as [nt|]; simpl; [|discriminate].
  destruct (JS.truthy (JS.prop host "port")).
  - destruct (Connection.toString (JS.prop host "port")) as [pt|]; simpl;
      [|discriminate].
    intros [= <-]. rewrite !string_app_assoc. reflexivity.
  - intros [= <-]. reflexivity.
Qed.

Lemma eachHost_following (hosts : list value) (texts : list string) :
  Forall2 (fun host t => Connection.hostText host = Some (JS.Normal t))
          hosts texts ->
  forall (n : nat) (s : string),
    Connection.eachHost hosts (S n) s =
      Some (JS.Normal
              match texts with
              | [] => s
              | _ => (s ++ "," ++ JSON.join "," texts)%string
              end).
Proof.
  induction 1 as [|host t hosts texts Ht Hrest IH]; intros n s.
  - reflexivity.
  - cbn [Connection.eachHost].
    rewrite (addHost_of_text s host (S n) t Ht).
    cbn [Nat.eqb]. rewrite IH.
    destruct texts as [|t' texts]; cbn [JSON.join];
      rewrite ?string_app_assoc; reflexivity.
Qed.

Lemma eachHost_join (hosts : list value) (texts : list string) (s : string) :
  Forall2 (fun host t => Connection.hostText host = Some (JS.Normal t))
          hosts texts ->
  Connection.eachHost hosts 0 s =
    Some (JS.Normal (s ++ JSON.join "," texts)%string).
Proof.
  intros H. destruct H as [|host t hosts texts Ht Hrest].
  - simpl. rewrite string_app_nil_r. reflexivity.
  - cbn [Connection.eachHost].
    rewrite (addHost_of_text s host 0 t Ht). cbn [Nat.eqb].
    rewrite (eachHost_following hosts texts Hrest).
    destruct texts as [|t' texts]; cbn [JSON.join];
      rewrite ?string_app_assoc; reflexivity.
Qed.

Lemma eachHost_stops (before after : list value) (texts : list string)
    (bad : value) :
  Forall2 (fun host t => Connection.hostText host = Some (JS.Normal t))
          before texts ->
  JS.nullish bad = true ->
  forall (ind : nat) (s : string),
    Connection.eachHost (before ++ bad :: after) ind s =
      Some (JS.Thrown (JS.TypeError "Cannot read property host")).
Proof.
  intros H Hbad. induction H as [|host t hosts texts Ht Hrest IH];
    intros ind s.
  - cbn [app Connection.eachHost]. unfold Connection.addHost, JS.get.
    rewrite Hbad. reflexivity.
  - cbn [app Connection.eachHost].
    rewrite (addHost_of_text s host ind t Ht). apply IH.
Qed.

Lemma hasLength_items (items : list value) :
  items <> [] -> Connection.hasLength (VArr items) = Some true.
Proof.
  destruct items as [|x items]; [congruence|]. intros _.
  unfold Connection.hasLength. cbn [JS.truthy Connection.length option_map].
  destruct (Z.eqb_spec (Z.of_nat (List.length (x :: items))) 0) as [E|E];
    [|reflexivity].
  simpl List.length in E. lia.
Qed.

Lemma hasLength_text (s : string) :
  s <> EmptyString -> Connection.hasLength (VStr s) = Some true.
Proof.
  destruct s as [|c s]; [congruence|]. intros _.
  unfold Connection.hasLength. cbn [JS.truthy String.eqb negb].
  cbn [Connection.length option_map JS.truthy].
  destruct (Z.eqb_spec (Z.of_nat (String.length (String c s))) 0) as [E|E];
    [|reflexivity].
  simpl String.length in E. lia.
Qed.

Lemma hosts_of_object (conf : value) (items : list value) :
  JS.prop conf "hosts" = VArr items ->
  Connection.and_ conf (JS.prop conf "hosts") = VArr items.
Proof.
  intros H. destruct conf; try discriminate H.
  unfold Connection.and_. cbn [JS.truthy]. exact H.
Qed.

(** X19.  The hosts are written in the order of the array, separated by
    commas and followed by one slash: when [conf.hosts] is a non-empty
    array each of whose elements contributes a text (its [host], and
    [:port] when the port is truthy), the loop with its index test appends
    exactly these texts joined by [,], then [/]. *)
Theorem hosts_are_joined_with_commas
    (conf : value) (hosts : list value) (texts : list string) (s : string) :
  JS.prop conf "hosts" = VArr hosts ->
  hosts <> [] ->
  Forall2 (fun host t => Connection.hostText host = Some (JS.Normal t))
          hosts texts ->
  Connection.hostList conf s =
    Some (JS.Normal (s ++ JSON.join "," texts ++ "/")%string).
Proof.
  intros Hhosts Hne Htexts. unfold Connection.hostList. cbv zeta.
  rewrite (hosts_of_object conf hosts Hhosts).
  rewrite (hasLength_items hosts Hne).
  rewrite (eachHost_join hosts texts s Htexts).
  rewrite string_app_assoc. reflexivity.
Qed.

Lemma hosts_joined_witness :
  Connection.hostList Connection.full "mongodb://"
  = Some (JS.Normal "mongodb://testHost.com:12345,testHost2.com:67890/").
Proof.
  refine (hosts_are_joined_with_commas Connection.full _
            ["testHost.com:12345"; "testHost2.com:67890"] "mongodb://"
            eq_refl _ _).
  - discriminate.
  - repeat constructor.
Defined.

(** X20.  The elements of [hosts] have to be objects.  An element that is
    [undefined] or [null] makes [buildConnectionString] throw a TypeError,
    wherever it stands in the array; and a host given as a bare string is
    not used as the host name: it is written [undefined]. *)
Theorem hosts_must_be_objects
    (conf bad : value) (before after : list value) (texts : list string)
    (c name : string) :
  Connection.credentials conf "mongodb://" = Some c ->
  JS.prop conf "hosts" = VArr (before ++ bad :: after) ->
  Forall2 (fun host t => Connection.hostText host = Some (JS.Normal t))
          before texts ->
  JS.nullish bad = true ->
  Connection.buildConnectionString conf =
    Some (JS.Thrown (JS.TypeError "Cannot read property host")) /\
  Connection.hostText (VStr name) = Some (JS.Normal "undefined").
Proof.
  intros Hc Hhosts Htexts Hbad. split; [|reflexivity].
  unfold Connection.buildConnectionString. rewrite Hc.
  unfold Connection.hostList. cbv zeta.
  rewrite (hosts_of_object conf _ Hhosts).
  rewrite hasLength_items by (destruct before; discriminate).
  rewrite (eachHost_stops before after texts bad Htexts Hbad).
  reflexivity.
Qed.

Lemma hosts_must_be_objects_witness :
  Connection.buildConnectionString
    (VObj [("hosts", VArr [VObj [("host", VStr "testHost.com")]; VNull]);
           ("dbName", VStr "testDbName")]) =
    Some (JS.Thrown (JS.TypeError "Cannot read property host")).
Proof.
  refine (proj1 (hosts_must_be_objects
            (VObj [("hosts", VArr [VObj [("host", VStr "testHost.com")]; VNull]);
                   ("dbName", VStr "testDbName")])
            VNull [VObj [("host", VStr "testHost.com")]] [] ["testHost.com"]
            "mongodb://" "localhost" eq_refl eq_refl _ eq_refl)).
  repeat constructor.
Defined.

(** X21.  Nothing is escaped: a user name that contains a colon reads as a
    user and a password.  The user [u] with the password [p] and the user
    [u:p] without a password give the same connection string. *)
Theorem credentials_are_not_escaped
    (u p : string) (rest : list (string * value)) :
  u <> EmptyString ->
  p <> EmptyString ->
  Connection.buildConnectionString
    (VObj (("user", VStr u) :: ("pass", VStr p) :: rest)) =
  Connection.buildConnectionString
    (VObj (("user", VStr (u ++ ":" ++ p)) :: ("pass", VStr EmptyString) :: rest)).
Proof.
  intros Hu Hp.
  assert (Hup : (u ++ ":" ++ p)%string <> EmptyString).
  { destruct u; [congruence | discriminate]. }
  set (written := ("mongodb://" ++ u ++ ":" ++ p ++ "@")%string).
  assert (Hboth :
    Connection.credentials
      (VObj (("user", VStr u) :: ("pass", VStr p) :: rest)) "mongodb://"
    = Some written).
  { unfold Connection.credentials, Connection.and_.
    cbn [JS.truthy JS.prop JS.assoc String.eqb Ascii.eqb Bool.eqb]. cbv zeta.
    rewrite (hasLength_text u Hu), (hasLength_text p Hp).
    unfold Connection.add. cbn [Connection.toString option_map].
    subst written. rewrite !string_app_assoc. reflexivity. }
  assert (Hone :
    Connection.credentials
      (VObj (("user", VStr (u ++ ":" ++ p)) :: ("pass", VStr EmptyString) :: rest))
      "mongodb://"
    = Some written).
  { unfold Connection.credentials, Connection.and_.
    cbn [JS.truthy JS.prop JS.assoc String.eqb Ascii.eqb Bool.eqb]. cbv zeta.
    rewrite (hasLength_text _ Hup).
    unfold Connection.add. cbn [Connection.toString option_map].
    replace (Connection.hasLength (VStr EmptyString)) with (Some false)
      by reflexivity.
    subst written. rewrite !string_app_assoc. reflexivity. }
  unfold Connection.buildConnectionString. rewrite Hboth, Hone.
  reflexivity.
Qed.

Lemma not_escaped_witness :
  Connection.buildConnectionString
    (VObj [("user", VStr "testUser"); ("pass", VStr "testPass");
           ("dbName", VStr "testDbName")]) =
  Connection.buildConnectionString
    (VObj [("user", VStr "testUser:testPass"); ("pass", VStr EmptyString);
           ("dbName", VStr "testDbName")]).
Proof.
  apply (credentials_are_not_escaped "testUser" "testPass"
           [("dbName", VStr "testDbName")]); discriminate.
Defined.

(** ** Connections by database name *)

Lemma lookup_store (o : list (string * nat)) (k k' : string) (v : nat) :
  Wrapper.lookup k' (Wrapper.store o k v) =
  if String.eqb k' k then Some v else Wrapper.lookup k' o.
Proof.
  induction o as [|[k0 v0] rest IH]; simpl.
  - reflexivity.
  - destruct (String.eqb k k0) eqn:Hk; simpl.
    + apply String.eqb_eq in Hk. subst k0.
      destruct (String.eqb k' k); reflexivity.
    + rewrite IH.
      destruct (String.eqb k' k0) eqn:Hk0; [|reflexivity].
      apply String.eqb_eq in Hk0. subst k0.
      rewrite String.eqb_sym, Hk. reflexivity.
Qed.

Lemma lookup_delete (o : list (string * nat)) (k k' : string) :
  Wrapper.lookup k' (Wrapper.delete o k) =
  if String.eqb k' k then None else Wrapper.lookup k' o.
Proof.
  unfold Wrapper.delete.
  induction o as [|[k0 v0] rest IH]; simpl.
  - destruct (String.eqb k' k); reflexivity.
  - destruct (String.eqb k k0) eqn:Hk; simpl.
    + apply String.eqb_eq in Hk. subst k0. rewrite IH.
      destruct (String.eqb k' k); reflexivity.
    + rewrite IH.
      destruct (String.eqb k' k0) eqn:Hk0; [|reflexivity].
      apply String.eqb_eq in Hk0. subst k0.
      rewrite String.eqb_sym, Hk. reflexivity.
Qed.

Lemma nth_error_made (l : list Wrapper.status) (st : Wrapper.status) :
  nth_error (l ++ [st]) (List.length l) = Some st.
Proof.
  induction l as [|x l IH]; simpl; [reflexivity | exact IH].
Qed.

Lemma chosen_same_config (arg : value) (m m' : Wrapper.wrapper) :
  Wrapper.dbConfig m' = Wrapper.dbConfig m ->
  Wrapper.chosen arg m' = Wrapper.chosen arg m.
Proof.
  intros H. unfold Wrapper.chosen. rewrite H. reflexivity.
Qed.

(** What [connect] answers, and the module it leaves. *)
Lemma connect_inv (dbName : string) (config : value)
    (m m1 : Wrapper.wrapper) (a : Wrapper.answer)
    (evs : list Wrapper.event) :
  Wrapper.connect dbName config m = Some (a, evs, m1) ->
  exists st,
    a = Wrapper.Following (List.length (Wrapper.promises m)) /\
    m1 = {| Wrapper.dbConfig := Wrapper.dbConfig m;
            Wrapper.promises := Wrapper.promises m ++ [st];
            Wrapper.dbPromises :=
              Wrapper.store (Wrapper.dbPromises m) dbName
                            (List.length (Wrapper.promises m)) |} /\
    ((st = Wrapper.Pending /\
      exists fields cs,
        config = VObj fields /\
        Connection.buildConnectionString
          (VObj (Wrapper.extend fields "dbName" (VStr dbName)))
        = Some (JS.Normal cs) /\
        evs = [Wrapper.Connect cs
                 (Wrapper.getConnectionOptions
                    (VObj (Wrapper.extend fields "dbName" (VStr dbName))))])
     \/ (exists e, st = Wrapper.Rejected e /\ evs = [])).
Proof.
  unfold Wrapper.connect, Wrapper.cloneDeep.
  destruct (Wrapper.data config); [|discriminate].
  destruct config as [| | | | | | |fields]; try discriminate.
  cbv zeta.
  destruct (Connection.buildConnectionString _) as [[cs|e]|] eqn:Hb;
    [| |discriminate].
  - intros [= <- <- <-]. exists Wrapper.Pending.
    split; [reflexivity|]. split; [reflexivity|].
    left. split; [reflexivity|]. exists fields, cs. auto.
  - intros [= <- <- <-]. exists (Wrapper.Rejected e).
    split; [reflexivity|]. split; [reflexivity|].
    right. exists e. auto.
Qed.

Lemma connect_data (dbName : string) (config : value)
    (m : Wrapper.wrapper) (out : Wrapper.answer * list Wrapper.event * Wrapper.wrapper) :
  Wrapper.connect dbName config m = Some out ->
  Wrapper.cloneDeep config = Some config.
Proof.
  unfold Wrapper.connect, Wrapper.cloneDeep.
  destruct (Wrapper.data config); [reflexivity | discriminate].
Qed.

(** The ways [getDb] goes. *)
Lemma getDb_inv (arg : value) (m m1 : Wrapper.wrapper) (a : Wrapper.answer)
    (evs : list Wrapper.event) :
  Wrapper.getDb arg m = Some (a, evs, m1) ->
  (exists e, Wrapper.chosen arg m = JS.Thrown e /\
             a = Wrapper.Failing e /\ evs = [] /\ m1 = m)
  \/ (exists dbName config,
        Wrapper.chosen arg m = JS.Normal (dbName, config) /\
        Wrapper.inherited dbName = false /\
        ((exists promise,
            Wrapper.reusable dbName m = Some (Some promise) /\
            a = Wrapper.Following promise /\ evs = [] /\ m1 = m)
         \/ (Wrapper.reusable dbName m = Some None /\
             Wrapper.connect dbName config m = Some (a, evs, m1)))).
Proof.
  unfold Wrapper.getDb.
  destruct (Wrapper.chosen arg m) as [[dbName config]|e].
  - destruct (Wrapper.inherited dbName) eqn:Hin; [discriminate|].
    destruct (Wrapper.reusable dbName m) as [[promise|]|] eqn:Hre;
      [| |discriminate].
    + intros [= <- <- <-]. right. exists dbName, config.
      split; [reflexivity|]. split; [exact Hin|].
      left. exists promise. auto.
    + intros H. right. exists dbName, config. auto.
  - intros [= <- <- <-]. left. exists e. auto.
Qed.






(** X23.  One connection per name: once [getDb] has answered with a
    promise that is not rejected, the same call made again asks for no
    connection, leaves the module as it is and answers with the same
    promise; and no call asks for more than one connection. *)
Theorem one_connection_per_name
    (arg : value) (m m1 : Wrapper.wrapper) (promise : nat)
    (evs : list Wrapper.event) :
  Wrapper.getDb arg m = Some (Wrapper.Following promise, evs, m1) ->
  (forall e, nth_error (Wrapper.promises m1) promise <>
             Some (Wrapper.Rejected e)) ->
  Wrapper.getDb arg m1 = Some (Wrapper.Following promise, [], m1) /\
  (List.length evs <= 1)%nat.
Proof.
  intros H Hnot. apply getDb_inv in H.
  destruct H as [(e' & _ & [=] & _)
                | (dbName & config & Hc & Hin & [(p & Hre & [= ->] & -> & ->) | (Hre & Hcon)])].
  - split; [|simpl; lia].
    unfold Wrapper.getDb. rewrite Hc, Hin, Hre. reflexivity.
  - apply connect_inv in Hcon.
    destruct Hcon as (st & [= ->] & -> & Hst).
    assert (Hpending : st = Wrapper.Pending).
    { destruct Hst as [[-> _] | (e & -> & _)]; [reflexivity|].
      exfalso. apply (Hnot e). simpl. apply nth_error_made. }
    subst st. split.
    + match goal with
      | |- Wrapper.getDb arg ?m1 = _ =>
          pose proof (chosen_same_config arg m m1 eq_refl) as Hsame
      end.
      unfold Wrapper.getDb. rewrite Hsame, Hc, Hin.
      unfold Wrapper.reusable. simpl.
      rewrite lookup_store, String.eqb_refl, nth_error_made. reflexivity.
    + destruct Hst as [(_ & fields & cs & _ & _ & ->) | (e & _ & ->)];
        simpl; lia.
Qed.

Lemma one_connection_witness :
  let first := Wrapper.getDb (VStr "someDbName") Wrapper.configured in
  match first with
  | Some (_, evs, m1) =>
      List.length evs = 1%nat /\
      Wrapper.getDb (VStr "someDbName") m1 =
        Some (Wrapper.Following 0, [], m1)
  | None => False
  end.
Proof.
  simpl. split; [reflexivity|].
  refine (proj1 (one_connection_per_name (VStr "someDbName")
                   Wrapper.configured _ 0 _ eq_refl _)).
  intros e. simpl. discriminate.
Defined.

Lemma assoc_extend (fields : list (string * value)) (k k' : string)
    (v : value) :
  JS.assoc k' (Wrapper.extend fields k v)
  = if String.eqb k' k then v else JS.assoc k' fields.
Proof.
  induction fields as [|[k0 v0] rest IH]; simpl.
  - reflexivity.
  - destruct (String.eqb k k0) eqn:Hk; simpl.
    + apply String.eqb_eq in Hk. subst k0.
      destruct (String.eqb k' k); reflexivity.
    + rewrite IH.
      destruct (String.eqb k' k0) eqn:Hk0; [|reflexivity].
      apply String.eqb_eq in Hk0. subst k0.
      rewrite String.eqb_sym, Hk. reflexivity.
Qed.

(** X24.  Every connection [getDb] asks for is asked for with a
    connection string that starts with [mongodb://] and with the
    [connectTimeoutMS] of the configuration used when that is truthy, and
    with [1000] when it is missing, [0] or falsy otherwise: the timeout
    asked for is never falsy.  It is the only thing the call asks of the
    driver. *)
Theorem connections_have_a_timeout
    (arg : value) (m m1 : Wrapper.wrapper) (a : Wrapper.answer)
    (evs : list Wrapper.event) (cs : string) (opts : value) :
  Wrapper.getDb arg m = Some (a, evs, m1) ->
  In (Wrapper.Connect cs opts) evs ->
  (exists dbName config,
      Wrapper.chosen arg m = JS.Normal (dbName, config)
      /\ Wrapper.connectTimeoutMS opts
         = if JS.truthy (JS.prop config "connectTimeoutMS")
           then JS.prop config "connectTimeoutMS"
           else VNum 1000) /\
  JS.truthy (Wrapper.connectTimeoutMS opts) = true /\
  (exists rest, cs = ("mongodb://" ++ rest)%string) /\
  evs = [Wrapper.Connect cs opts].
Proof.
  intros H Hev. apply getDb_inv in H.
  destruct H as [(e' & _ & _ & -> & _)
                | (dbName & config & Hc & Hin & [(p & _ & _ & -> & _) | (Hre & Hcon)])];
    try (destruct Hev).
  apply connect_inv in Hcon.
  destruct Hcon as (st & _ & _ & [(_ & fields & cs' & -> & Hb & ->) | (e & _ & ->)]);
    [|destruct Hev].
  destruct Hev as [[= <- <-] | []].
  assert (Htimeout :
    Wrapper.connectTimeoutMS
      (Wrapper.getConnectionOptions
         (VObj (Wrapper.extend fields "dbName" (VStr dbName))))
    = if JS.truthy (JS.assoc "connectTimeoutMS" fields)
      then JS.assoc "connectTimeoutMS" fields
      else VNum 1000).
  { unfold Wrapper.connectTimeoutMS, Wrapper.getConnectionOptions.
    cbn [JS.prop JS.assoc String.eqb Ascii.eqb Bool.eqb].
    rewrite assoc_extend. reflexivity. }
  split; [|split; [|split]].
  - exists dbName, (VObj fields). split; [exact Hc | exact Htimeout].
  - rewrite Htimeout.
    destruct (JS.truthy (JS.assoc "connectTimeoutMS" fields)) eqn:Ht;
      [exact Ht | reflexivity].
  - exact (buildConnectionString_extends _ _ Hb).
  - reflexivity.
Qed.

Lemma connections_timeout_witness :
  let config := VObj [("connectTimeoutMS", VNum 0);
                      ("dbName", VStr "testDbName")] in
  Wrapper.getDb config Wrapper.initial
  = Some (Wrapper.Following 0,
          [Wrapper.Connect "mongodb://testDbName"
             (Wrapper.getConnectionOptions config)],
          {| Wrapper.dbConfig := VUndefined;
             Wrapper.promises := [Wrapper.Pending];
             Wrapper.dbPromises := [("testDbName", 0%nat)] |})
  /\ Wrapper.connectTimeoutMS (Wrapper.getConnectionOptions config)
     = VNum 1000.
Proof.
  intros config. split; [reflexivity|].
  destruct (connections_have_a_timeout config Wrapper.initial _ _ _
              "mongodb://testDbName" (Wrapper.getConnectionOptions config)
              eq_refl (or_introl eq_refl))
    as ((dbName & config' & Hc & Htimeout) & _).
  vm_compute in Hc. injection Hc as _ <-. exact Htimeout.
Defined.

Lemma nth_error_kept (l : list Wrapper.status) (st st' : Wrapper.status)
    (n : nat) :
  nth_error l n = Some st -> nth_error (l ++ [st']) n = Some st.
Proof.
  intros H. rewrite nth_error_app1; [exact H|].
  apply nth_error_Some. congruence.
Qed.

(** X25.  The callbacks of [close] delete whatever the name holds when
    they run, not the promise they were attached to.  When [close] is
    called on a rejected connection and [getDb] asks for a new one before
    the callbacks run, the callbacks delete the new promise while it is
    still pending, and the next [getDb] asks for the same connection a
    second time. *)
Theorem close_forgets_a_newer_connection
    (dbName : string) (m m1 : Wrapper.wrapper) (old new : nat) (err : value)
    (cs : string) (opts : value) :
  Wrapper.lookup dbName (Wrapper.dbPromises m) = Some old ->
  nth_error (Wrapper.promises m) old = Some (Wrapper.Rejected err) ->
  Wrapper.getDb (VStr dbName) m =
    Some (Wrapper.Following new, [Wrapper.Connect cs opts], m1) ->
  Wrapper.close dbName m = Some (Some old) /\
  new <> old /\
  exists m2 m3,
    Wrapper.closed dbName old m1 = Some ([], m2) /\
    nth_error (Wrapper.promises m2) new = Some Wrapper.Pending /\
    Wrapper.lookup dbName (Wrapper.dbPromises m2) = None /\
    Wrapper.getDb (VStr dbName) m2 =
      Some (Wrapper.Following (S new), [Wrapper.Connect cs opts], m3) /\
    nth_error (Wrapper.promises m3) new = Some Wrapper.Pending /\
    nth_error (Wrapper.promises m3) (S new) = Some Wrapper.Pending.
Proof.
  intros Hold Herr H. apply getDb_inv in H.
  destruct H as [(e' & _ & [=] & _)
                | (name & config & Hc & Hin & [(p & _ & _ & [=] & _) | (Hre & Hcon)])].
  assert (name = dbName /\ config = Wrapper.dbConfig m) as [-> ->].
  { unfold Wrapper.chosen in Hc. destruct (JS.truthy _); [|discriminate].
    injection Hc as <- <-. auto. }
  pose proof Hcon as Hagain.
  apply connect_inv in Hcon.
  destruct Hcon as (st & [= ->] & -> & [(-> & fields & cs' & Hcfg & Hb & [= -> ->]) | (e & _ & [=])]).
  assert (Hlt : (old < List.length (Wrapper.promises m))%nat).
  { apply nth_error_Some. congruence. }
  split.
  { unfold Wrapper.close. rewrite Hin, Hold. reflexivity. }
  split; [lia|].
  eexists. eexists.
  split.
  { unfold Wrapper.closed. cbn [Wrapper.promises].
    rewrite (nth_error_kept _ _ Wrapper.Pending _ Herr). reflexivity. }
  cbn [Wrapper.promises Wrapper.dbPromises Wrapper.dbConfig].
  split; [apply nth_error_made|].
  split; [rewrite lookup_delete, String.eqb_refl; reflexivity|].
  split.
  - unfold Wrapper.getDb, Wrapper.chosen. cbn [Wrapper.dbConfig].
    unfold Wrapper.chosen in Hc. destruct (JS.truthy _); [|discriminate].
    rewrite Hin. unfold Wrapper.reusable. cbn [Wrapper.dbPromises].
    rewrite lookup_delete, String.eqb_refl.
    apply connect_data in Hagain.
    unfold Wrapper.connect. rewrite Hagain, Hcfg. cbv zeta.
    rewrite Hb. cbn [Wrapper.promises Wrapper.dbConfig Wrapper.dbPromises].
    rewrite length_app. simpl List.length. rewrite Nat.add_1_r.
    reflexivity.
  - cbn [Wrapper.promises]. split.
    + apply nth_error_kept. apply nth_error_made.
    + rewrite <- Nat.add_1_r.
      replace (List.length (Wrapper.promises m) + 1)%nat
        with (List.length (Wrapper.promises m ++ [Wrapper.Pending]))
        by (rewrite length_app; reflexivity).
      apply nth_error_made.
Qed.

Lemma forgets_a_newer_connection_witness :
  exists m2 m3,
    Wrapper.lookup "someDbName" (Wrapper.dbPromises m2) = None /\
    nth_error (Wrapper.promises m2) 1 = Some Wrapper.Pending /\
    Wrapper.getDb (VStr "someDbName") m2 =
      Some (Wrapper.Following 2,
            [Wrapper.Connect "mongodb://localhost/someDbName"
               (Wrapper.getConnectionOptions VNull)],
            m3).
Proof.
  destruct (close_forgets_a_newer_connection "someDbName" Wrapper.refused
              _ 0 1 (VStr "connection refused")
              "mongodb://localhost/someDbName"
              (Wrapper.getConnectionOptions VNull)
              eq_refl eq_refl eq_refl)
    as (_ & _ & m2 & m3 & _ & Hpending & Hgone & Hagain & _).
  exists m2, m3. split; [exact Hgone|]. split; [exact Hpending | exact Hagain].
Defined.

Lemma length_settled (l : list Wrapper.status) (n : nat)
    (st outcome : Wrapper.status) :
  nth_error l n = Some st ->
  List.length (firstn n l ++ outcome :: skipn (S n) l) = List.length l.
Proof.
  revert n. induction l as [|x l IH]; intros [|n] H; simpl in *;
    try discriminate.
  - reflexivity.
  - f_equal. apply IH. exact H.
Qed.

(** X26.  The module stays in order: whatever [setConfig], [getDb], the
    driver's answers and the callbacks of [close] do to a module whose
    configuration is unset or an object and whose names all hold promises
    that were made leaves it so; in such a module [getDb] answers with a
    promise that was made, and the test for a promise to use again never
    meets a name that holds none. *)
Theorem module_stays_in_order (m : Wrapper.wrapper) :
  Wrapper.in_order m ->
  (forall config c m',
     Wrapper.setConfig config m = Some (c, m') -> Wrapper.in_order m') /\
  (forall arg a evs m',
     Wrapper.getDb arg m = Some (a, evs, m') ->
     Wrapper.in_order m' /\
     forall promise, a = Wrapper.Following promise ->
       (promise < List.length (Wrapper.promises m'))%nat) /\
  (forall promise outcome,
     Wrapper.in_order (Wrapper.settle promise outcome m)) /\
  (forall dbName promise evs m',
     Wrapper.closed dbName promise m = Some (evs, m') ->
     Wrapper.in_order m') /\
  (forall dbName, Wrapper.reusable dbName m <> None).
Proof.
  intros [Hconfig Hheld].
  split; [|split; [|split; [|split]]].
  - intros config c m'. unfold Wrapper.setConfig, Wrapper.cloneDeep.
    destruct config as [| | | | | | |fields];
      try (intros [= <- <-]; split; assumption).
    destruct (Wrapper.data (VObj fields)); [|discriminate].
    intros [= <- <-]. split; [right; exists fields; reflexivity | exact Hheld].
  - intros arg a evs m' H. apply getDb_inv in H.
    destruct H as [(e' & _ & -> & _ & ->)
                  | (dbName & config & Hc & Hin & [(p & Hre & -> & _ & ->) | (Hre & Hcon)])].
    + split; [split; assumption | discriminate].
    + split; [split; assumption|].
      intros promise [= <-]. apply (Hheld dbName).
      unfold Wrapper.reusable in Hre.
      destruct (Wrapper.lookup dbName (Wrapper.dbPromises m)) as [q|];
        [|discriminate].
      destruct (nth_error (Wrapper.promises m) q) as [[| |]|];
        try discriminate; injection Hre as ->; reflexivity.
    + apply connect_inv in Hcon. destruct Hcon as (st & -> & -> & _).
      split; [split|].
      * exact Hconfig.
      * intros name promise. cbn [Wrapper.dbPromises Wrapper.promises].
        rewrite lookup_store, length_app. simpl List.length.
        destruct (String.eqb name dbName).
        -- intros [= <-]. lia.
        -- intros H. apply Hheld in H. lia.
      * intros promise [= <-]. cbn [Wrapper.promises].
        rewrite length_app. simpl. lia.
  - intros promise outcome. unfold Wrapper.settle.
    destruct (nth_error (Wrapper.promises m) promise) as [[| |]|] eqn:Hp;
      try (split; assumption).
    split; [exact Hconfig|].
    intros name q. cbn [Wrapper.dbPromises Wrapper.promises].
    rewrite (length_settled _ _ _ outcome Hp). apply Hheld.
  - intros dbName promise evs m'. unfold Wrapper.closed. cbv zeta.
    assert (Hdeleted : Wrapper.in_order
              {| Wrapper.dbConfig := Wrapper.dbConfig m;
                 Wrapper.promises := Wrapper.promises m;
                 Wrapper.dbPromises :=
                   Wrapper.delete (Wrapper.dbPromises m) dbName |}).
    { split; [exact Hconfig|].
      intros name q. cbn [Wrapper.dbPromises Wrapper.promises].
      rewrite lookup_delete.
      destruct (String.eqb name dbName); [discriminate | apply Hheld]. }
    destruct (nth_error (Wrapper.promises m) promise) as [[| |]|];
      try discriminate; intros [= <- <-]; exact Hdeleted.
  - intros dbName. unfold Wrapper.reusable.
    destruct (Wrapper.lookup dbName (Wrapper.dbPromises m)) as [q|] eqn:Hq;
      [|discriminate].
    apply Hheld in Hq. apply nth_error_Some in Hq.
    destruct (nth_error (Wrapper.promises m) q) as [[| |]|];
      try discriminate. congruence.
Qed.

Lemma stays_in_order_witness :
  Wrapper.getDb (VStr "someDbName") Wrapper.configured
  = Some (Wrapper.Following 0,
          [Wrapper.Connect "mongodb://localhost/someDbName"
             (Wrapper.getConnectionOptions
                (Wrapper.dbConfig Wrapper.configured))],
          Wrapper.connecting)
  /\ Wrapper.in_order Wrapper.connecting
  /\ (0 < List.length (Wrapper.promises Wrapper.connecting))%nat
  /\ Wrapper.reusable "someDbName" Wrapper.connecting <> None
  /\ Wrapper.settle 0 (Wrapper.Fulfilled Wrapper.a_database)
       Wrapper.connecting
     = Wrapper.connected
  /\ Wrapper.in_order Wrapper.connected
  /\ Wrapper.closed "someDbName" 0 Wrapper.connected
     = Some ([Wrapper.Close Wrapper.a_database],
             {| Wrapper.dbConfig := Wrapper.dbConfig Wrapper.configured;
                Wrapper.promises := [Wrapper.Fulfilled Wrapper.a_database];
                Wrapper.dbPromises := [] |})
  /\ Wrapper.in_order
       {| Wrapper.dbConfig := Wrapper.dbConfig Wrapper.configured;
          Wrapper.promises := [Wrapper.Fulfilled Wrapper.a_database];
          Wrapper.dbPromises := [] |}.
Proof.
  assert (H : Wrapper.in_order Wrapper.configured).
  { split.
    - right. eexists. reflexivity.
    - intros dbName promise. simpl. discriminate. }
  destruct (proj1 (proj2 (module_stays_in_order Wrapper.configured H))
              (VStr "someDbName") _ _ _ eq_refl)
    as [Hconnecting Hmade].
  pose proof (proj1 (proj2 (proj2
                (module_stays_in_order Wrapper.connecting Hconnecting)))
                0%nat (Wrapper.Fulfilled Wrapper.a_database))
    as Hconnected.
  change (Wrapper.settle 0 (Wrapper.Fulfilled Wrapper.a_database)
            Wrapper.connecting)
    with Wrapper.connected in Hconnected.
  split; [reflexivity|].
  split; [exact Hconnecting|].
  split; [exact (Hmade 0%nat eq_refl)|].
  split; [exact (proj2 (proj2 (proj2 (proj2
            (module_stays_in_order Wrapper.connecting Hconnecting))))
            "someDbName")|].
  split; [reflexivity|].
  split; [exact Hconnected|].
  split; [reflexivity|].
  exact (proj1 (proj2 (proj2 (proj2
           (module_stays_in_order Wrapper.connected Hconnected))))
           "someDbName" 0%nat _ _ eq_refl).
Defined.

(** X27.  Closing makes room for a new connection: once the callbacks of
    [close] have run the name holds nothing, whether the database was
    closed or the connection had failed, every other name holds what it
    held, and the next [getDb] for the name makes a new promise. *)
Theorem closed_connection_is_made_anew
    (dbName : string) (promise : nat) (m m' : Wrapper.wrapper)
    (evs : list Wrapper.event) (arg config : value) :
  Wrapper.closed dbName promise m = Some (evs, m') ->
  Wrapper.chosen arg m = JS.Normal (dbName, config) ->
  Wrapper.inherited dbName = false ->
  Wrapper.lookup dbName (Wrapper.dbPromises m') = None /\
  (forall other, other <> dbName ->
     Wrapper.lookup other (Wrapper.dbPromises m') =
     Wrapper.lookup other (Wrapper.dbPromises m)) /\
  Wrapper.promises m' = Wrapper.promises m /\
  Wrapper.getDb arg m' = Wrapper.connect dbName config m'.
Proof.
  intros Hclosed Hc Hin.
  assert (Hm' : m' = {| Wrapper.dbConfig := Wrapper.dbConfig m;
                        Wrapper.promises := Wrapper.promises m;
                        Wrapper.dbPromises :=
                          Wrapper.delete (Wrapper.dbPromises m) dbName |}).
  { unfold Wrapper.closed in Hclosed. cbv zeta in Hclosed.
    destruct (nth_error (Wrapper.promises m) promise) as [[| |]|];
      try discriminate; injection Hclosed as _ <-; reflexivity. }
  subst m'. cbn [Wrapper.dbPromises Wrapper.promises].
  assert (Hgone : Wrapper.lookup dbName
                    (Wrapper.delete (Wrapper.dbPromises m) dbName) = None).
  { rewrite lookup_delete, String.eqb_refl. reflexivity. }
  split; [exact Hgone|].
  split.
  { intros other Hother. rewrite lookup_delete.
    destruct (String.eqb other dbName) eqn:E; [|reflexivity].
    apply String.eqb_eq in E. contradiction. }
  split; [reflexivity|].
  match goal with
  | |- Wrapper.getDb arg ?m1 = _ =>
      pose proof (chosen_same_config arg m m1 eq_refl) as Hsame
  end.
  unfold Wrapper.getDb. rewrite Hsame, Hc, Hin.
  unfold Wrapper.reusable. cbn [Wrapper.dbPromises]. rewrite Hgone.
  reflexivity.
Qed.

Lemma made_anew_witness :
  let after :=
    {| Wrapper.dbConfig := Wrapper.dbConfig Wrapper.configured;
       Wrapper.promises := [Wrapper.Fulfilled Wrapper.a_database];
       Wrapper.dbPromises := [] |} in
  Wrapper.closed "someDbName" 0 Wrapper.connected =
    Some ([Wrapper.Close Wrapper.a_database], after) /\
  Wrapper.getDb (VStr "someDbName") after =
  Wrapper.connect "someDbName" (Wrapper.dbConfig Wrapper.configured) after.
Proof.
  intros after. split; [reflexivity|].
  exact (proj2 (proj2 (proj2
    (closed_connection_is_made_anew "someDbName" 0 Wrapper.connected
       after [Wrapper.Close Wrapper.a_database]
       (VStr "someDbName") (Wrapper.dbConfig Wrapper.configured)
       eq_refl eq_refl eq_refl)))).
Defined.
